(** * Chat_App: the room fan-out loop, the room registry, the upgrade route
      and the broadcast payload

    A shallow embedding of [room.go], [client.go] and the [/room] handler of
    [main.go].  Goroutines are modelled by interleaving: every blocking
    channel operation is one action of a transition function, and a run of
    the program is a list of actions. *)

From Stdlib Require Import Ascii.
From stdpp Require Import gmap strings list fin_maps sorting pretty.

Open Scope string_scope.

(** ** Constants of [room.go] *)

Definition socketBufferSize : nat := 1024.
Definition messageBufferSize : nat := 256.

(** ** Pointers

    [*client] and [*room] values are addresses; two clients are the same
    member exactly when their addresses are equal. *)

Abbreviation cptr := positive.
Abbreviation rptr := positive.

(** ** Go channels

    A buffered channel of byte slices: its capacity, the pending elements
    (oldest first) and whether [close] was called on it.  A [[]byte] is a
    [string] here (a list of 8-bit characters). *)

Record chan : Type := Chan {
  cap : nat;
  buf : list string;
  closed : bool
}.

Definition make_chan (n : nat) : chan := Chan n [] false.

Inductive fault : Type :=
| CloseOfClosedChannel
| SendOnClosedChannel
| NilDereference.

(** Outcome of one operation: it completes, it cannot take place in the
    current state (the goroutine stays suspended), or the runtime panics. *)
Inductive result (A : Type) : Type :=
| Ok (a : A)
| Blocked
| Panic (f : fault).
Arguments Ok {A} a.
Arguments Blocked {A}.
Arguments Panic {A} f.

(** [ch <- v] *)
Definition chan_send (ch : chan) (v : string) : result chan :=
  if closed ch then Panic SendOnClosedChannel
  else if (length (buf ch) <? cap ch)%nat
       then Ok (Chan (cap ch) (buf ch ++ [v]) false)
       else Blocked.

(** [close(ch)] *)
Definition chan_close (ch : chan) : result chan :=
  if closed ch then Panic CloseOfClosedChannel
  else Ok (Chan (cap ch) (buf ch) true).

(** [v, ok := <-ch]: the oldest element; [None] is the end of a closed and
    drained channel (where [for v := range ch] stops). *)
Definition chan_recv (ch : chan) : result (option string * chan) :=
  match buf ch with
  | v :: rest => Ok (Some v, Chan (cap ch) rest (closed ch))
  | [] => if closed ch then Ok (None, ch) else Blocked
  end.

(** ** [client] ([client.go])

    [socket] is the external connection; what the model keeps of it is
    whether the [write] goroutine of the client is still running. *)

Record client : Type := Client {
  name : string;
  receive : chan;
  room : rptr;
  writing : bool
}.

Definition set_receive (cl : client) (ch : chan) : client :=
  Client (name cl) ch (room cl) (writing cl).

Definition stop_writing (cl : client) : client :=
  Client (name cl) (receive cl) (room cl) false.

(** ** [room] ([room.go])

    [clients] is the [map[*client]bool]; the three request channels are
    unbuffered, so a request is handed over at the moment [run] receives it. *)

Inductive room_pc : Type :=
| Select
| Sending (msg : string) (cur : cptr) (rest : list cptr).

Record room_t : Type := Room {
  clients : gmap positive bool;
  at_pc : room_pc
}.

Definition newRoom : room_t := Room ∅ Select.

(** One room together with the client objects it may point to. *)
Record state : Type := State {
  rm : room_t;
  heap : gmap positive client
}.

Definition members (s : state) : gset positive := dom (clients (rm s)).

(** Clients the running [for client := range r.clients] has not sent to yet. *)
Definition pending_pc (p : room_pc) : list positive :=
  match p with
  | Select => []
  | Sending _ cur rest => cur :: rest
  end.

Definition pending (s : state) : list positive := pending_pc (at_pc (rm s)).

(** Position of [run] once the loop body was entered with [todo] left:
    the next send, or back at [select] when the range is exhausted. *)
Definition range_pc (msg : string) (todo : list positive) : room_pc :=
  match todo with
  | [] => Select
  | c :: rest => Sending msg c rest
  end.

Inductive action : Type :=
| AJoin (c : cptr)
| ALeave (c : cptr)
| AForward (msg : string) (order : list cptr)
| ASend
| ADrain (c : cptr) (ok : bool)
| AWriterEnd (c : cptr).

(** [run], one action at a time.

    - [AJoin c], [ALeave c], [AForward msg order]: the three cases of the
      [select]; [order] is the order in which [range] visits the keys of
      [r.clients] (Go leaves it unspecified), so it must list every key
      once.
    - [ASend]: the pending [client.receive <- msg] of the loop body.
    - [ADrain c ok], [AWriterEnd c]: the [write] goroutine of [c] takes one
      element ([ok]: [WriteMessage] succeeded) or finds the channel closed
      and drained. *)
Definition step (a : action) (s : state) : result state :=
  let r := rm s in
  match a with
  | AJoin c =>
      match at_pc r with
      | Select => Ok (State (Room (<[c := true]> (clients r)) Select) (heap s))
      | Sending _ _ _ => Blocked
      end
  | ALeave c =>
      match at_pc r with
      | Select =>
          let r' := Room (delete c (clients r)) Select in
          match heap s !! c with
          | None => Panic NilDereference
          | Some cl =>
              match chan_close (receive cl) with
              | Ok ch => Ok (State r' (<[c := set_receive cl ch]> (heap s)))
              | Blocked => Blocked
              | Panic f => Panic f
              end
          end
      | Sending _ _ _ => Blocked
      end
  | AForward msg order =>
      match at_pc r with
      | Select =>
          if bool_decide (NoDup order ∧ list_to_set order = dom (clients r))
          then Ok (State (Room (clients r) (range_pc msg order)) (heap s))
          else Blocked
      | Sending _ _ _ => Blocked
      end
  | ASend =>
      match at_pc r with
      | Select => Blocked
      | Sending msg c rest =>
          match heap s !! c with
          | None => Panic NilDereference
          | Some cl =>
              match chan_send (receive cl) msg with
              | Ok ch => Ok (State (Room (clients r) (range_pc msg rest))
                                   (<[c := set_receive cl ch]> (heap s)))
              | Blocked => Blocked
              | Panic f => Panic f
              end
          end
      end
  | ADrain c ok =>
      match heap s !! c with
      | None => Blocked
      | Some cl =>
          if writing cl then
            match chan_recv (receive cl) with
            | Ok (Some _, ch) =>
                let cl' := set_receive cl ch in
                Ok (State r (<[c := if ok then cl' else stop_writing cl']> (heap s)))
            | Ok (None, _) => Blocked
            | Blocked => Blocked
            | Panic f => Panic f
            end
          else Blocked
      end
  | AWriterEnd c =>
      match heap s !! c with
      | None => Blocked
      | Some cl =>
          if writing cl then
            match chan_recv (receive cl) with
            | Ok (None, _) => Ok (State r (<[c := stop_writing cl]> (heap s)))
            | Ok (Some _, _) => Blocked
            | Blocked => Blocked
            | Panic f => Panic f
            end
          else Blocked
      end
  end.

(** A run: the actions of a trace taken one after the other. *)
Fixpoint exec (tr : list action) (s : state) : result state :=
  match tr with
  | [] => Ok s
  | a :: tr' =>
      match step a s with
      | Ok s' => exec tr' s'
      | Blocked => Blocked
      | Panic f => Panic f
      end
  end.

(** Number of elements the [write] goroutine of [c] takes in a trace. *)
Fixpoint drains (c : positive) (tr : list action) : nat :=
  match tr with
  | [] => 0
  | ADrain c' _ :: tr' => (if decide (c' = c) then 1 else 0) + drains c tr'
  | _ :: tr' => drains c tr'
  end.

(** What the specification promises [c]: reading the requests of a trace in
    the order they are processed, the payload of every broadcast met while
    [c] is a member ([member]: whether it is one at the start). *)
Fixpoint deliveries (c : positive) (member : bool) (tr : list action) : list string :=
  match tr with
  | [] => []
  | AJoin c' :: tr' => deliveries c (member || bool_decide (c' = c)) tr'
  | ALeave c' :: tr' => deliveries c (member && negb (bool_decide (c' = c))) tr'
  | AForward msg _ :: tr' => (if member then [msg] else []) ++ deliveries c member tr'
  | _ :: tr' => deliveries c member tr'
  end.

(** The payload a broadcast under way still owes [c]. *)
Definition owed (c : positive) (s : state) : list string :=
  match at_pc (rm s) with
  | Select => []
  | Sending msg cur rest => if bool_decide (c ∈ cur :: rest) then [msg] else []
  end.

Definition is_member (c : positive) (s : state) : bool :=
  bool_decide (c ∈ members s).

(** The pending elements of the outbound queue of [c]. *)
Definition queue (c : positive) (s : state) : option (list string) :=
  (λ cl, buf (receive cl)) <$> heap s !! c.

Definition is_request (a : action) : bool :=
  match a with
  | AJoin _ | ALeave _ | AForward _ _ => true
  | _ => false
  end.

(** A queue is ready for a send: allocated, open, with a free slot. *)
Definition ready (h : gmap positive client) (c : positive) : Prop :=
  ∃ cl, h !! c = Some cl ∧ closed (receive cl) = false
        ∧ length (buf (receive cl)) < cap (receive cl).

(** The loop is held up in its send to [x]: the queue of [x] is open and
    has no free slot. *)
Definition blocked_on (s : state) (msg : string) (x : positive) (rest : list positive) : Prop :=
  at_pc (rm s) = Sending msg x rest ∧
  ∃ cl, heap s !! x = Some cl ∧ closed (receive cl) = false
        ∧ (cap (receive cl) ≤ length (buf (receive cl)))%nat.

(** ** The registry ([rooms], [mu], [getRoom])

    [rooms] is the package-level map; [room_heap] holds the objects
    [newRoom] allocated and [running] the rooms whose [run] goroutine was
    started, most recent first. *)

Record registry : Type := Registry {
  rooms : gmap string positive;
  room_heap : gmap positive room_t;
  running : list positive
}.

Definition empty_registry : registry := Registry ∅ ∅ [].

(** [getRoom] as one step (the body between [mu.Lock] and [mu.Unlock]). *)
Definition getRoom (nm : string) (g : registry) : rptr * registry :=
  match rooms g !! nm with
  | Some r => (r, g)
  | None =>
      let r := fresh (dom (room_heap g)) in
      (r, Registry (<[nm := r]> (rooms g)) (<[r := newRoom]> (room_heap g))
                   (r :: running g))
  end.

(** [getRoom] statement by statement, for concurrent callers. *)
Inductive getRoom_pc : Type :=
| AtLock
| AtLookup
| AtNewRoom
| AtStore (r : rptr)
| AtGo (r : rptr)
| AtUnlock (r : rptr)
| Returned (r : rptr).

Record call : Type := Call {
  arg : string;
  pos : getRoom_pc
}.

Record world : Type := World {
  reg : registry;
  mu : bool;
  calls : list call
}.

Definition in_critical (p : getRoom_pc) : bool :=
  match p with
  | AtLock | Returned _ => false
  | _ => true
  end.

(** One statement of the call [k]; a call waiting for the mutex, or one
    that has returned, leaves everything as it is. *)
Definition call_step (g : registry) (locked : bool) (k : call)
  : registry * bool * call :=
  match pos k with
  | AtLock =>
      if locked then (g, locked, k) else (g, true, Call (arg k) AtLookup)
  | AtLookup =>
      match rooms g !! arg k with
      | Some r => (g, locked, Call (arg k) (AtUnlock r))
      | None => (g, locked, Call (arg k) AtNewRoom)
      end
  | AtNewRoom =>
      let r := fresh (dom (room_heap g)) in
      (Registry (rooms g) (<[r := newRoom]> (room_heap g)) (running g),
       locked, Call (arg k) (AtStore r))
  | AtStore r =>
      (Registry (<[arg k := r]> (rooms g)) (room_heap g) (running g),
       locked, Call (arg k) (AtGo r))
  | AtGo r =>
      (Registry (rooms g) (room_heap g) (r :: running g),
       locked, Call (arg k) (AtUnlock r))
  | AtUnlock r => (g, false, Call (arg k) (Returned r))
  | Returned _ => (g, locked, k)
  end.

(** The scheduler lets call number [i] run one statement. *)
Definition sched_step (w : world) (i : nat) : world :=
  match calls w !! i with
  | None => w
  | Some k =>
      let '(g, l, k') := call_step (reg w) (mu w) k in
      World g l (<[i := k']> (calls w))
  end.

Definition run_sched (sched : list nat) (w : world) : world :=
  foldl sched_step w sched.

(** Program start: no room, the mutex free, the given calls about to begin. *)
Definition init_world (names : list string) : world :=
  World empty_registry false ((λ nm, Call nm AtLock) <$> names).

(** [r] is the room of some name. *)
Definition registered (g : registry) (r : positive) : Prop := ∃ n, rooms g !! n = Some r.

(** Holds at every moment: registered rooms are allocated, no room is
    registered under two names, and a loop runs once, for a registered room. *)
Definition registry_base (g : registry) : Prop :=
  (∀ r, registered g r → r ∈ dom (room_heap g))
  ∧ (∀ n1 n2 r, rooms g !! n1 = Some r → rooms g !! n2 = Some r → n1 = n2)
  ∧ NoDup (running g)
  ∧ (∀ r, r ∈ running g → registered g r).

(** Holds whenever nobody is between lookup and unlock: every allocated
    room is registered and its loop runs. *)
Definition quiescent (g : registry) : Prop :=
  (∀ r, r ∈ dom (room_heap g) → registered g r)
  ∧ (∀ r, registered g r → r ∈ running g).

(** What a call knows at each of its positions. *)
Definition call_ok (g : registry) (k : call) : Prop :=
  match pos k with
  | AtLock => True
  | AtLookup => quiescent g
  | AtNewRoom => rooms g !! arg k = None ∧ quiescent g
  | AtStore r =>
      rooms g !! arg k = None ∧ r ∈ dom (room_heap g) ∧ ¬ registered g r
      ∧ (∀ r', r' ∈ dom (room_heap g) → r' = r ∨ registered g r')
      ∧ (∀ r', registered g r' → r' ∈ running g)
  | AtGo r =>
      rooms g !! arg k = Some r ∧ (r ∉ running g)
      ∧ (∀ r', r' ∈ dom (room_heap g) → registered g r')
      ∧ (∀ r', registered g r' → r' = r ∨ r' ∈ running g)
  | AtUnlock r => rooms g !! arg k = Some r ∧ quiescent g
  | Returned r => rooms g !! arg k = Some r
  end.

Definition world_inv (w : world) : Prop :=
  registry_base (reg w)
  ∧ (mu w = false → quiescent (reg w))
  ∧ (∀ i k, calls w !! i = Some k → call_ok (reg w) k)
  ∧ (mu w = false → ∀ i k, calls w !! i = Some k → in_critical (pos k) = false)
  ∧ (∀ i j ki kj, calls w !! i = Some ki → calls w !! j = Some kj →
       in_critical (pos ki) = true → in_critical (pos kj) = true → i = j).

(** [m] statements of one call in a row. *)
Fixpoint call_run (m : nat) (g : registry) (locked : bool) (k : call)
  : registry * bool * call :=
  match m with
  | O => (g, locked, k)
  | S m' => let '(g', l', k') := call_step g locked k in call_run m' g' l' k'
  end.

(** ** The upgrade route ([ServeHTTP] of [room.go], [/room] of [main.go]) *)

Record server : Type := Server {
  registry_of : registry;
  client_heap : gmap positive client
}.

(** What the handlers look at in a request: the method, the URL query, and
    whether [upgrader.Upgrade] accepts the handshake. *)
Record request : Type := Request {
  method : string;
  query : gmap string (list string);
  handshake : bool
}.

(** [url.Values.Get]: the first value of the key, or the empty string. *)
Definition Query_Get (q : gmap string (list string)) (key : string) : string :=
  match q !! key with
  | Some (v :: _) => v
  | _ => EmptyString
  end.

Definition StatusBadRequest : nat := 400.
Definition StatusOK : nat := 200.

Inductive reply : Type :=
| HttpError (msg : string) (code : nat)
| WriteHeader (code : nat)
| UpgradeError
| Serving (r : rptr) (c : cptr).

(** [ServeHTTP] up to the point where the new client is handed to
    [realRoom.join]; [rnd] is the value of [rand.Intn(1000)]. *)
Definition ServeHTTP (req : request) (rnd : nat) (sv : server) : reply * server :=
  let roomName := Query_Get (query req) "room" in
  if decide (roomName = EmptyString)
  then (HttpError "Missing room parameter" StatusBadRequest, sv)
  else
    let '(realRoom, g) := getRoom roomName (registry_of sv) in
    if handshake req then
      let c := fresh (dom (client_heap sv)) in
      let cl := Client ("user" +:+ pretty (rnd mod 1000)%nat)
                       (make_chan messageBufferSize) realRoom true in
      (Serving realRoom c, Server g (<[c := cl]> (client_heap sv)))
    else (UpgradeError, Server g (client_heap sv)).

(** The function registered for [/room] in [main]. *)
Definition room_route (req : request) (rnd : nat) (sv : server) : reply * server :=
  let roomName := Query_Get (query req) "room" in
  if decide (roomName = EmptyString)
  then (HttpError "Missing room parameter" StatusBadRequest, sv)
  else
    let '(_, g) := getRoom roomName (registry_of sv) in
    ServeHTTP req rnd (Server g (client_heap sv)).

(** [CORSMiddleware], which the variant of [main] that serves [/health]
    puts in front of every route (the headers it sets are left out): a
    preflight request is answered at once. *)
Definition CORSMiddleware (next : request → nat → server → reply * server)
    (req : request) (rnd : nat) (sv : server) : reply * server :=
  if decide (method req = "OPTIONS") then (WriteHeader StatusOK, sv)
  else next req rnd sv.

(** ** The payload of a broadcast ([read] of [client.go])

    [encoding/json] is Go's library; what [json.Marshal] does with a
    [map[string]string] is written out here: the keys sorted bytewise, every
    key and value quoted by the encoder's string routine (with its default
    HTML escaping). *)

Definition quote_char : ascii := ascii_of_nat 34.
Definition backslash : ascii := ascii_of_nat 92.

Definition hex_digit (n : N) : ascii :=
  match String.get (N.to_nat n) "0123456789abcdef" with
  | Some a => a
  | None => "0"%char
  end.

Definition byte_in (lo hi : N) (b : ascii) : bool :=
  ((lo <=? N_of_ascii b) && (N_of_ascii b <=? hi))%N.

(** The encoder's table of bytes copied as they are: printable ASCII but
    the quote, the backslash and [<], [>], [&]. *)
Definition htmlSafe (b : ascii) : bool :=
  byte_in 32 127 b
  && negb (bool_decide (b = quote_char)) && negb (bool_decide (b = backslash))
  && negb (bool_decide (b = "<"%char)) && negb (bool_decide (b = ">"%char))
  && negb (bool_decide (b = "&"%char)).

(** One byte below [utf8.RuneSelf]. *)
Definition escape_byte (b : ascii) : string :=
  if htmlSafe b then String b EmptyString
  else if bool_decide (b = quote_char) || bool_decide (b = backslash)
       then String backslash (String b EmptyString)
  else if bool_decide (N_of_ascii b = 8%N) then String backslash "b"
  else if bool_decide (N_of_ascii b = 12%N) then String backslash "f"
  else if bool_decide (N_of_ascii b = 10%N) then String backslash "n"
  else if bool_decide (N_of_ascii b = 13%N) then String backslash "r"
  else if bool_decide (N_of_ascii b = 9%N) then String backslash "t"
  else String backslash
         ("u00" +:+ String (hex_digit (N.shiftr (N_of_ascii b) 4))
                      (String (hex_digit (N.land (N_of_ascii b) 15)) EmptyString)).

Definition continuation (lo hi : N) (n : nat) (s : string) : bool :=
  match n, s with
  | 1%nat, String b1 _ => byte_in lo hi b1
  | 2%nat, String b1 (String b2 _) => byte_in lo hi b1 && byte_in 128 191 b2
  | 3%nat, String b1 (String b2 (String b3 _)) =>
      byte_in lo hi b1 && byte_in 128 191 b2 && byte_in 128 191 b3
  | _, _ => false
  end.

(** [utf8.DecodeRuneInString] on a first byte [b0 >= 0x80] followed by [t]:
    the number of bytes after [b0] that belong to the rune, or [None] for
    [RuneError] of width one. *)
Definition rune_tail (b0 : ascii) (t : string) : option nat :=
  let ok (lo hi : N) (n : nat) := if continuation lo hi n t then Some n else None in
  if byte_in 194 223 b0 then ok 128%N 191%N 1%nat
  else if byte_in 224 224 b0 then ok 160%N 191%N 2%nat
  else if byte_in 225 236 b0 || byte_in 238 239 b0 then ok 128%N 191%N 2%nat
  else if byte_in 237 237 b0 then ok 128%N 159%N 2%nat
  else if byte_in 240 240 b0 then ok 144%N 191%N 3%nat
  else if byte_in 241 243 b0 then ok 128%N 191%N 3%nat
  else if byte_in 244 244 b0 then ok 128%N 143%N 3%nat
  else None.

(** The bytes E2 80 A8 and E2 80 A9 (U+2028, U+2029): the last hexadecimal
    digit of the rune. *)
Definition line_separator (b0 b1 b2 : ascii) : option ascii :=
  if bool_decide (N_of_ascii b0 = 226%N) && bool_decide (N_of_ascii b1 = 128%N)
  then if bool_decide (N_of_ascii b2 = 168%N) then Some "8"%char
       else if bool_decide (N_of_ascii b2 = 169%N) then Some "9"%char
       else None
  else None.

(** The encoder's loop over the bytes of a string; [copy] counts the bytes
    left of a rune that is copied as it is. *)
Fixpoint appendString_from (copy : nat) (s : string) : string :=
  match s with
  | EmptyString => EmptyString
  | String b t =>
      match copy with
      | S k => String b (appendString_from k t)
      | O =>
          if (N_of_ascii b <? 128)%N
          then escape_byte b +:+ appendString_from 0 t
          else match rune_tail b t with
               | None => String backslash "ufffd" +:+ appendString_from 0 t
               | Some k =>
                   match t with
                   | String b1 (String b2 t3) =>
                       match line_separator b b1 b2 with
                       | Some d =>
                           String backslash ("u202" +:+ String d (appendString_from 0 t3))
                       | None => String b (appendString_from k t)
                       end
                   | _ => String b (appendString_from k t)
                   end
               end
      end
  end.

Definition appendString (s : string) : string :=
  String quote_char (appendString_from 0 s +:+ String quote_char EmptyString).

Definition key_le (x y : string * string) : Prop := String.leb x.1 y.1 = true.

#[global] Instance key_le_dec : RelDecision key_le :=
  λ x y, decide (String.leb x.1 y.1 = true).

Fixpoint encode_fields (kvs : list (string * string)) : string :=
  match kvs with
  | [] => EmptyString
  | [(k, v)] => appendString k +:+ ":" +:+ appendString v
  | (k, v) :: rest => appendString k +:+ ":" +:+ appendString v +:+ "," +:+ encode_fields rest
  end.

(** [json.Marshal] of a non-nil [map[string]string]; the error result is
    part of its signature, no string makes it fail. *)
Definition json_Marshal (m : gmap string string) : option string :=
  Some ("{" +:+ encode_fields (merge_sort key_le (map_to_list m)) +:+ "}").

(** The map literal built for an inbound frame. *)
Definition outgoing (c : client) (msg : string) : gmap string string :=
  <["message" := msg]> (<["name" := name c]> ∅).

(** [read]: the payloads submitted to [c.room.forward] for the frames
    [ReadMessage] returns before its first error. *)
Fixpoint read (c : client) (frames : list string) : list string :=
  match frames with
  | [] => []
  | msg :: rest =>
      match json_Marshal (outgoing c msg) with
      | Some jsMessage => jsMessage :: read c rest
      | None => read c rest
      end
  end.

(** The text [json.Marshal] gives for the record of a frame [msg] from a
    client named [nm]. *)
Definition payload_text (nm msg : string) : string :=
  "{" +:+ appendString "message" +:+ ":" +:+ appendString msg +:+ ","
      +:+ appendString "name" +:+ ":" +:+ appendString nm +:+ "}".

(** ** UTF-8, as the Unicode standard defines it

    Written from the definition of the encoding form (a scalar value, not
    a surrogate, in its shortest form), not from the byte tables of Go's
    decoder; the two are compared in the proofs. *)

(** The six payload bits of a continuation byte [10xxxxxx]. *)
Definition trail (b : ascii) : option N :=
  let n := N_of_ascii b in
  if ((128 <=? n) && (n <? 192))%N then Some (n - 128)%N else None.

Definition surrogate (cp : N) : bool := ((55296 <=? cp) && (cp <=? 57343))%N.

(** The scalar value that the bytes [b0 t] start with, and the number of
    bytes after [b0] that belong to it. *)
Definition utf8_scalar (b0 : ascii) (t : string) : option (N * nat) :=
  let n := N_of_ascii b0 in
  if (n <? 128)%N then Some (n, 0%nat)
  else if (n <? 192)%N then None
  else if (n <? 224)%N then
    match t with
    | String b1 _ =>
        match trail b1 with
        | Some x1 =>
            let cp := ((n - 192) * 64 + x1)%N in
            if (128 <=? cp)%N then Some (cp, 1%nat) else None
        | None => None
        end
    | _ => None
    end
  else if (n <? 240)%N then
    match t with
    | String b1 (String b2 _) =>
        match trail b1, trail b2 with
        | Some x1, Some x2 =>
            let cp := (((n - 224) * 64 + x1) * 64 + x2)%N in
            if ((2048 <=? cp) && negb (surrogate cp))%N then Some (cp, 2%nat) else None
        | _, _ => None
        end
    | _ => None
    end
  else if (n <? 248)%N then
    match t with
    | String b1 (String b2 (String b3 _)) =>
        match trail b1, trail b2, trail b3 with
        | Some x1, Some x2, Some x3 =>
            let cp := ((((n - 240) * 64 + x1) * 64 + x2) * 64 + x3)%N in
            if ((65536 <=? cp) && (cp <=? 1114111))%N then Some (cp, 3%nat) else None
        | _, _, _ => None
        end
    | _ => None
    end
  else None.

(** [s] is well-formed UTF-8 ([copy]: bytes of the current character still
    to pass). *)
Fixpoint wellformed_from (copy : nat) (s : string) : bool :=
  match s with
  | EmptyString => true
  | String b t =>
      match copy with
      | S k => wellformed_from k t
      | O =>
          match utf8_scalar b t with
          | Some (_, k) => wellformed_from k t
          | None => false
          end
      end
  end.

Definition utf8_wellformed (s : string) : bool := wellformed_from 0 s.

(** U+FFFD in UTF-8. *)
Definition replacement_raw : string :=
  String (ascii_of_N 239) (String (ascii_of_N 191) (String (ascii_of_N 189) EmptyString)).

(** The text of a frame with every byte that is not part of a well-formed
    character replaced by U+FFFD. *)
Fixpoint to_valid_from (copy : nat) (s : string) : string :=
  match s with
  | EmptyString => EmptyString
  | String b t =>
      match copy with
      | S k => String b (to_valid_from k t)
      | O =>
          match utf8_scalar b t with
          | Some (_, k) => String b (to_valid_from k t)
          | None => replacement_raw +:+ to_valid_from 0 t
          end
      end
  end.

Definition to_valid (s : string) : string := to_valid_from 0 s.

(** ** The encoder of the newer toolchains

    For an ill-formed byte [encoding/json] writes the six characters
    backslash, u, f, f, f, d ([appendString_from] above); built on
    [encoding/json/v2], as the newer toolchains build it, it writes the
    character U+FFFD itself.  The repository fixes no toolchain.  Here is
    the loop with this text left open, and the payload of the second
    kind. *)
Fixpoint appendString_with (bad : string) (copy : nat) (s : string) : string :=
  match s with
  | EmptyString => EmptyString
  | String b t =>
      match copy with
      | S k => String b (appendString_with bad k t)
      | O =>
          if (N_of_ascii b <? 128)%N
          then escape_byte b +:+ appendString_with bad 0 t
          else match rune_tail b t with
               | None => bad +:+ appendString_with bad 0 t
               | Some k =>
                   match t with
                   | String b1 (String b2 t3) =>
                       match line_separator b b1 b2 with
                       | Some d =>
                           String backslash
                             ("u202" +:+ String d (appendString_with bad 0 t3))
                       | None => String b (appendString_with bad k t)
                       end
                   | _ => String b (appendString_with bad k t)
                   end
               end
      end
  end.

Definition appendString_raw (s : string) : string :=
  String quote_char (appendString_with replacement_raw 0 s +:+ String quote_char EmptyString).

Fixpoint encode_fields_raw (kvs : list (string * string)) : string :=
  match kvs with
  | [] => EmptyString
  | [(k, v)] => appendString_raw k +:+ ":" +:+ appendString_raw v
  | (k, v) :: rest =>
      appendString_raw k +:+ ":" +:+ appendString_raw v +:+ "," +:+ encode_fields_raw rest
  end.

Definition json_Marshal_raw (m : gmap string string) : option string :=
  Some ("{" +:+ encode_fields_raw (merge_sort key_le (map_to_list m)) +:+ "}").

Definition payload_text_raw (nm msg : string) : string :=
  "{" +:+ appendString_raw "message" +:+ ":" +:+ appendString_raw msg +:+ ","
      +:+ appendString_raw "name" +:+ ":" +:+ appendString_raw nm +:+ "}".

(** ** Reading a payload back

    Not part of the program: a reader of JSON text, used to state that a
    payload is JSON and what it says.  It is strict and accepts less than
    the grammar allows: one object of string fields without white space;
    in a string no raw control byte, no byte that is not part of a
    well-formed UTF-8 character, no escape but the eight two-character
    ones and [\u] with four hexadecimal digits, and no surrogate (so no
    surrogate pair).  What it accepts is JSON. *)

Definition hex_value (a : ascii) : option N :=
  let n := N_of_ascii a in
  if ((48 <=? n) && (n <=? 57))%N then Some (n - 48)%N
  else if ((97 <=? n) && (n <=? 102))%N then Some (n - 87)%N
  else if ((65 <=? n) && (n <=? 70))%N then Some (n - 55)%N
  else None.

Definition hex4 (h1 h2 h3 h4 : ascii) : option N :=
  match hex_value h1, hex_value h2, hex_value h3, hex_value h4 with
  | Some a, Some b, Some c, Some d => Some (((a * 16 + b) * 16 + c) * 16 + d)%N
  | _, _, _, _ => None
  end.

Definition utf8_encode (cp : N) : string :=
  if (cp <? 128)%N then String (ascii_of_N cp) EmptyString
  else if (cp <? 2048)%N
  then String (ascii_of_N (192 + cp / 64))
         (String (ascii_of_N (128 + cp mod 64)) EmptyString)
  else String (ascii_of_N (224 + cp / 4096))
         (String (ascii_of_N (128 + (cp / 64) mod 64))
            (String (ascii_of_N (128 + cp mod 64)) EmptyString)).

Definition simple_escape (e : ascii) : option ascii :=
  if bool_decide (e = quote_char) then Some quote_char
  else if bool_decide (e = backslash) then Some backslash
  else if bool_decide (e = "/"%char) then Some "/"%char
  else if bool_decide (e = "b"%char) then Some (ascii_of_N 8)
  else if bool_decide (e = "f"%char) then Some (ascii_of_N 12)
  else if bool_decide (e = "n"%char) then Some (ascii_of_N 10)
  else if bool_decide (e = "r"%char) then Some (ascii_of_N 13)
  else if bool_decide (e = "t"%char) then Some (ascii_of_N 9)
  else None.

Definition prepend (d : string) (p : string * string) : string * string :=
  (d +:+ p.1, p.2).

(** After an opening quote: the decoded string up to the closing quote and
    the text that follows it ([copy]: bytes of the current character still
    to take). *)
Fixpoint read_body (copy : nat) (s : string) : option (string * string) :=
  match s with
  | EmptyString => None
  | String b t =>
      match copy with
      | S k => prepend (String b EmptyString) <$> read_body k t
      | O =>
          if bool_decide (b = quote_char) then Some (EmptyString, t)
          else if bool_decide (b = backslash) then
            match t with
            | EmptyString => None
            | String e t' =>
                if bool_decide (e = "u"%char) then
                  match t' with
                  | String h1 (String h2 (String h3 (String h4 t''))) =>
                      match hex4 h1 h2 h3 h4 with
                      | Some cp =>
                          if surrogate cp then None
                          else prepend (utf8_encode cp) <$> read_body 0 t''
                      | None => None
                      end
                  | _ => None
                  end
                else
                  match simple_escape e with
                  | Some c => prepend (String c EmptyString) <$> read_body 0 t'
                  | None => None
                  end
            end
          else if (N_of_ascii b <? 32)%N then None
          else
            match utf8_scalar b t with
            | Some (_, k) => prepend (String b EmptyString) <$> read_body k t
            | None => None
            end
      end
  end.

Definition read_string (s : string) : option (string * string) :=
  match s with
  | String q t => if bool_decide (q = quote_char) then read_body 0 t else None
  | EmptyString => None
  end.

(** The fields of an object of strings, after its opening brace. *)
Fixpoint read_fields (fuel : nat) (s : string) : option (list (string * string)) :=
  match fuel with
  | O => None
  | S fuel' =>
      match read_string s with
      | Some (k, String sep1 rest) =>
          if bool_decide (sep1 = ":"%char) then
            match read_string rest with
            | Some (v, String sep2 rest') =>
                if bool_decide (sep2 = ","%char)
                then cons (k, v) <$> read_fields fuel' rest'
                else if bool_decide (sep2 = "}"%char)
                     then match rest' with
                          | EmptyString => Some [(k, v)]
                          | _ => None
                          end
                     else None
            | _ => None
            end
          else None
      | _ => None
      end
  end.

Definition read_object (s : string) : option (list (string * string)) :=
  match s with
  | String b t =>
      if bool_decide (b = "{"%char) then read_fields (String.length s) t else None
  | EmptyString => None
  end.

Fixpoint is_ascii (s : string) : bool :=
  match s with
  | EmptyString => true
  | String b t => (N_of_ascii b <? 128)%N && is_ascii t
  end.

(** The first [k] bytes of [s] (as far as it goes) are at least 0x80. *)
Fixpoint high_prefix (k : nat) (s : string) : Prop :=
  match k, s with
  | S k', String b t => (128 ≤ N_of_ascii b)%N ∧ high_prefix k' t
  | _, _ => True
  end.

(** ** Example states *)

Definition alice : positive := 1%positive.
Definition bob : positive := 2%positive.
Definition carol : positive := 3%positive.

Definition fresh_client (nm : string) : client :=
  Client nm (make_chan messageBufferSize) 1%positive true.

(** [alice] and [bob] have joined, [carol] is connected but her join has
    not been processed. *)
Definition lobby : state :=
  State (Room {[ alice := true; bob := true ]} Select)
        {[ alice := fresh_client "user1"; bob := fresh_client "user2";
           carol := fresh_client "user3" ]}.

Definition lobby_trace : list action :=
  [AForward "m1" [bob; alice]; ASend; ADrain bob true; ASend;
   AJoin carol; AForward "m2" [carol; alice; bob]; ASend; ASend; ASend;
   ALeave alice; AForward "m3" [bob; carol]; ASend; ASend].

Definition lobby_after : state :=
  match exec lobby_trace lobby with
  | Ok s => s
  | _ => lobby
  end.

(** [alice] alone in a room, her queue holding one payload. *)
Definition solo : state :=
  State (Room {[ alice := true ]} Select)
        {[ alice := Client "user1" (Chan messageBufferSize ["m0"] false) 1%positive true ]}.

Definition solo_left : state :=
  State (Room ∅ Select)
        {[ alice := Client "user1" (Chan messageBufferSize ["m0"] true) 1%positive true ]}.

Definition solo_trace : list action :=
  [AForward "m1" []; ADrain alice true; AForward "m2" []].

Definition solo_drained : state :=
  State (Room ∅ Select)
        {[ alice := Client "user1" (Chan messageBufferSize [] true) 1%positive true ]}.

(** The loop is delivering "m9" to [alice], whose queue is full, with
    [bob] still to be served. *)
Definition jammed : state :=
  State (Room {[ alice := true; bob := true ]} (Sending "m9" alice [bob]))
        {[ alice := Client "user1" (Chan messageBufferSize (replicate messageBufferSize "m0") false)
                           1%positive true;
           bob := fresh_client "user2" ]}.

(** The same, after the connection of [alice] has gone: her writer has
    returned on a failed write. *)
Definition jammed_gone : state :=
  State (Room {[ alice := true; bob := true ]} (Sending "m9" alice [bob]))
        {[ alice := Client "user1" (Chan messageBufferSize (replicate messageBufferSize "m0") false)
                           1%positive false;
           bob := fresh_client "user2" ]}.

(** Two connections race for a room that does not exist yet, a third asks
    for another room. *)
Definition race : world := init_world ["new-room"; "new-room"; "alpha"].

Definition race_sched : list nat :=
  [0; 1; 2; 0; 1; 0; 2; 0; 0; 1; 0; 1; 2; 1; 1; 2; 2; 2; 2; 2; 2; 1; 0]%nat.

Definition no_server : server := Server empty_registry ∅.


(** ** Further notions for the statements about the loop *)

(** What the [write] goroutine of [c] takes from its queue along a run,
    each element with the outcome of its [WriteMessage]. *)
Fixpoint taken (c : positive) (tr : list action) (s : state) : list (string * bool) :=
  match tr with
  | [] => []
  | a :: tr' =>
      match step a s with
      | Ok s1 =>
          match a, queue c s with
          | ADrain c' ok, Some (v :: _) =>
              if decide (c' = c) then (v, ok) :: taken c tr' s1 else taken c tr' s1
          | _, _ => taken c tr' s1
          end
      | _ => []
      end
  end.

(** The payloads that went out on the connection of [c]. *)
Definition written (c : positive) (tr : list action) (s : state) : list string :=
  (filter (λ p, p.2 = true) (taken c tr s)).*1.

(** The queue of [c] is allocated and open. *)
Definition client_open (h : gmap positive client) (c : positive) : Prop :=
  ∃ cl, h !! c = Some cl ∧ closed (receive cl) = false.

(** Members have open queues, and a broadcast under way still owes its
    payload to members only, each once. *)
Definition room_wf (s : state) : Prop :=
  (∀ c, c ∈ members s → client_open (heap s) c)
  ∧ (∀ c, c ∈ pending s → c ∈ members s)
  ∧ NoDup (pending s).

(** The discipline of [ServeHTTP] towards the loop: it joins a client whose
    queue is open, and leaves only a client that is a member. *)
Definition allowed (a : action) (s : state) : Prop :=
  match a with
  | AJoin c => client_open (heap s) c
  | ALeave c => c ∈ members s
  | _ => True
  end.

Fixpoint follows (tr : list action) (s : state) : Prop :=
  match tr with
  | [] => True
  | a :: tr' =>
      allowed a s ∧
      match step a s with
      | Ok s1 => follows tr' s1
      | _ => True
      end
  end.

(** [alice] receives one payload and leaves. *)
Definition solo_session : list action :=
  [AForward "m1" [alice]; ASend; ALeave alice].

(** [lobby] with the writer of [alice] returned and two slots left in her
    queue. *)
Definition lobby_mute : state :=
  State (Room {[ alice := true; bob := true ]} Select)
        {[ alice := Client "user1" (Chan 3 ["m0"] false) 1%positive false;
           bob := fresh_client "user2" ]}.

Definition lobby_mute_trace : list action :=
  [AForward "m1" [alice; bob]; ASend; ASend; ADrain bob true;
   AForward "m2" [bob; alice]; ASend; ASend].

(** Every byte of [s] passes [p]. *)
Fixpoint every_byte (p : ascii → bool) (s : string) : bool :=
  match s with
  | EmptyString => true
  | String b t => p b && every_byte p t
  end.

(** A byte that ends no line and opens no markup: not a control byte and
    none of [<], [>], [&]. *)
Definition inert (b : ascii) : bool :=
  (32 <=? N_of_ascii b)%N
  && negb (bool_decide (b = "<"%char)) && negb (bool_decide (b = ">"%char))
  && negb (bool_decide (b = "&"%char)).

(** ** The server as a whole

    One goroutine per connection runs [ServeHTTP] of [room.go]: after the
    upgrade it hands the client to [realRoom.join], starts [write], runs
    [read] and, once [read] has returned, hands the client to
    [realRoom.leave] (the deferred function).  One goroutine per room runs
    [run].  [handlers] keeps, for every client an upgrade created, where
    the goroutine of its connection stands. *)

Inductive handler_pc : Type :=
| AtJoin
| AtRead
| AtLeave
| Finished.

Record system : Type := System {
  srv : server;
  handlers : gmap cptr handler_pc
}.

(** Program start: no room, no connection. *)
Definition boot : system := System no_server ∅.

(** - [EConnect req rnd]: a request reaches the [/room] function, which
      runs up to the send on [realRoom.join];
    - [EJoin c]: the loop of the room of [c] takes [c] from [join];
    - [EFrame c msg order]: [ReadMessage] gave [msg] to [read] of [c] and
      the loop takes the payload from [forward] ([order] as in [AForward]);
    - [EReadErr c]: [ReadMessage] gave an error, [read] returns;
    - [ELeave c]: the loop takes [c] from [leave];
    - [ESend r]: the pending send of the loop of room [r];
    - [EDrain c ok], [EWriterEnd c]: as [ADrain] and [AWriterEnd]. *)
Inductive event : Type :=
| EConnect (req : request) (rnd : nat)
| EJoin (c : cptr)
| EFrame (c : cptr) (msg : string) (order : list cptr)
| EReadErr (c : cptr)
| ELeave (c : cptr)
| ESend (r : rptr)
| EDrain (c : cptr) (ok : bool)
| EWriterEnd (c : cptr).

(** An action of [run] of the room at [r], on the room object and the
    client objects of the server.  Using a room that was never allocated is
    a nil dereference; a room whose loop was not started takes no request. *)
Definition loop_step (r : rptr) (a : action) (sv : server) : result server :=
  let g := registry_of sv in
  match room_heap g !! r with
  | None => Panic NilDereference
  | Some R =>
      if bool_decide (r ∈ running g) then
        match step a (State R (client_heap sv)) with
        | Ok s' => Ok (Server (Registry (rooms g) (<[r := rm s']> (room_heap g)) (running g))
                              (heap s'))
        | Blocked => Blocked
        | Panic f => Panic f
        end
      else Blocked
  end.

(** An action of a [write] goroutine; it looks at no room. *)
Definition writer_step (a : action) (sv : server) : result server :=
  match step a (State newRoom (client_heap sv)) with
  | Ok s' => Ok (Server (registry_of sv) (heap s'))
  | Blocked => Blocked
  | Panic f => Panic f
  end.

Definition with_server (hs : gmap cptr handler_pc) (r : result server) : result system :=
  match r with
  | Ok sv' => Ok (System sv' hs)
  | Blocked => Blocked
  | Panic f => Panic f
  end.

Definition sys_step (e : event) (s : system) : result system :=
  let sv := srv s in
  match e with
  | EConnect req rnd =>
      match room_route req rnd sv with
      | (Serving _ c, sv') => Ok (System sv' (<[c := AtJoin]> (handlers s)))
      | (_, sv') => Ok (System sv' (handlers s))
      end
  | EJoin c =>
      match handlers s !! c, client_heap sv !! c with
      | Some AtJoin, Some cl =>
          with_server (<[c := AtRead]> (handlers s)) (loop_step (room cl) (AJoin c) sv)
      | _, _ => Blocked
      end
  | EFrame c msg order =>
      match handlers s !! c, client_heap sv !! c with
      | Some AtRead, Some cl =>
          match json_Marshal (outgoing cl msg) with
          | Some jsMessage =>
              with_server (handlers s) (loop_step (room cl) (AForward jsMessage order) sv)
          | None => Ok s
          end
      | _, _ => Blocked
      end
  | EReadErr c =>
      match handlers s !! c with
      | Some AtRead => Ok (System sv (<[c := AtLeave]> (handlers s)))
      | _ => Blocked
      end
  | ELeave c =>
      match handlers s !! c, client_heap sv !! c with
      | Some AtLeave, Some cl =>
          with_server (<[c := Finished]> (handlers s)) (loop_step (room cl) (ALeave c) sv)
      | _, _ => Blocked
      end
  | ESend r =>
      if bool_decide (r ∈ running (registry_of sv))
      then with_server (handlers s) (loop_step r ASend sv)
      else Blocked
  | EDrain c ok =>
      match handlers s !! c with
      | Some AtJoin | None => Blocked
      | Some _ => with_server (handlers s) (writer_step (ADrain c ok) sv)
      end
  | EWriterEnd c =>
      match handlers s !! c with
      | Some AtJoin | None => Blocked
      | Some _ => with_server (handlers s) (writer_step (AWriterEnd c) sv)
      end
  end.

Fixpoint sys_exec (evs : list event) (s : system) : result system :=
  match evs with
  | [] => Ok s
  | e :: evs' =>
      match sys_step e s with
      | Ok s' => sys_exec evs' s'
      | Blocked => Blocked
      | Panic f => Panic f
      end
  end.

(** What the position of its connection says about a client [c] with
    object [cl], created for the room [R]. *)
Definition phase_ok (ph : handler_pc) (cl : client) (R : room_t) (c : cptr) : Prop :=
  match ph with
  | AtJoin => closed (receive cl) = false ∧ (c ∉ dom (clients R))
  | AtRead | AtLeave => closed (receive cl) = false ∧ c ∈ dom (clients R)
  | Finished => closed (receive cl) = true ∧ (c ∉ dom (clients R))
  end.

(** Holds in every state the server reaches: names are bound to allocated
    rooms; the rooms with a loop are the allocated ones; every connection
    has a client object bound to an allocated room, and is a member of it
    exactly between its join and its leave, with an open queue until the
    leave; a room has no member but clients created for it; a broadcast
    under way is owed to members only. *)
Definition sys_inv (s : system) : Prop :=
  let g := registry_of (srv s) in
  let h := client_heap (srv s) in
  (∀ n r, rooms g !! n = Some r → is_Some (room_heap g !! r))
  ∧ (∀ r, r ∈ running g ↔ is_Some (room_heap g !! r))
  ∧ (∀ c ph, handlers s !! c = Some ph →
       ∃ cl R, h !! c = Some cl ∧ room_heap g !! room cl = Some R ∧ phase_ok ph cl R c)
  ∧ (∀ r R c, room_heap g !! r = Some R → c ∈ dom (clients R) →
       ∃ cl, h !! c = Some cl ∧ room cl = r ∧ is_Some (handlers s !! c))
  ∧ (∀ r R c, room_heap g !! r = Some R → c ∈ pending_pc (at_pc R) → c ∈ dom (clients R)).

(** [v] is the payload of a frame that a client of room [r] sent in [evs]. *)
Definition sent_in (h : gmap cptr client) (r : rptr) (evs : list event) (v : string) : Prop :=
  ∃ c cl msg order,
    EFrame c msg order ∈ evs ∧ h !! c = Some cl ∧ room cl = r
    ∧ v = payload_text (name cl) msg.

(** Every payload waiting in a queue, and every payload a loop is sending
    out, was sent in [evs] by a client of the same room. *)
Definition queues_traced (evs : list event) (s : system) : Prop :=
  let g := registry_of (srv s) in
  let h := client_heap (srv s) in
  (∀ d cl v, h !! d = Some cl → v ∈ buf (receive cl) → sent_in h (room cl) evs v)
  ∧ (∀ r R msg cur rest, room_heap g !! r = Some R → at_pc R = Sending msg cur rest →
       sent_in h r evs msg).

(** A connection from first request to the end of its writer. *)
Definition visit : list event :=
  [EConnect (Request "GET" {[ "room" := ["lobby"] ]} true) 1234;
   EJoin 1%positive; EFrame 1%positive "hi" [1%positive]; ESend 1%positive;
   EDrain 1%positive true; EReadErr 1%positive; ELeave 1%positive;
   EWriterEnd 1%positive].

(** ** [templateHandler] ([main.go])

    [sync.Once] is a flag: [Do] runs its function on the first call only,
    and counts the call as done also when the function panics.  The files,
    [filepath.Join] and [Execute] are outside the program: [ParseFiles] is
    given with each call as the files are at that moment, and [Execute] is
    applied to whatever [t.templ] holds ([None] is the nil template). *)
Section template_handler.

Variable template : Type.
Variable page : Type.
Variable Join : string → string → string.
Variable Execute : option template → request → page.

Record templateHandler : Type := TemplateHandler {
  once : bool;
  filename : string;
  templ : option template
}.

(** What a request gets: the page [Execute] wrote, or the panic of
    [template.Must]. *)
Inductive served : Type :=
| Executed (p : page)
| MustPanic.

Definition templateHandler_ServeHTTP (ParseFiles : string → option template)
    (req : request) (t : templateHandler) : served * templateHandler :=
  if once t then (Executed (Execute (templ t) req), t)
  else
    match ParseFiles (Join "templates" (filename t)) with
    | Some T => (Executed (Execute (Some T) req), TemplateHandler true (filename t) (Some T))
    | None => (MustPanic, TemplateHandler true (filename t) (templ t))
    end.

(** Requests served one after the other, each with the files of its time. *)
Fixpoint serve_all (calls : list ((string → option template) * request))
    (t : templateHandler) : list served * templateHandler :=
  match calls with
  | [] => ([], t)
  | (ParseFiles, req) :: rest =>
      let '(o, t1) := templateHandler_ServeHTTP ParseFiles req t in
      let '(os, t2) := serve_all rest t1 in
      (o :: os, t2)
  end.

End template_handler.

(** ** A room of the server seen as the loop of [run]

    The actions of [run] of the room at [r], and of the writers of its
    clients, that an event of the server amounts to; [h] tells the room
    and the name of every client. *)

Definition is_connect (e : event) : bool :=
  match e with
  | EConnect _ _ => true
  | _ => false
  end.

Definition for_room (h : gmap cptr client) (r : rptr) (c : cptr)
    (acts : client → list action) : list action :=
  match h !! c with
  | Some cl => if bool_decide (room cl = r) then acts cl else []
  | None => []
  end.

Definition view_event (h : gmap cptr client) (r : rptr) (e : event) : list action :=
  match e with
  | EConnect _ _ | EReadErr _ => []
  | EJoin c => for_room h r c (λ _, [AJoin c])
  | EFrame c msg order =>
      for_room h r c (λ cl, match json_Marshal (outgoing cl msg) with
                            | Some jsMessage => [AForward jsMessage order]
                            | None => []
                            end)
  | ELeave c => for_room h r c (λ _, [ALeave c])
  | ESend r' => if bool_decide (r' = r) then [ASend] else []
  | EDrain c ok => for_room h r c (λ _, [ADrain c ok])
  | EWriterEnd c => for_room h r c (λ _, [AWriterEnd c])
  end.

Fixpoint view (h : gmap cptr client) (r : rptr) (evs : list event) : list action :=
  match evs with
  | [] => []
  | e :: evs' => (view_event h r e ++ view h r evs')%list
  end.

(** The client object an action reads or writes, if any. *)
Definition target (a : action) (R : room_t) : option cptr :=
  match a with
  | AJoin _ | AForward _ _ => None
  | ALeave c | ADrain c _ | AWriterEnd c => Some c
  | ASend => match at_pc R with
             | Sending _ cur _ => Some cur
             | Select => None
             end
  end.

(** The clients of [h] are clients of [h0], with the same room and name. *)
Definition same_identity (h0 h : gmap cptr client) : Prop :=
  ∀ c cl, h !! c = Some cl →
    ∃ cl0, h0 !! c = Some cl0 ∧ room cl0 = room cl ∧ name cl0 = name cl.

(** Two connections to two rooms, then a frame in each room. *)
Definition two_rooms_open : list event :=
  [EConnect (Request "GET" {[ "room" := ["lobby"] ]} true) 1;
   EConnect (Request "GET" {[ "room" := ["den"] ]} true) 2].

Definition two_rooms_talk : list event :=
  [EJoin 1%positive; EJoin 2%positive;
   EFrame 1%positive "hi" [1%positive]; EFrame 2%positive "yo" [2%positive];
   ESend 2%positive; ESend 1%positive].

Definition two_rooms : system :=
  match sys_exec two_rooms_open boot with
  | Ok s => s
  | _ => boot
  end.

Definition two_rooms_after : system :=
  match sys_exec two_rooms_talk two_rooms with
  | Ok s => s
  | _ => boot
  end.

(** Two frames that are not ASCII: "cafe" with an acute accent (C3 A9)
    and a line feed, which is well-formed, and a frame whose second byte
    (FF) belongs to no character. *)
Definition cafe : string :=
  "caf" +:+ String (ascii_of_N 195) (String (ascii_of_N 169) (String (ascii_of_N 10) EmptyString)).

Definition torn : string := String "a" (String (ascii_of_N 255) "b").

(** * Properties of the room loop *)

Section room_loop.

Implicit Types (s : state) (c x : positive) (tr : list action) (a : action).

Lemma owed_range c cls msg todo h :
  owed c (State (Room cls (range_pc msg todo)) h)
  = if bool_decide (c ∈ todo) then [msg] else [].
Proof.
  by destruct todo.
Qed.

Lemma member_insert c c' (cls : gmap positive bool) :
  bool_decide (c ∈ dom (<[c' := true]> cls))
  = bool_decide (c ∈ dom cls) || bool_decide (c' = c).
Proof.
  rewrite <- bool_decide_or. apply bool_decide_ext.
  rewrite dom_insert_L, elem_of_union, elem_of_singleton.
  split; intros [?|?]; auto.
Qed.

Lemma member_delete c c' (cls : gmap positive bool) :
  bool_decide (c ∈ dom (delete c' cls))
  = bool_decide (c ∈ dom cls) && negb (bool_decide (c' = c)).
Proof.
  rewrite <- bool_decide_not, <- bool_decide_and. apply bool_decide_ext.
  rewrite dom_delete_L, elem_of_difference, elem_of_singleton.
  split; intros [? ?]; auto.
Qed.

Lemma pending_range cls msg todo h :
  pending (State (Room cls (range_pc msg todo)) h) = todo.
Proof. by destruct todo. Qed.

Lemma chan_send_Ok ch v ch' :
  chan_send ch v = Ok ch' →
  closed ch = false ∧ length (buf ch) < cap ch ∧ ch' = Chan (cap ch) (buf ch ++ [v]) false.
Proof.
  unfold chan_send. destruct (closed ch); [done|].
  destruct (Nat.ltb_spec (length (buf ch)) (cap ch)); [|done].
  intros [= <-]. done.
Qed.

Lemma chan_close_Ok ch ch' :
  chan_close ch = Ok ch' → closed ch = false ∧ ch' = Chan (cap ch) (buf ch) true.
Proof. unfold chan_close. destruct (closed ch); [done|]. by intros [= <-]. Qed.

Lemma queue_insert_eq c s r cl :
  queue c (State r (<[c := cl]> (heap s))) = Some (buf (receive cl)).
Proof. unfold queue. simpl. by rewrite lookup_insert_eq. Qed.

Lemma queue_insert_ne c c' s r cl :
  c' ≠ c → queue c (State r (<[c' := cl]> (heap s))) = queue c s.
Proof. intros. unfold queue. simpl. by rewrite lookup_insert_ne. Qed.

(** One action: the queue of [c] afterwards, and what is still owed to it. *)
Lemma step_queue a s s1 c q tr :
  NoDup (pending s) →
  step a s = Ok s1 →
  queue c s = Some q →
  NoDup (pending s1) ∧
  ∃ q1, queue c s1 = Some q1 ∧
    drop (drains c (a :: tr)) (q ++ owed c s ++ deliveries c (is_member c s) (a :: tr))
    = drop (drains c tr) (q1 ++ owed c s1 ++ deliveries c (is_member c s1) tr).
Proof.
  intros Hnd Hstep Hq. destruct s as [[cls p] h].
  destruct a as [c'|c'|msg order| |c' ok|c']; simpl in Hstep.
  - destruct p; [|done]. injection Hstep as <-. split; [done|].
    exists q. split; [done|]. simpl. unfold is_member, members. simpl.
    by rewrite member_insert.
  - destruct p; [|done].
    destruct (h !! c') as [cl|] eqn:Hcl; [|done].
    destruct (chan_close (receive cl)) as [ch| |] eqn:Hclose; [|done..].
    injection Hstep as <-. apply chan_close_Ok in Hclose as [_ ->].
    split; [done|]. exists q. split.
    + destruct (decide (c' = c)) as [->|Hne].
      * change h with (heap (State (Room cls Select) h)).
        rewrite queue_insert_eq. simpl.
        unfold queue in Hq. simpl in Hq. rewrite Hcl in Hq. by injection Hq as <-.
      * change h with (heap (State (Room cls Select) h)).
        by rewrite queue_insert_ne.
    + simpl. unfold is_member, members. simpl.
      by rewrite member_delete.
  - destruct p; [|done]. case_bool_decide as Hord; [|done].
    injection Hstep as <-. destruct Hord as [Hnd' Hdom].
    rewrite pending_range. split; [done|]. exists q. split; [done|].
    rewrite owed_range. simpl. unfold is_member, members. simpl.
    rewrite <- Hdom. f_equal. f_equal.
    rewrite (bool_decide_ext (c ∈ (list_to_set order : gset positive)) (c ∈ order))
      by apply elem_of_list_to_set.
    by destruct (bool_decide (c ∈ order)).
  - destruct p as [|msg cur rest]; [done|].
    destruct (h !! cur) as [cl|] eqn:Hcl; [|done].
    destruct (chan_send (receive cl) msg) as [ch| |] eqn:Hsend; [|done..].
    injection Hstep as <-. apply chan_send_Ok in Hsend as (_ & _ & ->).
    rewrite pending_range. simpl in Hnd. apply NoDup_cons in Hnd as [Hcur Hrest].
    split; [done|]. rewrite owed_range.
    change h with (heap (State (Room cls (Sending msg cur rest)) h)).
    destruct (decide (cur = c)) as [->|Hne].
    + rewrite queue_insert_eq. simpl. eexists. split; [done|].
      unfold queue in Hq. simpl in Hq. rewrite Hcl in Hq. injection Hq as <-.
      unfold owed. simpl.
      rewrite (bool_decide_eq_true_2 (c ∈ c :: rest)) by (by left).
      rewrite (bool_decide_eq_false_2 (c ∈ rest)) by done.
      simpl. by rewrite <- app_assoc.
    + rewrite queue_insert_ne by done. exists q. split; [done|].
      unfold owed. simpl.
      rewrite (bool_decide_ext (c ∈ cur :: rest) (c ∈ rest))
        by (rewrite elem_of_cons; split; [by intros [->|?]|by right]).
      done.
  - destruct (h !! c') as [cl|] eqn:Hcl; [|done].
    destruct (writing cl); [|done].
    unfold chan_recv in Hstep.
    destruct (buf (receive cl)) as [|v b'] eqn:Hbuf.
    { by destruct (closed (receive cl)). }
    injection Hstep as <-. split; [done|].
    change h with (heap (State (Room cls p) h)).
    destruct (decide (c' = c)) as [->|Hne].
    + rewrite queue_insert_eq.
      unfold queue in Hq. simpl in Hq. rewrite Hcl in Hq. injection Hq as <-.
      exists b'. split; [by destruct ok|].
      simpl. rewrite decide_True by done. rewrite Hbuf. done.
    + rewrite queue_insert_ne by done. exists q. split; [done|].
      simpl. by rewrite decide_False by done.
  - destruct (h !! c') as [cl|] eqn:Hcl; [|done].
    destruct (writing cl); [|done].
    unfold chan_recv in Hstep.
    destruct (buf (receive cl)) as [|v b'] eqn:Hbuf; [|done].
    destruct (closed (receive cl)); [|done].
    injection Hstep as <-. split; [done|].
    change h with (heap (State (Room cls p) h)).
    destruct (decide (c' = c)) as [->|Hne].
    + rewrite queue_insert_eq. simpl.
      unfold queue in Hq. simpl in Hq. rewrite Hcl in Hq. injection Hq as <-.
      by exists (buf (receive cl)).
    + rewrite queue_insert_ne by done. by exists q.
Qed.

(** A whole run that ends with the room back at its [select]. *)
Lemma exec_queue tr s s' c q :
  NoDup (pending s) →
  exec tr s = Ok s' →
  at_pc (rm s') = Select →
  queue c s = Some q →
  queue c s' = Some (drop (drains c tr) (q ++ owed c s ++ deliveries c (is_member c s) tr)).
Proof.
  revert s q. induction tr as [|a tr IH]; intros s q Hnd Hex Hsel Hq.
  - injection Hex as <-. simpl. unfold owed. rewrite Hsel. simpl.
    by rewrite app_nil_r.
  - simpl in Hex. destruct (step a s) as [s1| |] eqn:Hstep; [|done..].
    destruct (step_queue a s s1 c q tr Hnd Hstep Hq) as (Hnd1 & q1 & Hq1 & ->).
    by apply IH.
Qed.

Lemma step_send_ready cls msg cur rest h :
  ready h cur →
  ∃ cl, h !! cur = Some cl ∧
    step ASend (State (Room cls (Sending msg cur rest)) h)
    = Ok (State (Room cls (range_pc msg rest))
                (<[cur := set_receive cl (Chan (cap (receive cl))
                                               (buf (receive cl) ++ [msg]) false)]> h)).
Proof.
  intros (cl & Hcl & Hopen & Hroom). exists cl. split; [done|].
  simpl. rewrite Hcl. unfold chan_send. rewrite Hopen.
  destruct (Nat.ltb_spec (length (buf (receive cl))) (cap (receive cl))); [done|lia].
Qed.

(** With every remaining queue ready, the rest of a broadcast is one send
    per remaining member and the loop is back at its [select]. *)
Lemma sends_complete cls msg todo h :
  NoDup todo →
  (∀ c, c ∈ todo → ready h c) →
  ∃ h', exec (replicate (length todo) ASend) (State (Room cls (range_pc msg todo)) h)
        = Ok (State (Room cls Select) h').
Proof.
  revert h. induction todo as [|cur rest IH]; intros h Hnd Hready.
  - by exists h.
  - apply NoDup_cons in Hnd as [Hcur Hrest].
    destruct (step_send_ready cls msg cur rest h) as (cl & Hcl & Hstep);
      [apply Hready; by left|].
    cbn [length replicate range_pc exec]. rewrite Hstep. apply IH; [done|].
    intros c Hc. destruct (Hready c) as (cl' & Hcl' & ?); [by right|].
    exists cl'. rewrite lookup_insert_ne; [done|]. intros ->. done.
Qed.

Lemma broadcast_completes s msg order :
  at_pc (rm s) = Select →
  NoDup order →
  list_to_set order = members s →
  (∀ c, c ∈ members s → ready (heap s) c) →
  ∃ h', exec (AForward msg order :: replicate (length order) ASend) s
        = Ok (State (Room (clients (rm s)) Select) h').
Proof.
  intros Hsel Hnd Hdom Hready. destruct s as [[cls p] h]. simpl in *. subst p.
  rewrite bool_decide_eq_true_2 by done.
  apply sends_complete; [done|]. intros c Hc. apply Hready.
  rewrite <- Hdom. by apply elem_of_list_to_set.
Qed.

(** A client that is neither a member nor a target of the broadcast under
    way stays so, and nothing is added to its queue, as long as it is not
    joined again. *)
Lemma step_absent_room a s s1 x :
  (x ∉ members s) → (x ∉ pending s) → a ≠ AJoin x →
  step a s = Ok s1 →
  (x ∉ members s1) ∧ (x ∉ pending s1).
Proof.
  intros Hmem Hpend Hjoin Hstep. destruct s as [[cls p] h].
  unfold members, pending in *. simpl in Hmem, Hpend.
  destruct a as [c'|c'|msg order| |c' ok|c']; simpl in Hstep.
  - destruct p; [|done]. injection Hstep as <-. simpl.
    rewrite dom_insert_L, elem_of_union, elem_of_singleton.
    split; [|apply not_elem_of_nil]. intros [->|?]; done.
  - destruct p; [|done].
    destruct (h !! c') as [cl|]; [|done].
    destruct (chan_close (receive cl)); [|done..].
    injection Hstep as <-. simpl. rewrite dom_delete_L, elem_of_difference.
    split; [|apply not_elem_of_nil]. intros [? _]; done.
  - destruct p; [|done]. case_bool_decide as Hord; [|done].
    injection Hstep as <-. simpl. split; [done|].
    destruct Hord as [_ Hdom].
    change (x ∉ pending (State (Room cls (range_pc msg order)) h)).
    rewrite pending_range. intros Hin. apply Hmem. rewrite <- Hdom.
    by apply elem_of_list_to_set.
  - destruct p as [|msg cur rest]; [done|].
    destruct (h !! cur) as [cl|]; [|done].
    destruct (chan_send (receive cl) msg); [|done..].
    injection Hstep as <-. simpl. split; [done|].
    change (x ∉ pending (State (Room cls (range_pc msg rest)) h)).
    rewrite pending_range. intros Hin. apply Hpend. simpl. by right.
  - destruct (h !! c') as [cl|]; [|done]. destruct (writing cl); [|done].
    destruct (chan_recv (receive cl)) as [[[v|] ch]| |]; [|done..].
    by injection Hstep as <-.
  - destruct (h !! c') as [cl|]; [|done]. destruct (writing cl); [|done].
    destruct (chan_recv (receive cl)) as [[[v|] ch]| |]; [done| |done..].
    by injection Hstep as <-.
Qed.

Lemma owed_absent x s : x ∉ pending s → owed x s = [].
Proof.
  unfold owed, pending. destruct (at_pc (rm s)) as [|msg cur rest]; [done|].
  simpl. intros Hx. by rewrite bool_decide_eq_false_2.
Qed.

Lemma deliveries_absent x a :
  a ≠ AJoin x → deliveries x false [a] = [].
Proof.
  by destruct a.
Qed.

Lemma exec_absent tr s s' x q :
  NoDup (pending s) → (x ∉ members s) → (x ∉ pending s) →
  (∀ a, a ∈ tr → a ≠ AJoin x) →
  exec tr s = Ok s' → queue x s = Some q →
  (x ∉ members s') ∧ (x ∉ pending s') ∧ queue x s' = Some (drop (drains x tr) q).
Proof.
  revert s q. induction tr as [|a tr IH]; intros s q Hnd Hmem Hpend Hjoin Hex Hq.
  - by injection Hex as <-.
  - simpl in Hex. destruct (step a s) as [s1| |] eqn:Hstep; [|done..].
    assert (a ≠ AJoin x) as Ha by (apply Hjoin; by left).
    destruct (step_absent_room a s s1 x Hmem Hpend Ha Hstep) as [Hmem1 Hpend1].
    destruct (step_queue a s s1 x q [] Hnd Hstep Hq) as (Hnd1 & q1 & Hq1 & Heq).
    rewrite (owed_absent x s), (owed_absent x s1) in Heq by done.
    unfold is_member in Heq at 1.
    rewrite (bool_decide_eq_false_2 (x ∈ members s)) in Heq by done.
    rewrite deliveries_absent in Heq by done.
    simpl in Heq. rewrite !app_nil_r, drop_0 in Heq. subst q1.
    assert (∀ b, b ∈ tr → b ≠ AJoin x) as Hjoin1
      by (intros b Hb; apply Hjoin; by right).
    destruct (IH s1 _ Hnd1 Hmem1 Hpend1 Hjoin1 Hex Hq1) as (? & ? & ->).
    split_and!; [done..|]. f_equal. rewrite drop_drop. f_equal.
    destruct a; simpl; lia.
Qed.

Lemma drains_sends c n : drains c (replicate n ASend) = 0.
Proof. induction n as [|n IH]; [done|]. exact IH. Qed.

Lemma deliveries_no_request c m tr :
  Forall (λ a, is_request a = false) tr → deliveries c m tr = [].
Proof.
  induction 1 as [|a tr Ha _ IH]; [done|]. by destruct a.
Qed.

Lemma step_blocked a s s1 msg x rest :
  blocked_on s msg x rest →
  (∀ ok, a ≠ ADrain x ok) →
  step a s = Ok s1 →
  blocked_on s1 msg x rest ∧ is_request a = false.
Proof.
  intros [Hpc (cl & Hcl & Hopen & Hfull)] Hdrain Hstep.
  destruct s as [[cls p] h]. simpl in Hpc, Hcl. subst p.
  destruct a as [c'|c'|m order| |c' ok|c']; simpl in Hstep; try done.
  - rewrite Hcl in Hstep. unfold chan_send in Hstep. rewrite Hopen in Hstep.
    destruct (Nat.ltb_spec (length (buf (receive cl))) (cap (receive cl))); [lia|done].
  - destruct (h !! c') as [cl'|] eqn:Hcl'; [|done].
    destruct (writing cl'); [|done].
    destruct (chan_recv (receive cl')) as [[[v|] ch]| |]; [|done..].
    injection Hstep as <-. split; [|done]. split; [done|].
    exists cl. simpl. rewrite lookup_insert_ne; [done|].
    intros ->. by apply (Hdrain ok).
  - destruct (h !! c') as [cl'|] eqn:Hcl'; [|done].
    destruct (writing cl'); [|done].
    destruct (chan_recv (receive cl')) as [[[v|] ch]| |]; [done| |done..].
    injection Hstep as <-. split; [|done]. split; [done|]. simpl.
    destruct (decide (c' = x)) as [->|Hne].
    + rewrite lookup_insert_eq. exists (stop_writing cl').
      rewrite Hcl in Hcl'. by injection Hcl' as <-.
    + rewrite lookup_insert_ne by done. by exists cl.
Qed.

Lemma exec_blocked tr s s' msg x rest :
  blocked_on s msg x rest →
  (∀ ok, ADrain x ok ∉ tr) →
  exec tr s = Ok s' →
  blocked_on s' msg x rest ∧ Forall (λ a, is_request a = false) tr.
Proof.
  revert s. induction tr as [|a tr IH]; intros s Hb Hdrain Hex.
  - injection Hex as <-. by split.
  - simpl in Hex. destruct (step a s) as [s1| |] eqn:Hstep; [|done..].
    destruct (step_blocked a s s1 msg x rest Hb) as [Hb1 Ha]; [|done|].
    { intros ok ->. apply (Hdrain ok). by left. }
    destruct (IH s1 Hb1) as [Hb' Htr]; [|done|].
    { intros ok Hin. apply (Hdrain ok). by right. }
    split; [done|]. by constructor.
Qed.

(** When the writer of [x] has returned as well, nothing is ever taken
    from the queue and the loop stays in its send. *)
Lemma exec_blocked_forever tr s s' msg x rest cl :
  blocked_on s msg x rest →
  heap s !! x = Some cl → writing cl = false →
  exec tr s = Ok s' →
  blocked_on s' msg x rest ∧ Forall (λ a, is_request a = false) tr
  ∧ queue x s' = queue x s.
Proof.
  revert s cl. induction tr as [|a tr IH]; intros s cl Hb Hcl Hw Hex.
  - injection Hex as <-. by split_and!.
  - simpl in Hex. destruct (step a s) as [s1| |] eqn:Hstep; [|done..].
    assert (∀ ok, a ≠ ADrain x ok) as Hdrain.
    { intros ok ->. simpl in Hstep. rewrite Hcl, Hw in Hstep. done. }
    destruct (step_blocked a s s1 msg x rest Hb Hdrain Hstep) as [Hb1 Ha].
    assert (∃ cl1, heap s1 !! x = Some cl1 ∧ writing cl1 = false
                   ∧ receive cl1 = receive cl) as (cl1 & Hcl1 & Hw1 & Hrecv).
    { destruct Hb as [Hpc (cl0 & Hcl0 & Hopen & Hfull)].
      rewrite Hcl in Hcl0. injection Hcl0 as <-.
      destruct s as [[cls p] h]. simpl in Hpc, Hcl. subst p.
      destruct a as [c'|c'|m order| |c' ok|c']; simpl in Hstep; try done.
      - rewrite Hcl in Hstep. unfold chan_send in Hstep. rewrite Hopen in Hstep.
        destruct (Nat.ltb_spec (length (buf (receive cl))) (cap (receive cl))); [lia|done].
      - destruct (h !! c') as [cl'|] eqn:Hcl'; [|done].
        destruct (writing cl') eqn:Hw'; [|done].
        destruct (chan_recv (receive cl')) as [[[v|] ch]| |]; [|done..].
        injection Hstep as <-. exists cl. simpl.
        rewrite lookup_insert_ne; [done|]. intros ->. congruence.
      - destruct (h !! c') as [cl'|] eqn:Hcl'; [|done].
        destruct (writing cl') eqn:Hw'; [|done].
        destruct (chan_recv (receive cl')) as [[[v|] ch]| |]; [done| |done..].
        injection Hstep as <-. exists cl. simpl.
        rewrite lookup_insert_ne; [done|]. intros ->. congruence. }
    destruct (IH s1 cl1 Hb1 Hcl1 Hw1 Hex) as (Hb' & Htr & Hq').
    split_and!; [done|by constructor|].
    rewrite Hq'. unfold queue. rewrite Hcl, Hcl1. simpl. by rewrite Hrecv.
Qed.

(** Once its queue is closed, the [write] goroutine takes what is left in
    it and returns. *)
Lemma writer_finishes q r h x cl n :
  h !! x = Some cl → writing cl = true → receive cl = Chan n q true →
  ∃ h' cl', exec (replicate (length q) (ADrain x true) ++ [AWriterEnd x]) (State r h)
            = Ok (State r h')
       ∧ h' !! x = Some cl' ∧ writing cl' = false ∧ buf (receive cl') = [].
Proof.
  revert h cl. induction q as [|v q IH]; intros h cl Hcl Hw Hrecv.
  - exists (<[x := stop_writing cl]> h), (stop_writing cl).
    cbn [length replicate app exec step heap]. rewrite Hcl, Hw.
    unfold chan_recv. rewrite Hrecv. simpl.
    rewrite lookup_insert_eq. by rewrite Hrecv.
  - cbn [length replicate app exec step heap]. rewrite Hcl, Hw.
    unfold chan_recv. rewrite Hrecv. cbn [buf cap closed].
    apply (IH _ (set_receive cl (Chan n q true))); [|done..].
    by rewrite lookup_insert_eq.
Qed.

Lemma leave_step_inv s x s1 :
  step (ALeave x) s = Ok s1 →
  at_pc (rm s1) = Select ∧ (x ∉ members s1) ∧
  ∃ cl, heap s !! x = Some cl ∧ closed (receive cl) = false
        ∧ heap s1 !! x = Some (set_receive cl (Chan (cap (receive cl)) (buf (receive cl)) true)).
Proof.
  intros Hstep. destruct s as [[cls p] h]. simpl in Hstep. destruct p; [|done].
  destruct (h !! x) as [cl|] eqn:Hcl; [|done].
  destruct (chan_close (receive cl)) as [ch| |] eqn:Hclose; [|done..].
  apply chan_close_Ok in Hclose as [Hopen ->].
  injection Hstep as <-. split; [done|]. split.
  - unfold members. simpl.
    rewrite dom_delete_L, elem_of_difference, elem_of_singleton. by intros [_ ?].
  - exists cl. simpl. by rewrite lookup_insert_eq.
Qed.

End room_loop.

(** C1: every broadcast the loop processes is appended exactly once to the
    queue of every client that is a member when it is processed (whoever
    sent it), in the order the broadcasts are processed, and to no other
    queue: after a run that leaves the loop at its [select], the queue of
    [c] is its old content followed by the payloads of the broadcasts
    processed while [c] was a member, less the elements its writer took
    from the front.  For a single broadcast this is the old content
    followed by the payload if [c] was a member, and the old content if its
    join had not been processed.  When every member has room in its queue,
    a broadcast does run to completion, with one send per member. *)
Theorem broadcast_fanout s :
  at_pc (rm s) = Select →
  (∀ tr s' c q,
      exec tr s = Ok s' →
      at_pc (rm s') = Select →
      queue c s = Some q →
      queue c s' = Some (drop (drains c tr) (q ++ deliveries c (is_member c s) tr))
      ∧ ∀ msg order tr',
          tr = AForward msg order :: tr' →
          Forall (λ a, is_request a = false) tr' →
          queue c s' = Some (drop (drains c tr') (q ++ if is_member c s then [msg] else [])))
  ∧ (∀ msg order,
      NoDup order → list_to_set order = members s →
      (∀ c, c ∈ members s → ready (heap s) c) →
      ∃ s', exec (AForward msg order :: replicate (length order) ASend) s = Ok s'
            ∧ at_pc (rm s') = Select
            ∧ ∀ c q, queue c s = Some q →
                     queue c s' = Some (q ++ if is_member c s then [msg] else [])%list).
Proof.
  intros Hsel.
  assert (∀ tr s' c q,
      exec tr s = Ok s' → at_pc (rm s') = Select → queue c s = Some q →
      queue c s' = Some (drop (drains c tr) (q ++ deliveries c (is_member c s) tr)))
    as Hall.
  { intros tr s' c q Hex Hsel' Hq.
    rewrite (exec_queue tr s s' c q); [|by (unfold pending; rewrite Hsel; constructor)|done..].
    unfold owed. by rewrite Hsel. }
  assert (∀ tr s' c q msg order tr',
      exec tr s = Ok s' → at_pc (rm s') = Select → queue c s = Some q →
      tr = AForward msg order :: tr' →
      Forall (λ a, is_request a = false) tr' →
      queue c s' = Some (drop (drains c tr') (q ++ if is_member c s then [msg] else [])))
    as Hone.
  { intros tr s' c q msg order tr' Hex Hsel' Hq -> Hreq.
    rewrite (Hall _ s' c q Hex Hsel' Hq). simpl.
    rewrite (deliveries_no_request _ _ _ Hreq). by rewrite app_nil_r. }
  split.
  - intros tr s' c q Hex Hsel' Hq. split; [by apply Hall|].
    intros msg order tr'. by apply Hone.
  - intros msg order Hnd Hdom Hready.
    destruct (broadcast_completes s msg order Hsel Hnd Hdom Hready) as [h' Hex].
    eexists. split; [exact Hex|]. split; [done|].
    intros c q Hq.
    rewrite (Hone _ _ c q msg order _ Hex eq_refl Hq eq_refl).
    + rewrite drains_sends. by rewrite drop_0.
    + apply Forall_replicate. done.
Qed.

Lemma broadcast_fanout_witness :
  exec lobby_trace lobby = Ok lobby_after
  ∧ queue alice lobby_after = Some ["m1"; "m2"]
  ∧ queue bob lobby_after = Some ["m2"; "m3"]
  ∧ queue carol lobby_after = Some ["m2"; "m3"].
Proof.
  assert (exec lobby_trace lobby = Ok lobby_after) as Hex by (vm_compute; reflexivity).
  assert (at_pc (rm lobby_after) = Select) as H1 by (vm_compute; reflexivity).
  destruct (broadcast_fanout lobby eq_refl) as [Hrun _].
  split; [exact Hex|]. split; [|split].
  - destruct (Hrun lobby_trace lobby_after alice [] Hex H1) as [Hq _];
      [vm_compute; reflexivity|exact Hq].
  - destruct (Hrun lobby_trace lobby_after bob [] Hex H1) as [Hq _];
      [vm_compute; reflexivity|exact Hq].
  - destruct (Hrun lobby_trace lobby_after carol [] Hex H1) as [Hq _];
      [vm_compute; reflexivity|exact Hq].
Defined.

(** C2: once the leave of [x] has been processed, no later broadcast adds
    anything to the queue of [x]: whatever is processed afterwards (short
    of joining [x] again), [x] is neither a member nor a target of a send,
    and its queue only loses what its writer takes.  Such a broadcast runs
    to completion when the remaining members have room, and at once when no
    member is left. *)
Theorem no_delivery_after_leave s x s1 :
  step (ALeave x) s = Ok s1 →
  (∀ tr s2 q,
      (∀ a, a ∈ tr → a ≠ AJoin x) →
      exec tr s1 = Ok s2 →
      queue x s1 = Some q →
      (x ∉ members s2) ∧ (x ∉ pending s2) ∧ queue x s2 = Some (drop (drains x tr) q))
  ∧ (∀ msg order,
      NoDup order → list_to_set order = members s1 →
      (∀ c, c ∈ members s1 → ready (heap s1) c) →
      ∃ h', exec (AForward msg order :: replicate (length order) ASend) s1
            = Ok (State (rm s1) h'))
  ∧ (∀ msg, members s1 = ∅ → step (AForward msg []) s1 = Ok s1).
Proof.
  intros Hstep.
  destruct (leave_step_inv s x s1 Hstep) as (Hsel & Hmem & _).
  assert (pending s1 = []) as Hpend by (unfold pending; by rewrite Hsel).
  split_and!.
  - intros tr s2 q Hjoin Hex Hq.
    apply (exec_absent tr s1 s2 x q); rewrite ?Hpend; try done.
    + constructor.
    + apply not_elem_of_nil.
  - intros msg order Hnd Hdom Hready.
    destruct (broadcast_completes s1 msg order Hsel Hnd Hdom Hready) as [h' Hex].
    exists h'. rewrite Hex. destruct s1 as [[cls p] h]. simpl in *. by subst p.
  - intros msg Hempty. destruct s1 as [[cls p] h]. unfold members in Hempty.
    simpl in *. subst p. rewrite bool_decide_eq_true_2; [done|].
    split; [constructor|]. by rewrite Hempty.
Qed.

Lemma no_delivery_after_leave_witness :
  step (ALeave alice) solo = Ok solo_left
  ∧ exec solo_trace solo_left = Ok solo_drained
  ∧ queue alice solo_drained = Some []
  ∧ step (AForward "m1" []) solo_left = Ok solo_left.
Proof.
  assert (step (ALeave alice) solo = Ok solo_left) as Hleave by (vm_compute; reflexivity).
  assert (exec solo_trace solo_left = Ok solo_drained) as Hex by (vm_compute; reflexivity).
  destruct (no_delivery_after_leave solo alice solo_left Hleave) as (Habsent & _ & Hempty).
  split; [exact Hleave|]. split; [exact Hex|]. split.
  - apply (Habsent solo_trace solo_drained ["m0"]); [|exact Hex|reflexivity].
    intros a Ha. vm_compute in Ha.
    repeat (apply elem_of_cons in Ha as [->|Ha]; [discriminate|]).
    by apply elem_of_nil in Ha.
  - apply Hempty. vm_compute; reflexivity.
Defined.

(** C4, amended: when the loop has reached [x] in the delivery of a payload
    and the queue of [x] is open with all [messageBufferSize] slots taken,
    the send cannot take place and the loop accepts no request, a leave of
    [x] included; as long as the writer of [x] has taken nothing the loop
    is still held there.  As soon as the writer takes one element the send
    goes through, and in every run that brings the loop back to its
    [select] each member that was still to be served, [x] included, has
    had the payload appended to its queue once. *)
Theorem full_queue_blocks s msg x rest cl :
  at_pc (rm s) = Sending msg x rest →
  NoDup (x :: rest) →
  heap s !! x = Some cl →
  closed (receive cl) = false →
  cap (receive cl) = messageBufferSize →
  length (buf (receive cl)) = messageBufferSize →
  step ASend s = Blocked
  ∧ (∀ a, is_request a = true → step a s = Blocked)
  ∧ (∀ tr s', exec tr s = Ok s' → (∀ ok, ADrain x ok ∉ tr) →
       at_pc (rm s') = Sending msg x rest ∧ step ASend s' = Blocked
       ∧ Forall (λ a, is_request a = false) tr)
  ∧ (∀ ok s1, step (ADrain x ok) s = Ok s1 →
       ∃ s2, step ASend s1 = Ok s2 ∧ at_pc (rm s2) = range_pc msg rest
             ∧ queue x s2 = Some (drop 1 (buf (receive cl)) ++ [msg])%list)
  ∧ (∀ tr s' c q, exec tr s = Ok s' → at_pc (rm s') = Select →
       c ∈ x :: rest → queue c s = Some q →
       queue c s' = Some (drop (drains c tr)
                               (q ++ [msg] ++ deliveries c (is_member c s) tr))).
Proof.
  intros Hpc Hnd Hcl Hopen Hcap Hlen.
  assert (blocked_on s msg x rest) as Hb.
  { split; [done|]. exists cl. split_and!; [done..|lia]. }
  assert (∀ s', blocked_on s' msg x rest → step ASend s' = Blocked) as Hsend.
  { intros [[cls p] h] [Hpc' (cl' & Hcl' & Hopen' & Hfull')]. simpl in *. subst p.
    rewrite Hcl'. unfold chan_send. rewrite Hopen'.
    destruct (Nat.ltb_spec (length (buf (receive cl'))) (cap (receive cl'))); [lia|done]. }
  split_and!.
  - by apply Hsend.
  - intros a Ha. destruct s as [[cls p] h]. simpl in Hpc. subst p.
    by destruct a.
  - intros tr s' Hex Hdrain.
    destruct (exec_blocked tr s s' msg x rest Hb Hdrain Hex) as [Hb' Hreq].
    split_and!; [apply Hb'|by apply Hsend|done].
  - intros ok s1 Hstep. destruct s as [[cls p] h]. simpl in Hpc, Hcl. subst p.
    simpl in Hstep. rewrite Hcl in Hstep. destruct (writing cl); [|done].
    unfold chan_recv in Hstep.
    destruct (buf (receive cl)) as [|v b'] eqn:Hbuf; [by destruct (closed (receive cl))|].
    injection Hstep as <-.
    destruct (step_send_ready cls msg x rest
                (<[x := if ok then set_receive cl (Chan (cap (receive cl)) b' (closed (receive cl)))
                        else stop_writing (set_receive cl (Chan (cap (receive cl)) b' (closed (receive cl))))]> h))
      as (cl1 & Hcl1 & Hstep1).
    { eexists. rewrite lookup_insert_eq. split; [done|].
      simpl in Hlen. destruct ok; simpl; (split; [done|lia]). }
    eexists. split; [exact Hstep1|]. split; [done|].
    rewrite lookup_insert_eq in Hcl1. injection Hcl1 as <-.
    unfold queue. simpl. rewrite lookup_insert_eq. simpl. by destruct ok.
  - intros tr s' c q Hex Hsel Hc Hq.
    rewrite (exec_queue tr s s' c q); [|by (unfold pending; rewrite Hpc)|done..].
    unfold owed. rewrite Hpc. by rewrite bool_decide_eq_true_2.
Qed.

Lemma full_queue_blocks_witness :
  step ASend jammed = Blocked
  ∧ step (ALeave alice) jammed = Blocked
  ∧ (∃ s', exec [ADrain alice true; ASend; ASend] jammed = Ok s'
           ∧ queue bob s' = Some ["m9"]).
Proof.
  assert (NoDup (alice :: [bob])) as Hnd
    by (apply (bool_decide_unpack (NoDup (alice :: [bob]))); vm_compute; exact I).
  destruct (full_queue_blocks jammed "m9" alice [bob]
              (Client "user1" (Chan messageBufferSize (replicate messageBufferSize "m0") false)
                      1%positive true))
    as (Hsend & Hreq & _ & _ & Hall); try (vm_compute; reflexivity); [exact Hnd|].
  split; [exact Hsend|]. split; [by apply Hreq|].
  destruct (exec [ADrain alice true; ASend; ASend] jammed) as [s'| |] eqn:Hex;
    [|vm_compute in Hex; discriminate..].
  exists s'. split; [done|].
  apply (Hall _ s' bob [] Hex).
  - vm_compute in Hex. injection Hex as <-. reflexivity.
  - apply elem_of_cons. right. apply elem_of_cons. by left.
  - vm_compute; reflexivity.
Defined.

(** C4, as stated, names the leave of [x] as an event that ends the
    block.  With the loop held in its send to [alice], a leave of [alice]
    is not accepted, and no run processes one before her writer has taken
    an element; when her connection has gone and her writer has returned,
    no run gets the loop out of its send at all, and [bob] is never
    served. *)
Lemma leave_does_not_end_block :
  step (ALeave alice) jammed = Blocked
  ∧ (∀ tr s', exec tr jammed = Ok s' → (∀ ok, ADrain alice ok ∉ tr) →
       (ALeave alice ∉ tr) ∧ at_pc (rm s') = Sending "m9" alice [bob])
  ∧ (∀ tr s', exec tr jammed_gone = Ok s' →
       (ALeave alice ∉ tr) ∧ at_pc (rm s') = Sending "m9" alice [bob]).
Proof.
  assert (∀ tr, Forall (λ a, is_request a = false) tr → ALeave alice ∉ tr) as Hnoleave.
  { intros tr Hreq Hin. rewrite Forall_forall in Hreq. by specialize (Hreq _ Hin). }
  split; [reflexivity|]. split.
  - intros tr s' Hex Hdrain.
    destruct (exec_blocked tr jammed s' "m9" alice [bob]) as [[Hpc _] Hreq]; [|done..|by split; [apply Hnoleave|]].
    split; [reflexivity|]. eexists. split; [reflexivity|]. split; [reflexivity|].
    vm_compute. done.
  - intros tr s' Hex.
    destruct (exec_blocked_forever tr jammed_gone s' "m9" alice [bob]
                (Client "user1" (Chan messageBufferSize (replicate messageBufferSize "m0") false)
                        1%positive false))
      as ([Hpc _] & Hreq & _); [|reflexivity..|done|by split; [apply Hnoleave|]].
    split; [reflexivity|]. eexists. split; [reflexivity|]. split; [reflexivity|].
    vm_compute. done.
Qed.

(** C5: a leave of [x] that reaches the loop at its [select], the queue of
    [x] being open, is processed in a single step that takes [x] out of
    the membership set and closes its queue, the pending elements kept.
    The writer of [x] then takes those elements and returns, and whatever
    the loop processes afterwards (short of joining [x] again), the closed
    queue is never the target of a send. *)
Theorem leave_removes_and_closes s x cl :
  at_pc (rm s) = Select →
  heap s !! x = Some cl →
  closed (receive cl) = false →
  ∃ s1, step (ALeave x) s = Ok s1
    ∧ (x ∉ members s1)
    ∧ at_pc (rm s1) = Select
    ∧ heap s1 !! x = Some (set_receive cl (Chan (cap (receive cl)) (buf (receive cl)) true))
    ∧ (writing cl = true →
       ∃ h' cl',
         exec (replicate (length (buf (receive cl))) (ADrain x true) ++ [AWriterEnd x]) s1
         = Ok (State (rm s1) h')
         ∧ h' !! x = Some cl' ∧ writing cl' = false)
    ∧ (∀ tr s2, (∀ a, a ∈ tr → a ≠ AJoin x) → exec tr s1 = Ok s2 →
         (x ∉ members s2) ∧ (x ∉ pending s2)).
Proof.
  intros Hsel Hcl Hopen.
  assert (∃ s1, step (ALeave x) s = Ok s1) as [s1 Hstep].
  { destruct s as [[cls p] h]. simpl in *. subst p. rewrite Hcl.
    unfold chan_close. rewrite Hopen. by eexists. }
  exists s1. split; [done|].
  destruct (leave_step_inv s x s1 Hstep) as (Hsel1 & Hmem & cl0 & Hcl0 & _ & Hcl1).
  rewrite Hcl in Hcl0. injection Hcl0 as <-.
  split_and!; [done..| |].
  - intros Hw. destruct s1 as [r1 h1]. simpl in Hcl1.
    destruct (writer_finishes (buf (receive cl)) r1 h1 x _ (cap (receive cl)) Hcl1 Hw eq_refl)
      as (h' & cl' & Hex & Hcl' & Hw' & _).
    by exists h', cl'.
  - intros tr s2 Hjoin Hex.
    assert (is_Some (queue x s1)) as [q Hq] by (unfold queue; by rewrite Hcl1).
    destruct (exec_absent tr s1 s2 x q) as (? & ? & _); try done.
    + unfold pending. rewrite Hsel1. constructor.
    + unfold pending. rewrite Hsel1. apply not_elem_of_nil.
Qed.

Lemma leave_removes_and_closes_witness :
  step (ALeave alice) solo = Ok solo_left
  ∧ (alice ∉ members solo_left)
  ∧ (∃ h' cl', exec [ADrain alice true; AWriterEnd alice] solo_left
               = Ok (State (rm solo_left) h')
               ∧ h' !! alice = Some cl' ∧ writing cl' = false).
Proof.
  destruct (leave_removes_and_closes solo alice
              (Client "user1" (Chan messageBufferSize ["m0"] false) 1%positive true))
    as (s1 & Hleave & Hmem & _ & _ & Hwriter & _); [reflexivity..|].
  assert (s1 = solo_left) as -> by (vm_compute in Hleave; by injection Hleave as <-).
  split; [exact Hleave|]. split; [exact Hmem|]. by apply Hwriter.
Defined.

(** C9: a join that reaches the loop at its [select] is always processed;
    when the client is already a member it leaves the membership set as it
    is (and the whole state, the entry being [true] already), and
    processing the same join once more changes nothing. *)
Theorem join_idempotent s m :
  at_pc (rm s) = Select →
  ∃ s1, step (AJoin m) s = Ok s1
    ∧ step (AJoin m) s1 = Ok s1
    ∧ (m ∈ members s → members s1 = members s ∧ heap s1 = heap s)
    ∧ (clients (rm s) !! m = Some true → s1 = s).
Proof.
  intros Hsel. destruct s as [[cls p] h]. simpl in Hsel. subst p.
  eexists. split; [reflexivity|]. split_and!.
  - simpl. by rewrite insert_insert_eq.
  - unfold members. simpl. intros Hm. split; [|done].
    rewrite dom_insert_L. apply elem_of_dom in Hm as [b Hb].
    apply set_eq. intros y. rewrite elem_of_union, elem_of_singleton, !elem_of_dom.
    split; [intros [->|?]; [by exists b|done]|by right].
  - simpl. intros Hm. by rewrite insert_id.
Qed.

Lemma join_idempotent_witness :
  step (AJoin alice) lobby = Ok lobby ∧ members lobby = {[ alice; bob ]}.
Proof.
  split; [|vm_compute; reflexivity].
  destruct (join_idempotent lobby alice) as (s1 & Hjoin & _ & _ & Hsame); [reflexivity|].
  rewrite Hjoin. f_equal. apply Hsame. vm_compute; reflexivity.
Defined.

(** C10: a leave closes the queue of the client whether or not the client
    is a member; when the queue is closed already the runtime panics on the
    [close], so a second leave of the same client is a fault. *)
Theorem second_leave_faults s m cl :
  at_pc (rm s) = Select →
  heap s !! m = Some cl →
  (closed (receive cl) = true → step (ALeave m) s = Panic CloseOfClosedChannel)
  ∧ (closed (receive cl) = false →
     ∃ s1, step (ALeave m) s = Ok s1
           ∧ heap s1 !! m
             = Some (set_receive cl (Chan (cap (receive cl)) (buf (receive cl)) true))
           ∧ step (ALeave m) s1 = Panic CloseOfClosedChannel).
Proof.
  intros Hsel Hcl. destruct s as [[cls p] h]. simpl in Hsel, Hcl. subst p.
  split; intros Hclosed; simpl; rewrite Hcl; unfold chan_close; rewrite Hclosed.
  - done.
  - eexists. split; [done|]. simpl. rewrite lookup_insert_eq. done.
Qed.

Lemma second_leave_faults_witness :
  (carol ∉ members lobby)
  ∧ (∃ s1, step (ALeave carol) lobby = Ok s1
           ∧ step (ALeave carol) s1 = Panic CloseOfClosedChannel)
  ∧ exec [ALeave alice; ALeave alice] lobby = Panic CloseOfClosedChannel.
Proof.
  split; [apply (bool_decide_unpack (carol ∉ members lobby)); vm_compute; exact I|].
  split; [|vm_compute; reflexivity].
  destruct (second_leave_faults lobby carol (fresh_client "user3")) as [_ Hopen];
    [reflexivity|vm_compute; reflexivity|].
  destruct (Hopen eq_refl) as (s1 & Hs1 & _ & Hpanic). by exists s1.
Defined.

(** * Properties of the registry *)

Section registry_facts.

Implicit Types (g : registry) (k : call) (w : world) (r : positive) (n : string).

Lemma init_world_inv names : world_inv (init_world names).
Proof.
  unfold world_inv, init_world. simpl.
  assert (∀ i k, ((λ nm, Call nm AtLock) <$> names) !! i = Some k → pos k = AtLock) as Hpos.
  { intros i k. rewrite list_lookup_fmap. destruct (names !! i); [|done]. by intros [= <-]. }
  split_and!.
  - split_and!.
    + intros r [n Hn]. simpl in Hn. by rewrite lookup_empty in Hn.
    + intros n1 n2 r Hn. simpl in Hn. by rewrite lookup_empty in Hn.
    + constructor.
    + intros r Hr. by apply elem_of_nil in Hr.
  - intros _. split.
    + intros r. simpl. rewrite dom_empty_L. by intros ?%elem_of_empty.
    + intros r [n Hn]. simpl in Hn. by rewrite lookup_empty in Hn.
  - intros i k Hk. unfold call_ok. by rewrite (Hpos i k Hk).
  - intros _ i k Hk. by rewrite (Hpos i k Hk).
  - intros i j ki kj Hi _ Hc. by rewrite (Hpos i ki Hi) in Hc.
Qed.

(** A room returned to a caller stays the room of that name. *)
Lemma call_ok_stable g g' k :
  in_critical (pos k) = false →
  (∀ n r, rooms g !! n = Some r → rooms g' !! n = Some r) →
  call_ok g k → call_ok g' k.
Proof.
  unfold call_ok. destruct (pos k); try done. intros _ Hst. apply Hst.
Qed.

Lemma sched_step_inv w i :
  world_inv w →
  world_inv (sched_step w i)
  ∧ ∀ n r, rooms (reg w) !! n = Some r → rooms (reg (sched_step w i)) !! n = Some r.
Proof.
  intros (Hbase & Hq & Hcalls & Hfree & Hmutex).
  unfold sched_step. destruct (calls w !! i) as [k|] eqn:Hk;
    [|split; [unfold world_inv; by split_and!|done]].
  assert (i < length (calls w)) as Hlen by (by eapply lookup_lt_Some).
  pose proof (Hcalls i k Hk) as Hok.
  destruct w as [g locked cs]. simpl in *.
  (* the other calls are outside the critical section when [k] is inside *)
  assert (in_critical (pos k) = true →
          ∀ j kj, j ≠ i → cs !! j = Some kj → in_critical (pos kj) = false) as Hothers.
  { intros Hin j kj Hne Hj. destruct (in_critical (pos kj)) eqn:Hc; [|done].
    destruct Hne. by apply (Hmutex j i kj k). }
  assert (∀ g' l' k',
    registry_base g' →
    (l' = false → quiescent g') →
    call_ok g' k' →
    (∀ n r, rooms g !! n = Some r → rooms g' !! n = Some r) →
    in_critical (pos k) = true →
    (l' = false → in_critical (pos k') = false) →
    world_inv (World g' l' (<[i := k']> cs))
    ∧ ∀ n r, rooms g !! n = Some r → rooms g' !! n = Some r) as Hinside.
  { intros g' l' k' Hb' Hq' Hok' Hst Hin Hout. split; [|done].
    unfold world_inv. simpl. split_and!; [done..| | |].
    - intros j kj Hj. destruct (decide (i = j)) as [<-|Hne].
      + rewrite list_lookup_insert_eq in Hj by done. by injection Hj as <-.
      + rewrite list_lookup_insert_ne in Hj by done.
        apply (call_ok_stable g); [by apply (Hothers Hin j)|done|by apply (Hcalls j)].
    - intros Hl' j kj Hj. destruct (decide (i = j)) as [<-|Hne].
      + rewrite list_lookup_insert_eq in Hj by done. injection Hj as <-. by apply Hout.
      + rewrite list_lookup_insert_ne in Hj by done. by apply (Hothers Hin j).
    - intros j1 j2 k1 k2 H1 H2 Hc1 Hc2.
      destruct (decide (i = j1)) as [<-|Hne1]; destruct (decide (i = j2)) as [<-|Hne2];
        [done| | |].
      + rewrite list_lookup_insert_ne in H2 by done.
        rewrite (Hothers Hin j2 k2) in Hc2; done.
      + rewrite list_lookup_insert_ne in H1 by done.
        rewrite (Hothers Hin j1 k1) in Hc1; done.
      + rewrite list_lookup_insert_ne in H1, H2 by done.
        rewrite (Hothers Hin j1 k1) in Hc1; done. }
  unfold call_step. unfold call_ok in Hok.
  destruct Hbase as (Halloc & Hinj & Hnd & Hrun).
  destruct (pos k) as [| | |r|r|r|r] eqn:Hpos.
  - (* mu.Lock() *)
    destruct locked.
    { rewrite list_insert_id by done.
      split; [unfold world_inv; by split_and!|done]. }
    split; [|done]. unfold world_inv. simpl. split_and!; [by repeat split|done| | |].
    + intros j kj Hj. destruct (decide (i = j)) as [<-|Hne].
      * rewrite list_lookup_insert_eq in Hj by done. injection Hj as <-.
        unfold call_ok. simpl. by apply Hq.
      * rewrite list_lookup_insert_ne in Hj by done. by apply (Hcalls j).
    + done.
    + intros j1 j2 k1 k2 H1 H2 Hc1 Hc2.
      destruct (decide (i = j1)) as [<-|Hne1]; destruct (decide (i = j2)) as [<-|Hne2];
        [done| | |].
      * rewrite list_lookup_insert_ne in H2 by done.
        rewrite (Hfree eq_refl j2 k2) in Hc2; done.
      * rewrite list_lookup_insert_ne in H1 by done.
        rewrite (Hfree eq_refl j1 k1) in Hc1; done.
      * rewrite list_lookup_insert_ne in H1 by done.
        rewrite (Hfree eq_refl j1 k1) in Hc1; done.
  - (* rooms[name] *)
    assert (locked = true) as ->.
    { destruct locked; [done|]. specialize (Hfree eq_refl i k Hk). by rewrite Hpos in Hfree. }
    destruct (rooms g !! arg k) as [r|] eqn:Hr.
    + apply Hinside; [by split_and!|done|by split|done..].
    + apply Hinside; [by split_and!|done|by split|done..].
  - (* newRoom() *)
    assert (locked = true) as ->.
    { destruct locked; [done|]. specialize (Hfree eq_refl i k Hk). by rewrite Hpos in Hfree. }
    destruct Hok as (Hnone & Hq1 & Hq2).
    pose proof (is_fresh (dom (room_heap g))) as Hfresh.
    set (r := fresh (dom (room_heap g))) in *.
    apply Hinside; [|done| |done..].
    + split_and!; simpl; [|done..].
      intros r' Hr'. rewrite dom_insert_L. apply elem_of_union. right. by apply Halloc.
    + unfold call_ok. simpl. rewrite dom_insert_L. split_and!; [done| | | |done].
      * apply elem_of_union. left. by apply elem_of_singleton.
      * intros Hreg. by apply Hfresh, Halloc.
      * intros r' [->%elem_of_singleton|Hr']%elem_of_union; [by left|right; by apply Hq1].
  - (* rooms[name] = room *)
    assert (locked = true) as ->.
    { destruct locked; [done|]. specialize (Hfree eq_refl i k Hk). by rewrite Hpos in Hfree. }
    destruct Hok as (Hnone & Hdom & Hunreg & Hheap & Hregrun).
    assert (∀ r', registered (Registry (<[arg k := r]> (rooms g)) (room_heap g) (running g)) r'
                  ↔ r' = r ∨ registered g r') as Hreg'.
    { intros r'. unfold registered. simpl. split.
      - intros [n Hn]. destruct (decide (arg k = n)) as [<-|Hne].
        + rewrite lookup_insert_eq in Hn. left. by injection Hn as <-.
        + rewrite lookup_insert_ne in Hn by done. right. by exists n.
      - intros [->|[n Hn]].
        + exists (arg k). by rewrite lookup_insert_eq.
        + exists n. rewrite lookup_insert_ne; [done|]. intros <-. by rewrite Hnone in Hn. }
    assert (∀ n r', rooms g !! n = Some r' → <[arg k := r]> (rooms g) !! n = Some r') as Hst.
    { intros n r' Hn. rewrite lookup_insert_ne; [done|]. intros <-. by rewrite Hnone in Hn. }
    apply Hinside; [|done| |done..].
    + split_and!; simpl; [| |done|].
      * intros r' [->|Hr']%Hreg'; [done|by apply Halloc].
      * intros n1 n2 r' H1 H2.
        destruct (decide (arg k = n1)) as [<-|Hne1]; destruct (decide (arg k = n2)) as [<-|Hne2];
          [done| | |].
        -- rewrite lookup_insert_eq in H1. injection H1 as <-.
           rewrite lookup_insert_ne in H2 by done. destruct Hunreg. by exists n2.
        -- rewrite lookup_insert_eq in H2. injection H2 as <-.
           rewrite lookup_insert_ne in H1 by done. destruct Hunreg. by exists n1.
        -- rewrite lookup_insert_ne in H1, H2 by done. by apply (Hinj n1 n2 r').
      * intros r' Hr'. apply Hreg'. right. by apply Hrun.
    + unfold call_ok. simpl. rewrite lookup_insert_eq. split_and!; [done| | |].
      * intros Hr. apply Hunreg. by apply Hrun.
      * intros r' Hr'. apply Hreg'. destruct (Hheap r' Hr'); [by left|by right].
      * intros r' [->|Hr']%Hreg'; [by left|right; by apply Hregrun].
  - (* go room.run() *)
    assert (locked = true) as ->.
    { destruct locked; [done|]. specialize (Hfree eq_refl i k Hk). by rewrite Hpos in Hfree. }
    destruct Hok as (Hsome & Hnotrun & Hheap & Hregrun).
    apply Hinside; [|done| |done..].
    + split_and!; simpl; [done..| |].
      * by apply NoDup_cons.
      * intros r' [->|Hr']%elem_of_cons; [by exists (arg k)|by apply Hrun].
    + unfold call_ok. simpl. split; [done|]. split; [done|]. simpl.
      intros r' Hr'. apply elem_of_cons. destruct (Hregrun r' Hr'); [by left|by right].
  - (* deferred mu.Unlock() *)
    assert (locked = true) as ->.
    { destruct locked; [done|]. specialize (Hfree eq_refl i k Hk). by rewrite Hpos in Hfree. }
    destruct Hok as (Hsome & Hq1).
    apply Hinside; [by split_and!|done|done..].
  - (* returned *)
    rewrite list_insert_id by done.
    split; [unfold world_inv; by split_and!|done].
Qed.

Lemma run_sched_inv sched w :
  world_inv w →
  world_inv (run_sched sched w)
  ∧ ∀ n r, rooms (reg w) !! n = Some r → rooms (reg (run_sched sched w)) !! n = Some r.
Proof.
  revert w. induction sched as [|i sched IH]; intros w Hinv; [done|].
  destruct (sched_step_inv w i Hinv) as [Hinv1 Hst1].
  destruct (IH _ Hinv1) as [Hinv2 Hst2].
  split; [done|]. intros n r Hn. by apply Hst2, Hst1.
Qed.

Lemma run_sched_replicate m w i k :
  calls w !! i = Some k →
  run_sched (replicate m i) w
  = World (call_run m (reg w) (mu w) k).1.1 (call_run m (reg w) (mu w) k).1.2
          (<[i := (call_run m (reg w) (mu w) k).2]> (calls w)).
Proof.
  revert w k. induction m as [|m IH]; intros [g l cs] k Hk; simpl in *.
  - by rewrite list_insert_id.
  - assert (i < length cs) as Hlen by (by eapply lookup_lt_Some).
    unfold sched_step at 1. simpl. rewrite Hk.
    destruct (call_step g l k) as [[g1 l1] k1].
    change (foldl sched_step ?w (replicate m i)) with (run_sched (replicate m i) w).
    rewrite (IH _ k1); simpl.
    + by rewrite list_insert_insert_eq.
    + by rewrite list_lookup_insert_eq.
Qed.

Lemma call_run_returns g (locked : bool) k :
  in_critical (pos k) = true ∨ locked = false →
  ∃ g' r, call_run 6 g locked k = (g', false, Call (arg k) (Returned r)).
Proof.
  destruct k as [n p]. simpl. intros Hcan.
  destruct p as [| | |r|r|r|r]; unfold call_step; simpl.
  - destruct Hcan as [?| ->]; [done|]. simpl.
    destruct (rooms g !! n) as [r|]; simpl; by eexists _, _.
  - destruct (rooms g !! n) as [r|]; simpl; by eexists _, _.
  - by eexists _, _.
  - by eexists _, _.
  - by eexists _, _.
  - by eexists _, _.
  - destruct Hcan as [?| ->]; [done|]. by eexists _, _.
Qed.

(** Scheduled six times in a row, a call that holds the mutex or finds it
    free has returned, and the mutex is free again. *)
Lemma call_returns w i k :
  calls w !! i = Some k →
  in_critical (pos k) = true ∨ mu w = false →
  ∃ r, calls (run_sched (replicate 6 i) w) !! i = Some (Call (arg k) (Returned r))
       ∧ mu (run_sched (replicate 6 i) w) = false.
Proof.
  intros Hk Hcan.
  assert (i < length (calls w)) as Hlen by (by eapply lookup_lt_Some).
  rewrite (run_sched_replicate 6 w i k Hk).
  destruct (call_run_returns (reg w) (mu w) k Hcan) as (g' & r & ->).
  exists r. simpl. by rewrite list_lookup_insert_eq.
Qed.

(** Alone, the statements of a call amount to [getRoom]. *)
Lemma getRoom_alone g n :
  call_run 6 g false (Call n AtLock)
  = ((getRoom n g).2, false, Call n (Returned (getRoom n g).1)).
Proof.
  unfold getRoom, call_step. simpl. unfold call_step. simpl.
  by destruct (rooms g !! n) as [r|].
Qed.

End registry_facts.

(** C3: however the statements of any number of [getRoom] calls are
    interleaved from program start, two calls for the same name that have
    returned hold the same room, which stays the room of that name from
    then on; no room is registered under two names, no loop is started
    twice, and whenever the mutex is free the rooms ever allocated are
    exactly the rooms registered, each with its loop started.  A call
    that holds the mutex or finds it free returns within six of its own
    statements, and run alone it does what [getRoom] does as one step: a
    call that finds the name registered returns that room and changes
    nothing; only a call that finds it absent allocates a room, registers
    it and starts its loop. *)
Theorem registry_single_instance names sched :
  let w := run_sched sched (init_world names) in
  (∀ i j n ri rj,
      calls w !! i = Some (Call n (Returned ri)) →
      calls w !! j = Some (Call n (Returned rj)) → ri = rj)
  ∧ (∀ i n r, calls w !! i = Some (Call n (Returned r)) →
       ∀ sched', rooms (reg (run_sched sched' w)) !! n = Some r)
  ∧ (∀ n1 n2 r, rooms (reg w) !! n1 = Some r → rooms (reg w) !! n2 = Some r → n1 = n2)
  ∧ NoDup (running (reg w))
  ∧ (mu w = false →
       dom (room_heap (reg w)) = map_img (rooms (reg w))
       ∧ list_to_set (running (reg w)) = dom (room_heap (reg w)))
  ∧ (∀ i k, calls w !! i = Some k → in_critical (pos k) = true ∨ mu w = false →
       ∃ r, calls (run_sched (replicate 6 i) w) !! i = Some (Call (arg k) (Returned r)))
  ∧ (∀ g n, call_run 6 g false (Call n AtLock)
            = ((getRoom n g).2, false, Call n (Returned (getRoom n g).1)))
  ∧ (∀ g n r, rooms g !! n = Some r → getRoom n g = (r, g))
  ∧ (∀ g n, rooms g !! n = None →
       ∃ r, (r ∉ dom (room_heap g))
            ∧ getRoom n g = (r, Registry (<[n := r]> (rooms g))
                                         (<[r := newRoom]> (room_heap g))
                                         (r :: running g))).
Proof.
  intros w.
  destruct (run_sched_inv sched (init_world names) (init_world_inv names)) as [Hinv _].
  fold w in Hinv.
  pose proof Hinv as ((Halloc & Hinj & Hnd & Hrun) & Hq & Hcalls & _ & _).
  split_and!; [| |done|done| | |apply getRoom_alone| |].
  - intros i j n ri rj Hi Hj.
    pose proof (Hcalls i _ Hi) as Hri. pose proof (Hcalls j _ Hj) as Hrj.
    unfold call_ok in Hri, Hrj. simpl in Hri, Hrj. congruence.
  - intros i n r Hi sched'.
    destruct (run_sched_inv sched' w Hinv) as [_ Hst]. apply Hst.
    apply (Hcalls i _ Hi).
  - intros Hfree. destruct (Hq Hfree) as [Hq1 Hq2]. split.
    + apply set_eq. intros r. rewrite elem_of_map_img. split; [apply Hq1|apply Halloc].
    + apply set_eq. intros r. rewrite elem_of_list_to_set. split.
      * intros Hr. by apply Halloc, Hrun.
      * intros Hr. by apply Hq2, Hq1.
  - intros i k Hk Hcan. destruct (call_returns w i k Hk Hcan) as (r & Hr & _). by exists r.
  - intros g n r Hr. unfold getRoom. by rewrite Hr.
  - intros g n Hnone. exists (fresh (dom (room_heap g))). split; [apply is_fresh|].
    unfold getRoom. by rewrite Hnone.
Qed.

Lemma registry_single_instance_witness :
  calls (run_sched race_sched race)
  = [Call "new-room" (Returned 1%positive); Call "new-room" (Returned 1%positive);
     Call "alpha" (Returned 2%positive)]
  ∧ running (reg (run_sched race_sched race)) = [2%positive; 1%positive]
  ∧ ∀ ri rj,
      calls (run_sched race_sched race) !! 0%nat = Some (Call "new-room" (Returned ri)) →
      calls (run_sched race_sched race) !! 1%nat = Some (Call "new-room" (Returned rj)) →
      ri = rj.
Proof.
  split; [vm_compute; reflexivity|]. split; [vm_compute; reflexivity|].
  intros ri rj.
  apply (registry_single_instance ["new-room"; "new-room"; "alpha"] race_sched).
Defined.

(** * Properties of the upgrade route *)

Lemma getRoom_registered nm g :
  rooms (getRoom nm g).2 !! nm = Some (getRoom nm g).1.
Proof.
  unfold getRoom. destruct (rooms g !! nm) as [r|] eqn:Hr; simpl; [done|].
  by rewrite lookup_insert_eq.
Qed.

Lemma getRoom_again nm g :
  getRoom nm (getRoom nm g).2 = getRoom nm g.
Proof.
  pose proof (getRoom_registered nm g) as Hreg.
  unfold getRoom at 1. rewrite Hreg. by destruct (getRoom nm g).
Qed.

Lemma Query_Get_absent (q : gmap string (list string)) key :
  q !! key = None → Query_Get q key = EmptyString.
Proof. unfold Query_Get. by intros ->. Qed.

(** C6: a request to [/room] whose [room] parameter is empty or absent is
    answered with [http.Error] and status 400 by the route (and by
    [ServeHTTP] itself, and behind [CORSMiddleware] for every request that
    is not a preflight), and the server is left as it was: no room is
    created or changed and no client is allocated. *)
Theorem missing_room_is_bad_request req rnd sv :
  Query_Get (query req) "room" = EmptyString →
  room_route req rnd sv = (HttpError "Missing room parameter" 400, sv)
  ∧ ServeHTTP req rnd sv = (HttpError "Missing room parameter" 400, sv)
  ∧ (method req ≠ "OPTIONS" →
     CORSMiddleware room_route req rnd sv = (HttpError "Missing room parameter" 400, sv))
  ∧ (CORSMiddleware room_route req rnd sv).2 = sv
  ∧ (∀ q : gmap string (list string), q !! "room" = None → Query_Get q "room" = EmptyString).
Proof.
  intros Hroom.
  assert (room_route req rnd sv = (HttpError "Missing room parameter" 400, sv)) as Hroute.
  { unfold room_route. rewrite Hroom. by rewrite decide_True. }
  split_and!; [done| | | |].
  - unfold ServeHTTP. rewrite Hroom. by rewrite decide_True.
  - intros Hm. unfold CORSMiddleware. by rewrite decide_False.
  - unfold CORSMiddleware. destruct (decide (method req = "OPTIONS")); [done|].
    by rewrite Hroute.
  - intros q. apply Query_Get_absent.
Qed.

Lemma missing_room_is_bad_request_witness :
  Query_Get (query (Request "GET" ∅ true)) "room" = EmptyString
  ∧ Query_Get (query (Request "GET" {[ "room" := [EmptyString] ]} true)) "room" = EmptyString
  ∧ room_route (Request "GET" ∅ true) 7 no_server
    = (HttpError "Missing room parameter" 400, no_server)
  ∧ room_route (Request "GET" {[ "room" := [EmptyString] ]} true) 7 no_server
    = (HttpError "Missing room parameter" 400, no_server).
Proof.
  split; [reflexivity|]. split; [reflexivity|]. split.
  - destruct (missing_room_is_bad_request (Request "GET" ∅ true) 7 no_server)
      as [Hroute _]; [reflexivity|exact Hroute].
  - destruct (missing_room_is_bad_request
                (Request "GET" {[ "room" := [EmptyString] ]} true) 7 no_server)
      as [Hroute _]; [reflexivity|exact Hroute].
Defined.

(** C8: with a non-empty [room] parameter the room is looked up, and
    created and started when absent, before the upgrade is tried, whatever
    the upgrade then does; when the upgrade fails the request ends with no
    client allocated, while the registry keeps the room: a room that did
    not exist before the request is now allocated, registered under the
    name and running. *)
Theorem failed_upgrade_keeps_room req rnd sv :
  Query_Get (query req) "room" ≠ EmptyString →
  let nm := Query_Get (query req) "room" in
  let g := registry_of sv in
  registry_of (room_route req rnd sv).2 = (getRoom nm g).2
  ∧ rooms (registry_of (room_route req rnd sv).2) !! nm = Some (getRoom nm g).1
  ∧ (handshake req = false →
       room_route req rnd sv = (UpgradeError, Server (getRoom nm g).2 (client_heap sv))
       ∧ ServeHTTP req rnd sv = (UpgradeError, Server (getRoom nm g).2 (client_heap sv)))
  ∧ (rooms g !! nm = None →
       let r := (getRoom nm g).1 in
       (r ∉ dom (room_heap g))
       ∧ room_heap (getRoom nm g).2 !! r = Some newRoom
       ∧ running (getRoom nm g).2 = r :: running g).
Proof.
  intros Hroom nm g.
  assert (room_route req rnd sv = ServeHTTP req rnd (Server (getRoom nm g).2 (client_heap sv)))
    as Hroute.
  { unfold room_route. fold nm. rewrite decide_False by done. fold g.
    by destruct (getRoom nm g). }
  assert (∀ sv', ServeHTTP req rnd sv'
    = if handshake req
      then (Serving (getRoom nm (registry_of sv')).1 (fresh (dom (client_heap sv'))),
            Server (getRoom nm (registry_of sv')).2
                   (<[fresh (dom (client_heap sv')) :=
                        Client ("user" +:+ pretty (rnd mod 1000)%nat)
                               (make_chan messageBufferSize)
                               (getRoom nm (registry_of sv')).1 true]> (client_heap sv')))
      else (UpgradeError, Server (getRoom nm (registry_of sv')).2 (client_heap sv'))) as Hserve.
  { intros sv'. unfold ServeHTTP. fold nm. rewrite decide_False by done.
    by destruct (getRoom nm (registry_of sv')). }
  rewrite Hroute, !Hserve. simpl. rewrite getRoom_again.
  split_and!.
  - by destruct (handshake req).
  - destruct (handshake req); simpl; apply getRoom_registered.
  - by intros ->.
  - intros Hnone. unfold getRoom. fold g. rewrite Hnone. simpl.
    split_and!; [apply is_fresh|by rewrite lookup_insert_eq|done].
Qed.

Lemma failed_upgrade_keeps_room_witness :
  Query_Get (query (Request "GET" {[ "room" := ["lobby"] ]} false)) "room" ≠ EmptyString
  ∧ room_route (Request "GET" {[ "room" := ["lobby"] ]} false) 7 no_server
    = (UpgradeError,
       Server (Registry {[ "lobby" := 1%positive ]} {[ 1%positive := newRoom ]} [1%positive]) ∅).
Proof.
  assert (Query_Get (query (Request "GET" {[ "room" := ["lobby"] ]} false)) "room" ≠ EmptyString)
    as Hroom by (vm_compute; discriminate).
  split; [exact Hroom|].
  destruct (failed_upgrade_keeps_room (Request "GET" {[ "room" := ["lobby"] ]} false) 7 no_server Hroom)
    as (_ & _ & Hfail & _).
  destruct (Hfail eq_refl) as [-> _]. vm_compute. reflexivity.
Defined.

(** * Properties of the payload *)

Lemma append_assoc (a b c : string) : (a +:+ b) +:+ c = a +:+ (b +:+ c).
Proof.
  induction a as [|x a IH]; [done|].
  change (String x ((a +:+ b) +:+ c) = String x (a +:+ (b +:+ c))). by rewrite IH.
Qed.

Lemma outgoing_sorted c msg :
  merge_sort key_le (map_to_list (outgoing c msg)) = [("message", msg); ("name", name c)].
Proof.
  unfold outgoing. generalize (name c). intros nm. vm_compute. reflexivity.
Qed.


Lemma append_String (x : ascii) (a b : string) : String x a +:+ b = String x (a +:+ b).
Proof. done. Qed.

Lemma byte_in_high lo hi b :
  (128 ≤ lo)%N → byte_in lo hi b = true → (128 ≤ N_of_ascii b)%N.
Proof.
  unfold byte_in. intros Hlo [Hb _]%andb_prop. apply N.leb_le in Hb. lia.
Qed.

Lemma continuation_high lo hi n t :
  (128 ≤ lo)%N → continuation lo hi n t = true → high_prefix n t.
Proof.
  intros Hlo. destruct n as [|[|[|[|n]]]]; [done| | | |by destruct t].
  - destruct t as [|b1 t]; [done|]. simpl. intros Hb. split; [|done].
    by apply (byte_in_high lo hi).
  - destruct t as [|b1 [|b2 t]]; [done..|]. simpl.
    intros [H1 H2]%andb_prop. split; [by apply (byte_in_high lo hi)|].
    split; [by apply (byte_in_high 128 191)|]. by destruct t.
  - destruct t as [|b1 [|b2 [|b3 t]]]; [done..|]. simpl.
    intros [[H1 H2]%andb_prop H3]%andb_prop.
    split; [by apply (byte_in_high lo hi)|].
    split; [by apply (byte_in_high 128 191)|].
    split; [by apply (byte_in_high 128 191)|]. by destruct t.
Qed.

Lemma rune_tail_high b t k : rune_tail b t = Some k → high_prefix k t.
Proof.
  unfold rune_tail.
  repeat match goal with
         | |- context [if ?c then _ else _] => destruct c eqn:?
         end; try done;
    intros [= <-]; (eapply continuation_high; [|eassumption]); lia.
Qed.

Lemma high_not_special b :
  (128 ≤ N_of_ascii b)%N → b ≠ quote_char ∧ b ≠ backslash.
Proof.
  intros Hb. split; intros ->; vm_compute in Hb; by apply Hb.
Qed.

(** Go's decoder accepts a sequence exactly when it is a well-formed
    character. *)
Lemma rune_tail_scalar b t :
  (128 ≤ N_of_ascii b)%N → rune_tail b t = snd <$> utf8_scalar b t.
Proof.
  intros Hb. unfold rune_tail, utf8_scalar, continuation, byte_in, trail, surrogate.
  destruct t as [|b1 [|b2 [|b3 t]]];
    generalize dependent (N_of_ascii b); intros n Hn;
    try (generalize (N_of_ascii b1); intros n1);
    try (generalize (N_of_ascii b2); intros n2);
    try (generalize (N_of_ascii b3); intros n3);
    repeat (match goal with
            | |- context [(?x <=? ?y)%N] => destruct (N.leb_spec x y)
            | |- context [(?x <? ?y)%N] => destruct (N.ltb_spec x y)
            end; simpl; try lia; try reflexivity).
Qed.

Lemma scalar_ascii b t :
  (N_of_ascii b < 128)%N → utf8_scalar b t = Some (N_of_ascii b, 0%nat).
Proof. intros Hb. unfold utf8_scalar. by rewrite (proj2 (N.ltb_lt _ _) Hb). Qed.

Lemma scalar_length b t cp k :
  utf8_scalar b t = Some (cp, k) → (k ≤ String.length t)%nat.
Proof.
  unfold utf8_scalar. intros H. repeat case_match; simplify_eq; simpl; lia.
Qed.

(** The character a byte starts is decided by the bytes that belong to it. *)
Lemma scalar_copied bad b t cp k R :
  utf8_scalar b t = Some (cp, k) →
  utf8_scalar b (appendString_with bad k t +:+ R) = Some (cp, k).
Proof.
  unfold utf8_scalar. intros H.
  repeat match type of H with
         | context [if ?c then _ else _] => destruct c eqn:?
         | context [match ?x with _ => _ end] => destruct x eqn:?
         end; simplify_eq; cbn [appendString_with]; rewrite ?append_String;
    repeat match goal with
           | Heq : ?x = _ |- context [?x] => rewrite Heq
           end; done.
Qed.

Lemma read_body_start b X cp k :
  (128 ≤ N_of_ascii b)%N → utf8_scalar b X = Some (cp, k) →
  read_body 0 (String b X) = prepend (String b EmptyString) <$> read_body k X.
Proof.
  intros Hb Hcp. destruct (high_not_special b Hb) as [Hq Hbs]. cbn [read_body].
  rewrite !bool_decide_eq_false_2 by done.
  rewrite (proj2 (N.ltb_ge _ _)) by lia. by rewrite Hcp.
Qed.

(** One escaped byte reads back as the byte. *)
Lemma read_body_escape_byte b X :
  (N_of_ascii b < 128)%N →
  read_body 0 (escape_byte b +:+ X) = prepend (String b EmptyString) <$> read_body 0 X.
Proof.
  intros Hb.
  destruct b as [[] [] [] [] [] [] [] []];
    try (vm_compute in Hb; discriminate Hb); reflexivity.
Qed.

Lemma read_body_u h1 h2 h3 h4 cp X :
  hex4 h1 h2 h3 h4 = Some cp → surrogate cp = false →
  read_body 0
    (String backslash (String "u" (String h1 (String h2 (String h3 (String h4 X))))))
  = prepend (utf8_encode cp) <$> read_body 0 X.
Proof.
  intros Hcp Hsur. cbn [read_body].
  rewrite (bool_decide_eq_false_2 (backslash = quote_char)) by done.
  rewrite (bool_decide_eq_true_2 (backslash = backslash)) by done.
  rewrite (bool_decide_eq_true_2 ("u"%char = "u"%char)) by done.
  by rewrite Hcp, Hsur.
Qed.

Lemma read_body_replacement_escape X :
  read_body 0 (String backslash "ufffd" +:+ X) = prepend replacement_raw <$> read_body 0 X.
Proof.
  change (String backslash "ufffd" +:+ X)
    with (String backslash (String "u" (String "f" (String "f" (String "f" (String "d" X)))))).
  by rewrite (read_body_u _ _ _ _ 65533).
Qed.

Lemma read_body_replacement_raw X :
  read_body 0 (replacement_raw +:+ X) = prepend replacement_raw <$> read_body 0 X.
Proof.
  unfold replacement_raw. rewrite !append_String.
  rewrite (read_body_start _ _ 65533 2) by (vm_compute; done).
  cbn [read_body]. change (EmptyString +:+ X) with X.
  destruct (read_body 0 X) as [[d r]|]; reflexivity.
Qed.

(** What the encoder writes for a string, followed by a quote, is accepted
    by the reader, which gets the string with its ill-formed bytes
    replaced and leaves what follows the quote. *)
Lemma read_body_appendString_with bad :
  (∀ X, read_body 0 (bad +:+ X) = prepend replacement_raw <$> read_body 0 X) →
  ∀ (n : nat) (s : string) (k : nat) (rest : string),
    (String.length s ≤ n)%nat → (k ≤ String.length s)%nat →
    read_body k (appendString_with bad k s +:+ String quote_char rest)
    = Some (to_valid_from k s, rest).
Proof.
  intros Hbad. induction n as [|n IH]; intros s k rest Hlen Hk.
  { destruct s; [|simpl in Hlen; lia]. simpl in Hk.
    assert (k = 0%nat) as -> by lia. reflexivity. }
  destruct s as [|b t].
  { simpl in Hk. assert (k = 0%nat) as -> by lia. reflexivity. }
  simpl in Hlen, Hk. assert (String.length t ≤ n)%nat as Hlen' by lia.
  destruct k as [|k].
  - cbn [appendString_with to_valid_from].
    destruct (N.ltb_spec (N_of_ascii b) 128) as [Hlow|Hhi].
    + rewrite append_assoc, read_body_escape_byte, scalar_ascii by done.
      rewrite IH by (done || lia). done.
    + rewrite (rune_tail_scalar b t Hhi).
      destruct (utf8_scalar b t) as [[cp k]|] eqn:Hcp; cbn [fmap option_fmap option_map snd].
      * pose proof (scalar_length b t cp k Hcp) as Hkt.
        assert (read_body 0 (String b (appendString_with bad k t) +:+ String quote_char rest)
                = Some (String b (to_valid_from k t), rest)) as Hcopy.
        { rewrite append_String.
          rewrite (read_body_start b _ cp k Hhi) by (by apply scalar_copied).
          rewrite IH by done. done. }
        destruct t as [|b1 [|b2 t3]]; [done..|].
        destruct (line_separator b b1 b2) as [d|] eqn:Hsep; [|done].
        unfold line_separator in Hsep.
        case_bool_decide as H0; [|done]. case_bool_decide as H1; [|done].
        simpl in Hsep.
        assert (b = ascii_of_N 226) as -> by (by rewrite <- H0, ascii_N_embedding).
        assert (b1 = ascii_of_N 128) as -> by (by rewrite <- H1, ascii_N_embedding).
        assert (read_body 0 (appendString_with bad 0 t3 +:+ String quote_char rest)
                = Some (to_valid_from 0 t3, rest)) as Hrest.
        { apply IH; [simpl in Hlen'; lia|lia]. }
        case_bool_decide as H2.
        { injection Hsep as <-.
          assert (b2 = ascii_of_N 168) as -> by (by rewrite <- H2, ascii_N_embedding).
          vm_compute in Hcp. injection Hcp as <- <-.
          change (String backslash ("u202" +:+ String "8" (appendString_with bad 0 t3))
                  +:+ String quote_char rest)
            with (String backslash (String "u" (String "2" (String "0" (String "2" (String "8"
                   (appendString_with bad 0 t3 +:+ String quote_char rest))))))).
          rewrite (read_body_u _ _ _ _ 8232) by reflexivity.
          rewrite Hrest. reflexivity. }
        case_bool_decide as H3; [|done]. injection Hsep as <-.
        assert (b2 = ascii_of_N 169) as -> by (by rewrite <- H3, ascii_N_embedding).
        vm_compute in Hcp. injection Hcp as <- <-.
        change (String backslash ("u202" +:+ String "9" (appendString_with bad 0 t3))
                +:+ String quote_char rest)
          with (String backslash (String "u" (String "2" (String "0" (String "2" (String "9"
                 (appendString_with bad 0 t3 +:+ String quote_char rest))))))).
        rewrite (read_body_u _ _ _ _ 8233) by reflexivity.
        rewrite Hrest. reflexivity.
      * rewrite append_assoc, Hbad. rewrite IH by (done || lia). done.
  - cbn [appendString_with to_valid_from]. rewrite append_String. cbn [read_body].
    rewrite IH by (done || lia). done.
Qed.

(** [appendString_from] is the loop with the six-character escape. *)
Lemma appendString_from_with (n : nat) : ∀ (s : string) (k : nat),
  (String.length s ≤ n)%nat →
  appendString_from k s = appendString_with (String backslash "ufffd") k s.
Proof.
  induction n as [|n IH]; intros [|b t] k Hlen; [by destruct k|simpl in Hlen; lia
                                                |by destruct k|].
  simpl in Hlen. destruct k as [|k]; cbn [appendString_from appendString_with].
  - destruct (N_of_ascii b <? 128)%N; [by rewrite IH by lia|].
    destruct (rune_tail b t) as [k|]; [|by rewrite IH by lia].
    destruct t as [|b1 [|b2 t3]]; [by rewrite IH by lia..|].
    destruct (line_separator b b1 b2); [|by rewrite IH by lia].
    simpl in Hlen. by rewrite (IH t3) by lia.
  - by rewrite IH by lia.
Qed.

Lemma read_string_appendString s rest :
  read_string (appendString s +:+ rest) = Some (to_valid s, rest).
Proof.
  unfold appendString, to_valid. rewrite append_String. cbn [read_string].
  rewrite bool_decide_eq_true_2 by done. rewrite append_assoc.
  rewrite (appendString_from_with (String.length s)) by done.
  apply (read_body_appendString_with _ read_body_replacement_escape (String.length s));
    [done|lia].
Qed.

Lemma read_string_appendString_raw s rest :
  read_string (appendString_raw s +:+ rest) = Some (to_valid s, rest).
Proof.
  unfold appendString_raw, to_valid. rewrite append_String. cbn [read_string].
  rewrite bool_decide_eq_true_2 by done. rewrite append_assoc.
  apply (read_body_appendString_with _ read_body_replacement_raw (String.length s));
    [done|lia].
Qed.

(** A well-formed text is left as it is. *)
Lemma to_valid_from_wellformed s :
  ∀ k, wellformed_from k s = true → to_valid_from k s = s.
Proof.
  induction s as [|b t IH]; intros k; [done|].
  destruct k as [|k]; cbn [wellformed_from to_valid_from].
  - destruct (utf8_scalar b t) as [[cp k]|]; [|done]. intros Hwf. by rewrite IH.
  - intros Hwf. by rewrite IH.
Qed.

Lemma to_valid_wellformed s : utf8_wellformed s = true → to_valid s = s.
Proof. apply to_valid_from_wellformed. Qed.

Lemma is_ascii_wellformed s : is_ascii s = true → utf8_wellformed s = true.
Proof.
  unfold utf8_wellformed. induction s as [|b t IH]; [done|]. simpl.
  intros [Hb Ht]%andb_prop. apply N.ltb_lt in Hb. rewrite scalar_ascii by done. auto.
Qed.

Lemma to_valid_ascii s : is_ascii s = true → to_valid s = s.
Proof. intros Hs. by apply to_valid_wellformed, is_ascii_wellformed. Qed.



Lemma read_fields_two (q : string → string) (fuel : nat) (k1 v1 k2 v2 : string) :
  (∀ s rest, read_string (q s +:+ rest) = Some (to_valid s, rest)) →
  read_fields (S (S fuel))
    (q k1 +:+ ":" +:+ q v1 +:+ "," +:+ q k2 +:+ ":" +:+ q v2 +:+ "}")
  = Some [(to_valid k1, to_valid v1); (to_valid k2, to_valid v2)].
Proof.
  intros Hq. cbn [read_fields]. rewrite Hq.
  change (":" +:+ ?X) with (String ":" X). cbv beta iota.
  rewrite (bool_decide_eq_true_2 (":"%char = ":"%char)) by done.
  rewrite Hq.
  change ("," +:+ ?X) with (String "," X). cbv beta iota.
  rewrite (bool_decide_eq_true_2 (","%char = ","%char)) by done.
  rewrite Hq.
  change (":" +:+ ?X) with (String ":" X). cbv beta iota.
  rewrite (bool_decide_eq_true_2 (":"%char = ":"%char)) by done.
  rewrite Hq. reflexivity.
Qed.

Lemma read_object_payload nm msg :
  read_object (payload_text nm msg) = Some [("message", to_valid msg); ("name", to_valid nm)].
Proof.
  unfold payload_text.
  change ("{" +:+ ?X) with (String "{" X). cbn [read_object].
  rewrite (bool_decide_eq_true_2 ("{"%char = "{"%char)) by done.
  unfold appendString at 1. rewrite append_String. cbn [String.length].
  change (String quote_char ?X) with (String quote_char EmptyString +:+ X) at 1.
  fold (appendString "message").
  rewrite (read_fields_two appendString _ "message" msg "name" nm read_string_appendString).
  reflexivity.
Qed.

Lemma read_object_payload_raw nm msg :
  read_object (payload_text_raw nm msg)
  = Some [("message", to_valid msg); ("name", to_valid nm)].
Proof.
  unfold payload_text_raw.
  change ("{" +:+ ?X) with (String "{" X). cbn [read_object].
  rewrite (bool_decide_eq_true_2 ("{"%char = "{"%char)) by done.
  unfold appendString_raw at 1. rewrite append_String. cbn [String.length].
  change (String quote_char ?X) with (String quote_char EmptyString +:+ X) at 1.
  fold (appendString_raw "message").
  rewrite (read_fields_two appendString_raw _ "message" msg "name" nm
             read_string_appendString_raw).
  reflexivity.
Qed.

Lemma json_Marshal_outgoing c msg :
  json_Marshal (outgoing c msg) = Some (payload_text (name c) msg).
Proof.
  unfold json_Marshal, payload_text. rewrite outgoing_sorted.
  cbn [encode_fields]. by rewrite !append_assoc.
Qed.

Lemma json_Marshal_raw_outgoing c msg :
  json_Marshal_raw (outgoing c msg) = Some (payload_text_raw (name c) msg).
Proof.
  unfold json_Marshal_raw, payload_text_raw. rewrite outgoing_sorted.
  cbn [encode_fields_raw]. by rewrite !append_assoc.
Qed.



(** * Further properties of the room loop *)

Section room_more.

Implicit Types (s : state) (c x : positive) (tr : list action) (a : action).

(** One action and one client object: what can change is the queue content,
    the closed flag (upwards) and the writer flag (downwards). *)
Lemma step_client a s s1 c cl :
  step a s = Ok s1 →
  heap s !! c = Some cl →
  ∃ cl1, heap s1 !! c = Some cl1
    ∧ name cl1 = name cl ∧ room cl1 = room cl
    ∧ cap (receive cl1) = cap (receive cl)
    ∧ (closed (receive cl) = true → closed (receive cl1) = true)
    ∧ (writing cl = false → writing cl1 = false)
    ∧ ((length (buf (receive cl)) ≤ cap (receive cl))%nat →
       (length (buf (receive cl1)) ≤ cap (receive cl1))%nat).
Proof.
  intros Hstep Hcl. destruct s as [[cls p] h]. simpl in Hcl.
  assert (∀ r', ∃ cl1, heap (State r' h) !! c = Some cl1
    ∧ name cl1 = name cl ∧ room cl1 = room cl
    ∧ cap (receive cl1) = cap (receive cl)
    ∧ (closed (receive cl) = true → closed (receive cl1) = true)
    ∧ (writing cl = false → writing cl1 = false)
    ∧ ((length (buf (receive cl)) ≤ cap (receive cl))%nat →
       (length (buf (receive cl1)) ≤ cap (receive cl1))%nat)) as Hsame.
  { intros r'. exists cl. by split_and!. }
  assert (∀ r' c' cl', h !! c' = Some cl' →
    ∀ cl2, name cl2 = name cl' → room cl2 = room cl' →
      cap (receive cl2) = cap (receive cl') →
      (closed (receive cl') = true → closed (receive cl2) = true) →
      (writing cl' = false → writing cl2 = false) →
      ((length (buf (receive cl')) ≤ cap (receive cl'))%nat →
       (length (buf (receive cl2)) ≤ cap (receive cl2))%nat) →
    ∃ cl1, heap (State r' (<[c' := cl2]> h)) !! c = Some cl1
    ∧ name cl1 = name cl ∧ room cl1 = room cl
    ∧ cap (receive cl1) = cap (receive cl)
    ∧ (closed (receive cl) = true → closed (receive cl1) = true)
    ∧ (writing cl = false → writing cl1 = false)
    ∧ ((length (buf (receive cl)) ≤ cap (receive cl))%nat →
       (length (buf (receive cl1)) ≤ cap (receive cl1))%nat)) as Hupd.
  { intros r' c' cl' Hcl' cl2 ? ? ? ? ? ?. simpl.
    destruct (decide (c' = c)) as [->|Hne].
    - rewrite lookup_insert_eq. rewrite Hcl in Hcl'. injection Hcl' as <-.
      exists cl2. by split_and!.
    - rewrite lookup_insert_ne by done. exists cl. by split_and!. }
  destruct a as [c'|c'|msg order| |c' ok|c']; simpl in Hstep.
  - destruct p; [|done]. injection Hstep as <-. apply Hsame.
  - destruct p; [|done].
    destruct (h !! c') as [cl'|] eqn:Hcl'; [|done].
    destruct (chan_close (receive cl')) as [ch| |] eqn:Hclose; [|done..].
    apply chan_close_Ok in Hclose as [Hopen ->]. injection Hstep as <-.
    by apply (Hupd _ c' cl').
  - destruct p; [|done]. case_bool_decide; [|done]. injection Hstep as <-. apply Hsame.
  - destruct p as [|msg cur rest]; [done|].
    destruct (h !! cur) as [cl'|] eqn:Hcl'; [|done].
    destruct (chan_send (receive cl') msg) as [ch| |] eqn:Hsend; [|done..].
    apply chan_send_Ok in Hsend as (Hopen & Hroom & ->). injection Hstep as <-.
    apply (Hupd _ cur cl'); simpl; try done.
    + intros Hc. by rewrite Hopen in Hc.
    + intros _. rewrite length_app. simpl. lia.
  - destruct (h !! c') as [cl'|] eqn:Hcl'; [|done].
    destruct (writing cl') eqn:Hw; [|done].
    unfold chan_recv in Hstep.
    destruct (buf (receive cl')) as [|v b'] eqn:Hbuf;
      [by destruct (closed (receive cl'))|].
    injection Hstep as <-.
    apply (Hupd _ c' cl'); destruct ok; simpl; try done;
      rewrite Hbuf; simpl; lia.
  - destruct (h !! c') as [cl'|] eqn:Hcl'; [|done].
    destruct (writing cl') eqn:Hw; [|done].
    unfold chan_recv in Hstep.
    destruct (buf (receive cl')) as [|v b'] eqn:Hbuf; [|done].
    destruct (closed (receive cl')); [|done]. injection Hstep as <-.
    by apply (Hupd _ c' cl').
Qed.

Lemma step_dom a s s1 : step a s = Ok s1 → dom (heap s1) = dom (heap s).
Proof.
  intros Hstep. apply set_eq. intros c. rewrite !elem_of_dom. split.
  - intros [cl1 Hcl1]. destruct (heap s !! c) as [cl|] eqn:Hcl; [done|].
    destruct s as [[cls p] h]. simpl in Hcl.
    assert (∀ r' c' cl2, is_Some (h !! c') →
              heap (State r' (<[c' := cl2]> h)) !! c = None) as Hupd.
    { intros r' c' cl2 [cl' Hcl']. simpl. rewrite lookup_insert_ne; [done|].
      intros ->. by rewrite Hcl in Hcl'. }
    destruct a as [c'|c'|msg order| |c' ok|c']; simpl in Hstep.
    + destruct p; [|done]. injection Hstep as <-. simpl in Hcl1. by rewrite Hcl in Hcl1.
    + destruct p; [|done]. destruct (h !! c') as [cl'|] eqn:Hcl'; [|done].
      destruct (chan_close (receive cl')); [|done..]. injection Hstep as <-.
      rewrite Hupd in Hcl1; [done|by rewrite Hcl'].
    + destruct p; [|done]. case_bool_decide; [|done]. injection Hstep as <-.
      simpl in Hcl1. by rewrite Hcl in Hcl1.
    + destruct p as [|msg cur rest]; [done|].
      destruct (h !! cur) as [cl'|] eqn:Hcl'; [|done].
      destruct (chan_send (receive cl') msg); [|done..]. injection Hstep as <-.
      rewrite Hupd in Hcl1; [done|by rewrite Hcl'].
    + destruct (h !! c') as [cl'|] eqn:Hcl'; [|done]. destruct (writing cl'); [|done].
      destruct (chan_recv (receive cl')) as [[[v|] ch]| |]; [|done..].
      injection Hstep as <-. rewrite Hupd in Hcl1; [done|by rewrite Hcl'].
    + destruct (h !! c') as [cl'|] eqn:Hcl'; [|done]. destruct (writing cl'); [|done].
      destruct (chan_recv (receive cl')) as [[[v|] ch]| |]; [done| |done..].
      injection Hstep as <-. rewrite Hupd in Hcl1; [done|by rewrite Hcl'].
  - intros [cl Hcl]. destruct (step_client a s s1 c cl Hstep Hcl) as (cl1 & Hcl1 & _).
    by exists cl1.
Qed.

Lemma clients_along_run_aux tr s s' c cl :
  exec tr s = Ok s' →
  heap s !! c = Some cl →
  ∃ cl', heap s' !! c = Some cl'
    ∧ cap (receive cl') = cap (receive cl)
    ∧ ((length (buf (receive cl)) ≤ cap (receive cl))%nat →
       (length (buf (receive cl')) ≤ cap (receive cl'))%nat).
Proof.
  revert s cl. induction tr as [|a tr IH]; intros s cl Hex Hcl.
  - injection Hex as <-. exists cl. by split_and!.
  - simpl in Hex. destruct (step a s) as [s1| |] eqn:Hstep; [|done..].
    destruct (step_client a s s1 c cl Hstep Hcl)
      as (cl1 & Hcl1 & _ & _ & Hc1 & _ & _ & Hb1).
    destruct (IH s1 cl1 Hex Hcl1) as (cl' & Hcl' & Hc & Hb).
    exists cl'. split_and!; [done|congruence|auto].
Qed.

End room_more.

(** X1: along any run of the loop no client object appears or disappears;
    a client keeps its name, its room and the capacity of its queue; a
    closed queue stays closed, a writer that has returned does not come
    back, and a queue within its capacity stays within it. *)
Theorem clients_along_run tr s s' c cl :
  exec tr s = Ok s' →
  heap s !! c = Some cl →
  dom (heap s') = dom (heap s)
  ∧ ∃ cl', heap s' !! c = Some cl'
      ∧ name cl' = name cl ∧ room cl' = room cl
      ∧ cap (receive cl') = cap (receive cl)
      ∧ (closed (receive cl) = true → closed (receive cl') = true)
      ∧ (writing cl = false → writing cl' = false)
      ∧ ((length (buf (receive cl)) ≤ cap (receive cl))%nat →
         (length (buf (receive cl')) ≤ cap (receive cl'))%nat).
Proof.
  revert s cl. induction tr as [|a tr IH]; intros s cl Hex Hcl.
  - injection Hex as <-. split; [done|]. exists cl. by split_and!.
  - simpl in Hex. destruct (step a s) as [s1| |] eqn:Hstep; [|done..].
    destruct (step_client a s s1 c cl Hstep Hcl)
      as (cl1 & Hcl1 & Hn1 & Hr1 & Hc1 & Hcl1' & Hw1 & Hb1).
    destruct (IH s1 cl1 Hex Hcl1) as (Hdom & cl' & Hcl' & Hn & Hr & Hc & Hcl2 & Hw & Hb).
    split; [by rewrite Hdom, (step_dom a s s1)|].
    exists cl'. split_and!; try done; try congruence; auto.
Qed.

Lemma clients_along_run_witness :
  exec lobby_trace lobby = Ok lobby_after
  ∧ ∃ cl', heap lobby_after !! alice = Some cl'
      ∧ name cl' = "user1" ∧ cap (receive cl') = 256 ∧ closed (receive cl') = true
      ∧ (length (buf (receive cl')) ≤ 256)%nat.
Proof.
  assert (exec lobby_trace lobby = Ok lobby_after) as Hex by (vm_compute; reflexivity).
  split; [exact Hex|].
  destruct (clients_along_run lobby_trace lobby lobby_after alice (fresh_client "user1") Hex)
    as (_ & cl' & Hcl' & Hn & _ & Hc & _ & _ & Hb); [reflexivity|].
  exists cl'. split; [exact Hcl'|]. split; [exact Hn|]. split; [exact Hc|].
  split; [vm_compute in Hcl'; by injection Hcl' as <-|].
  rewrite Hc in Hb. apply Hb. vm_compute. lia.
Defined.

Section conservation.

Local Open Scope nat_scope.
Local Open Scope list_scope.

Implicit Types (s : state) (c x : positive) (tr : list action) (a : action).

Lemma deliveries_requests c (m : bool) tr :
  deliveries c m (filter (λ a, is_request a = true) tr) = deliveries c m tr.
Proof.
  revert m. induction tr as [|a tr IH]; intros m; [done|].
  destruct a; rewrite ?filter_cons_True, ?filter_cons_False by done; simpl;
    by rewrite ?IH.
Qed.

Lemma drains_requests c tr :
  drains c (filter (λ a, is_request a = true) tr) = 0.
Proof.
  induction tr as [|a tr IH]; [done|].
  destruct a; rewrite ?filter_cons_True, ?filter_cons_False by done; simpl; done.
Qed.

Lemma taken_cons c a tr s s1 :
  step a s = Ok s1 → taken c (a :: tr) s = taken c [a] s ++ taken c tr s1.
Proof.
  intros Hstep. simpl. rewrite Hstep.
  destruct a as [| | | |c' ok|]; try done.
  destruct (queue c s) as [[|v q]|]; try done.
  by destruct (decide (c' = c)).
Qed.

(** One action: what was in the queue or owed before is what the writer
    took, what is in the queue and what is owed afterwards. *)
Lemma step_queue_eq a s s1 c q tr :
  NoDup (pending s) →
  step a s = Ok s1 →
  queue c s = Some q →
  NoDup (pending s1) ∧
  ∃ q1, queue c s1 = Some q1 ∧
    q ++ owed c s ++ deliveries c (is_member c s) (a :: tr)
    = (taken c [a] s).*1 ++ q1 ++ owed c s1 ++ deliveries c (is_member c s1) tr.
Proof.
  intros Hnd Hstep Hq.
  destruct (step_queue a s s1 c q (filter (λ a, is_request a = true) tr) Hnd Hstep Hq)
    as (Hnd1 & q1 & Hq1 & Heq).
  split; [done|]. exists q1. split; [done|].
  rewrite deliveries_requests in Heq.
  assert (deliveries c (is_member c s) (a :: filter (λ a, is_request a = true) tr)
          = deliveries c (is_member c s) (a :: tr)) as Hd.
  { destruct a; simpl; by rewrite deliveries_requests. }
  rewrite Hd in Heq. clear Hd.
  assert (drains c (a :: filter (λ a, is_request a = true) tr) = drains c [a]) as Hk.
  { destruct a; simpl; rewrite drains_requests; lia. }
  rewrite Hk, drains_requests, drop_0 in Heq. clear Hk.
  simpl taken. rewrite Hstep.
  destruct a as [c'|c'|msg order| |c' ok|c'];
    try (cbn [drains] in Heq; rewrite drop_0 in Heq; exact Heq).
  rewrite Hq. cbn [drains] in Heq. destruct (decide (c' = c)) as [->|Hne].
  - destruct s as [[cls p] h]. simpl in Hstep.
    unfold queue in Hq. simpl in Hq.
    destruct (h !! c) as [cl|] eqn:Hcl; [|done]. injection Hq as <-.
    destruct (writing cl); [|done]. unfold chan_recv in Hstep.
    destruct (buf (receive cl)) as [|v b'] eqn:Hbuf;
      [by destruct (closed (receive cl))|].
    simpl. f_equal. exact Heq.
  - destruct q; exact Heq.
Qed.

Lemma exec_conservation tr s s' c q :
  NoDup (pending s) →
  exec tr s = Ok s' →
  queue c s = Some q →
  ∃ q', queue c s' = Some q' ∧
    (taken c tr s).*1 ++ q' ++ owed c s'
    = q ++ owed c s ++ deliveries c (is_member c s) tr.
Proof.
  revert s q. induction tr as [|a tr IH]; intros s q Hnd Hex Hq.
  - injection Hex as <-. exists q. split; [done|]. simpl. by rewrite app_nil_r.
  - simpl in Hex. destruct (step a s) as [s1| |] eqn:Hstep; [|done..].
    destruct (step_queue_eq a s s1 c q tr Hnd Hstep Hq) as (Hnd1 & q1 & Hq1 & ->).
    destruct (IH s1 q1 Hnd1 Hex Hq1) as (q' & Hq' & Heq).
    exists q'. split; [done|].
    rewrite (taken_cons c a tr s s1 Hstep), fmap_app, <- app_assoc. by rewrite Heq.
Qed.

(** A writer that has returned takes nothing more. *)
Lemma taken_stopped tr s c cl :
  heap s !! c = Some cl → writing cl = false → taken c tr s = [].
Proof.
  revert s cl. induction tr as [|a tr IH]; intros s cl Hcl Hw; [done|].
  simpl. destruct (step a s) as [s1| |] eqn:Hstep; [|done..].
  destruct (step_client a s s1 c cl Hstep Hcl) as (cl1 & Hcl1 & _ & _ & _ & _ & Hw1 & _).
  rewrite (IH s1 cl1 Hcl1 (Hw1 Hw)).
  destruct a as [| | | |c' ok|]; try done.
  destruct (queue c s) as [[|v q]|]; try done.
  destruct (decide (c' = c)) as [->|]; [|done].
  simpl in Hstep. rewrite Hcl, Hw in Hstep. done.
Qed.

(** Only the last element taken can have failed to go out. *)
Lemma written_prefix tr s c :
  written c tr s `prefix_of` (taken c tr s).*1.
Proof.
  unfold written. revert s. induction tr as [|a tr IH]; intros s; [done|].
  simpl. destruct (step a s) as [s1| |] eqn:Hstep; [|done..].
  destruct a as [c0|c0|msg order| |c' ok|c0]; try apply IH.
  destruct (queue c s) as [[|v q]|] eqn:Hq; try apply IH.
  destruct (decide (c' = c)) as [->|]; [|apply IH].
  destruct ok.
  - rewrite filter_cons_True by done. simpl. apply prefix_cons, IH.
  - rewrite filter_cons_False by done.
    assert (taken c tr s1 = []) as ->; [|apply prefix_nil].
    destruct s as [[cls p] h]. simpl in Hstep. unfold queue in Hq. simpl in Hq.
    destruct (h !! c) as [cl|] eqn:Hcl; [|done].
    destruct (writing cl); [|done]. unfold chan_recv in Hstep.
    destruct (buf (receive cl)) as [|v' b'] eqn:Hbuf;
      [by destruct (closed (receive cl))|].
    injection Hstep as <-.
    eapply taken_stopped; [simpl; apply lookup_insert_eq|done].
Qed.

End conservation.

(** X2: between two moments at which the loop is at its [select], nothing
    is lost, doubled or reordered on the way to a client: what its writer
    took from the queue, followed by what is still in the queue, is what was
    in the queue before followed by the payloads broadcast while the client
    was a member, in the order they were processed.  What went out on the
    connection is an initial part of that sequence. *)
Theorem delivery_is_conserved tr s s' c q :
  at_pc (rm s) = Select →
  exec tr s = Ok s' →
  at_pc (rm s') = Select →
  queue c s = Some q →
  ∃ q', queue c s' = Some q'
    ∧ ((taken c tr s).*1 ++ q' = q ++ deliveries c (is_member c s) tr)%list
    ∧ length (taken c tr s) = drains c tr
    ∧ written c tr s `prefix_of` (q ++ deliveries c (is_member c s) tr)%list.
Proof.
  intros Hsel Hex Hsel' Hq.
  destruct (exec_conservation tr s s' c q) as (q' & Hq' & Heq);
    [unfold pending; rewrite Hsel; constructor|done..|].
  unfold owed in Heq. rewrite Hsel, Hsel' in Heq. simpl in Heq.
  rewrite app_nil_r in Heq.
  exists q'. split; [done|]. split; [done|]. split.
  - clear Heq Hq' Hsel' Hsel Hq. revert s Hex.
    induction tr as [|a tr IH]; intros s Hex; [done|].
    simpl in Hex. simpl taken. destruct (step a s) as [s1| |] eqn:Hstep; [|done..].
    specialize (IH s1 Hex).
    destruct a as [c0|c0|msg order| |c' ok|c0]; try exact IH.
    simpl drains. destruct (decide (c' = c)) as [->|Hne].
    + destruct s as [[cls p] h]. simpl in Hstep. unfold queue. simpl.
      destruct (h !! c) as [cl|] eqn:Hcl; [|done].
      destruct (writing cl); [|done]. unfold chan_recv in Hstep.
      destruct (buf (receive cl)) as [|v' b'] eqn:Hbuf;
        [by destruct (closed (receive cl))|].
      simpl. rewrite Hbuf. simpl. by rewrite IH.
    + destruct (queue c s) as [[|v q0]|]; simpl; by rewrite IH.
  - rewrite <- Heq. eapply prefix_app_r. apply written_prefix.
Qed.

Lemma delivery_is_conserved_witness :
  exec lobby_trace lobby = Ok lobby_after
  ∧ taken bob lobby_trace lobby = [("m1", true)]
  ∧ written bob lobby_trace lobby = ["m1"]
  ∧ ∃ q', queue bob lobby_after = Some q' ∧ (["m1"] ++ q' = ["m1"; "m2"; "m3"])%list.
Proof.
  assert (exec lobby_trace lobby = Ok lobby_after) as Hex by (vm_compute; reflexivity).
  split; [exact Hex|]. split; [vm_compute; reflexivity|]. split; [vm_compute; reflexivity|].
  destruct (delivery_is_conserved lobby_trace lobby lobby_after bob [] eq_refl Hex)
    as (q' & Hq' & Heq & _); [vm_compute; reflexivity..|].
  exists q'. split; [exact Hq'|]. exact Heq.
Defined.

(** X3: a member whose writer has returned is served only as long as its
    queue has free slots: in a run that brings the loop back to its
    [select], the payloads broadcast while it is a member are all still in
    its queue, so they number at most the slots that were free. *)
Theorem stopped_writer_bounds_broadcasts tr s s' x cl :
  at_pc (rm s) = Select →
  exec tr s = Ok s' →
  at_pc (rm s') = Select →
  heap s !! x = Some cl →
  writing cl = false →
  (length (buf (receive cl)) ≤ cap (receive cl))%nat →
  queue x s' = Some (buf (receive cl) ++ deliveries x (is_member x s) tr)%list
  ∧ (length (deliveries x (is_member x s) tr)
     ≤ cap (receive cl) - length (buf (receive cl)))%nat.
Proof.
  intros Hsel Hex Hsel' Hcl Hw Hlen.
  assert (queue x s = Some (buf (receive cl))) as Hq by (unfold queue; by rewrite Hcl).
  destruct (exec_conservation tr s s' x (buf (receive cl))) as (q' & Hq' & Heq);
    [unfold pending; rewrite Hsel; constructor|done..|].
  unfold owed in Heq. rewrite Hsel, Hsel' in Heq. simpl in Heq.
  rewrite app_nil_r, (taken_stopped tr s x cl Hcl Hw) in Heq. simpl in Heq. subst q'.
  split; [done|].
  destruct (clients_along_run_aux tr s s' x cl Hex Hcl) as (cl' & Hcl' & Hcap & Hb).
  unfold queue in Hq'. rewrite Hcl' in Hq'. simpl in Hq'. injection Hq' as Hbuf.
  specialize (Hb Hlen). rewrite Hbuf, length_app, Hcap in Hb. lia.
Qed.
Section loop_safety.

Local Open Scope nat_scope.
Local Open Scope list_scope.

Implicit Types (s : state) (c x : positive) (tr : list action) (a : action).

Lemma client_open_insert (h : gmap positive client) c c' cl cl' :
  h !! c' = Some cl →
  closed (receive cl') = closed (receive cl) →
  client_open h c → client_open (<[c' := cl']> h) c.
Proof.
  intros Hcl Hsame (cl0 & Hcl0 & Hopen). destruct (decide (c' = c)) as [->|Hne].
  - exists cl'. rewrite lookup_insert_eq. split; [done|].
    rewrite Hcl in Hcl0. injection Hcl0 as <-. congruence.
  - exists cl0. by rewrite lookup_insert_ne.
Qed.

(** In a well-formed room an allowed action does not panic and leaves the
    room well-formed. *)
Lemma step_safe a s :
  room_wf s → allowed a s →
  (∀ f, step a s ≠ Panic f) ∧ (∀ s1, step a s = Ok s1 → room_wf s1).
Proof.
  intros (Hopen & Hpend & Hnd) Hallowed. destruct s as [[cls p] h].
  unfold room_wf, members, pending in *. simpl in *.
  destruct a as [c'|c'|msg order| |c' ok|c']; simpl.
  - destruct p; [|done]. split; [done|]. intros s1 [= <-]. simpl. split_and!.
    + intros c. rewrite dom_insert_L, elem_of_union, elem_of_singleton.
      intros [->|Hc]; [done|by apply Hopen].
    + intros c Hc. by apply elem_of_nil in Hc.
    + constructor.
  - destruct p; [|done].
    destruct (Hopen c' Hallowed) as (cl & Hcl & Hcl_open).
    rewrite Hcl. unfold chan_close. rewrite Hcl_open.
    split; [done|]. intros s1 [= <-]. simpl. split_and!.
    + intros c. rewrite dom_delete_L, elem_of_difference, elem_of_singleton.
      intros [Hc Hne]. destruct (Hopen c Hc) as (cl0 & Hcl0 & Hopen0).
      exists cl0. rewrite lookup_insert_ne; [done|]. by intros ->.
    + intros c Hc. by apply elem_of_nil in Hc.
    + constructor.
  - destruct p; [|done]. case_bool_decide as Hord; [|done].
    split; [done|]. intros s1 [= <-]. simpl. destruct Hord as [Hnd' Hdom].
    change (pending_pc (range_pc msg order))
      with (pending (State (Room cls (range_pc msg order)) h)).
    rewrite pending_range. split_and!; [done| |done].
    intros c Hc. rewrite <- Hdom. by apply elem_of_list_to_set.
  - destruct p as [|msg cur rest]; [done|]. simpl in Hpend, Hnd.
    destruct (Hopen cur) as (cl & Hcl & Hcl_open); [apply Hpend; by left|].
    rewrite Hcl. unfold chan_send. rewrite Hcl_open.
    destruct (length (buf (receive cl)) <? cap (receive cl)); [|done].
    split; [done|]. intros s1 [= <-]. simpl.
    change (pending_pc (range_pc msg rest))
      with (pending (State (Room cls (range_pc msg rest)) h)).
    rewrite pending_range. apply NoDup_cons in Hnd as [_ Hnd]. split_and!; [| |done].
    + intros c Hc. by apply (client_open_insert h c cur cl), Hopen.
    + intros c Hc. apply Hpend. by right.
  - destruct (h !! c') as [cl|] eqn:Hcl; [|done].
    destruct (writing cl); [|done]. unfold chan_recv.
    destruct (buf (receive cl)) as [|v b'];
      [by destruct (closed (receive cl))|].
    split; [done|]. intros s1 [= <-]. simpl. split_and!; [|done..].
    intros c Hc. apply (client_open_insert h c c' cl); [done| |by apply Hopen].
    by destruct ok.
  - destruct (h !! c') as [cl|] eqn:Hcl; [|done].
    destruct (writing cl); [|done]. unfold chan_recv.
    destruct (buf (receive cl)) as [|v b']; [|done].
    destruct (closed (receive cl)); [|done].
    split; [done|]. intros s1 [= <-]. simpl. split_and!; [|done..].
    intros c Hc. by apply (client_open_insert h c c' cl), Hopen.
Qed.

End loop_safety.

(** X4: the loop does not panic as long as it is used the way [ServeHTTP]
    uses it.  From a room whose members have open queues, a run in which
    every join is of a client with an open queue and every leave is of a
    current member never ends in a panic (no send on a closed channel, no
    second close), and the room stays in that condition. *)
Theorem loop_never_panics tr s :
  room_wf s →
  follows tr s →
  (∀ f, exec tr s ≠ Panic f) ∧ (∀ s', exec tr s = Ok s' → room_wf s').
Proof.
  revert s. induction tr as [|a tr IH]; intros s Hwf Hfol.
  - split; [done|]. by intros s' [= <-].
  - destruct Hfol as [Hallowed Hfol]. simpl.
    destruct (step_safe a s Hwf Hallowed) as [Hsafe Hwf1].
    destruct (step a s) as [s1| |f0] eqn:Hstep.
    + apply IH; [by apply Hwf1|done].
    + by split.
    + by destruct (Hsafe f0).
Qed.

Lemma loop_never_panics_witness :
  room_wf solo ∧ follows solo_session solo
  ∧ exec solo_session solo
    = Ok (State (Room ∅ Select)
                {[ alice := Client "user1" (Chan messageBufferSize ["m0"; "m1"] true)
                                   1%positive true ]}).
Proof.
  assert (room_wf solo) as Hwf.
  { split_and!.
    - intros c Hc. unfold members in Hc. simpl in Hc.
      rewrite dom_singleton_L in Hc. apply elem_of_singleton in Hc as ->.
      eexists. split; [apply lookup_singleton_eq|reflexivity].
    - intros c Hc. by apply elem_of_nil in Hc.
    - constructor. }
  assert (follows solo_session solo) as Hfol.
  { split; [exact I|]. vm_compute step. split; [exact I|]. vm_compute step.
    split; [|exact I].
    unfold allowed.
    match goal with |- ?P => apply (bool_decide_unpack P) end. vm_compute. exact I. }
  split; [exact Hwf|]. split; [exact Hfol|].
  destruct (loop_never_panics solo_session solo Hwf Hfol) as [Hsafe _].
  destruct (exec solo_session solo) as [s'| |f] eqn:Hex.
  - vm_compute in Hex. injection Hex as <-. vm_compute. reflexivity.
  - vm_compute in Hex. discriminate Hex.
  - by destruct (Hsafe f).
Defined.

Lemma stopped_writer_bounds_broadcasts_witness :
  exec lobby_mute_trace lobby_mute
  = Ok (State (Room {[ alice := true; bob := true ]} Select)
              {[ alice := Client "user1" (Chan 3 ["m0"; "m1"; "m2"] false) 1%positive false;
                 bob := Client "user2" (Chan messageBufferSize ["m2"] false) 1%positive true ]})
  ∧ (length (deliveries alice (is_member alice lobby_mute) lobby_mute_trace) ≤ 3 - 1)%nat.
Proof.
  assert (exec lobby_mute_trace lobby_mute
    = Ok (State (Room {[ alice := true; bob := true ]} Select)
              {[ alice := Client "user1" (Chan 3 ["m0"; "m1"; "m2"] false) 1%positive false;
                 bob := Client "user2" (Chan messageBufferSize ["m2"] false) 1%positive true ]}))
    as Hex by (vm_compute; reflexivity).
  split; [exact Hex|].
  destruct (stopped_writer_bounds_broadcasts lobby_mute_trace lobby_mute _ alice
              (Client "user1" (Chan 3 ["m0"] false) 1%positive false) eq_refl Hex)
    as [_ Hbound]; [reflexivity..|simpl; lia|exact Hbound].
Defined.

(** * Further properties of the upgrade route *)

Lemma room_route_eq req rnd sv : room_route req rnd sv = ServeHTTP req rnd sv.
Proof.
  unfold room_route, ServeHTTP.
  destruct (decide (Query_Get (query req) "room" = EmptyString)) as [Hempty|Hroom]; [done|].
  pose proof (getRoom_again (Query_Get (query req) "room") (registry_of sv)) as Hagain.
  destruct (getRoom (Query_Get (query req) "room") (registry_of sv)) as [r g] eqn:Hget.
  simpl in *. by rewrite Hagain.
Qed.

(** X5: the lookup the [/room] function makes before it calls [ServeHTTP]
    adds nothing: for every request the function answers and leaves the
    server exactly as [ServeHTTP] alone does, also behind
    [CORSMiddleware]. *)
Theorem route_is_ServeHTTP req rnd sv :
  room_route req rnd sv = ServeHTTP req rnd sv
  ∧ CORSMiddleware room_route req rnd sv = CORSMiddleware ServeHTTP req rnd sv.
Proof.
  split; [apply room_route_eq|].
  unfold CORSMiddleware. destruct (decide (method req = "OPTIONS")); [done|].
  apply room_route_eq.
Qed.

Lemma ServeHTTP_upgraded req rnd sv :
  Query_Get (query req) "room" ≠ EmptyString →
  handshake req = true →
  ServeHTTP req rnd sv
  = (Serving (getRoom (Query_Get (query req) "room") (registry_of sv)).1
             (fresh (dom (client_heap sv))),
     Server (getRoom (Query_Get (query req) "room") (registry_of sv)).2
            (<[fresh (dom (client_heap sv)) :=
                 Client ("user" +:+ pretty (rnd mod 1000)%nat)
                        (make_chan messageBufferSize)
                        (getRoom (Query_Get (query req) "room") (registry_of sv)).1 true]>
               (client_heap sv))).
Proof.
  intros Hroom Hhs. unfold ServeHTTP. rewrite decide_False by done.
  destruct (getRoom (Query_Get (query req) "room") (registry_of sv)). by rewrite Hhs.
Qed.

Lemma ServeHTTP_Serving req rnd sv r c sv' :
  ServeHTTP req rnd sv = (Serving r c, sv') →
  Query_Get (query req) "room" ≠ EmptyString ∧ handshake req = true.
Proof.
  unfold ServeHTTP.
  destruct (decide (Query_Get (query req) "room" = EmptyString)); [done|].
  destruct (getRoom (Query_Get (query req) "room") (registry_of sv)).
  by destruct (handshake req).
Qed.

(** X6: an upgrade that succeeds allocates one client object, at an address
    no client had, with an empty open queue of [messageBufferSize] slots
    and bound to the room of the requested name; every client and every
    room object that existed is left as it was, and no other name is bound
    or rebound. *)
Theorem upgrade_allocates_one_client req rnd sv :
  Query_Get (query req) "room" ≠ EmptyString →
  handshake req = true →
  ∃ r c cl sv',
    ServeHTTP req rnd sv = (Serving r c, sv')
    ∧ (c ∉ dom (client_heap sv))
    ∧ client_heap sv' !! c = Some cl
    ∧ dom (client_heap sv') = {[ c ]} ∪ dom (client_heap sv)
    ∧ (∀ c' cl', client_heap sv !! c' = Some cl' → client_heap sv' !! c' = Some cl')
    ∧ receive cl = Chan 256 [] false ∧ room cl = r
    ∧ rooms (registry_of sv') !! Query_Get (query req) "room" = Some r
    ∧ (∀ n', n' ≠ Query_Get (query req) "room" →
         rooms (registry_of sv') !! n' = rooms (registry_of sv) !! n')
    ∧ (∀ r' rm, room_heap (registry_of sv) !! r' = Some rm →
         room_heap (registry_of sv') !! r' = Some rm).
Proof.
  intros Hroom Hhs. eexists _, _, _, _. split; [by apply ServeHTTP_upgraded|].
  simpl. set (nm := Query_Get (query req) "room"). set (g := registry_of sv).
  pose proof (is_fresh (dom (client_heap sv))) as Hfresh.
  split_and!.
  - done.
  - by rewrite lookup_insert_eq.
  - by rewrite dom_insert_L.
  - intros c' cl' Hc'. rewrite lookup_insert_ne; [done|].
    intros <-. apply Hfresh. apply elem_of_dom. by exists cl'.
  - reflexivity.
  - reflexivity.
  - apply getRoom_registered.
  - intros n' Hn'. unfold getRoom. destruct (rooms g !! nm); [done|].
    simpl. by rewrite lookup_insert_ne.
  - intros r' rm Hr'. unfold getRoom. destruct (rooms g !! nm); [done|].
    simpl. rewrite lookup_insert_ne; [done|].
    intros <-. apply (is_fresh (dom (room_heap g))). apply elem_of_dom. by exists rm.
Qed.

Lemma upgrade_allocates_one_client_witness :
  ∃ r c cl sv',
    ServeHTTP (Request "GET" {[ "room" := ["lobby"] ]} true) 1234 no_server
    = (Serving r c, sv')
    ∧ (c ∉ dom (client_heap no_server))
    ∧ client_heap sv' !! c = Some cl
    ∧ receive cl = Chan 256 [] false ∧ room cl = r
    ∧ rooms (registry_of sv') !! "lobby" = Some r.
Proof.
  destruct (upgrade_allocates_one_client (Request "GET" {[ "room" := ["lobby"] ]} true)
              1234 no_server)
    as (r & c & cl & sv' & Hserve & Hnew & Hcl & _ & _ & Hq & Hr & Hreg & _);
    [vm_compute; discriminate|reflexivity|].
  exists r, c, cl, sv'. split_and!; [exact Hserve|exact Hnew|exact Hcl|exact Hq|exact Hr|exact Hreg].
Defined.


(** * Further properties of the payload *)

Lemma read_payloads c frames : read c frames = payload_text (name c) <$> frames.
Proof.
  induction frames as [|m frames IH]; [done|].
  cbn [read]. by rewrite json_Marshal_outgoing, IH.
Qed.

Lemma every_byte_app p (a b : string) :
  every_byte p (a +:+ b) = every_byte p a && every_byte p b.
Proof.
  induction a as [|x a IH]; [done|].
  rewrite append_String. cbn [every_byte]. rewrite IH. by rewrite andb_assoc.
Qed.

Lemma escape_byte_inert b : (N_of_ascii b < 128)%N → every_byte inert (escape_byte b) = true.
Proof.
  intros Hb.
  destruct b as [[] [] [] [] [] [] [] []];
    try (vm_compute in Hb; discriminate Hb); reflexivity.
Qed.

Lemma high_inert b : (128 ≤ N_of_ascii b)%N → inert b = true.
Proof.
  intros Hb.
  destruct b as [[] [] [] [] [] [] [] []]; try reflexivity;
    vm_compute in Hb; by destruct Hb.
Qed.

Lemma line_separator_inert b0 b1 b2 d : line_separator b0 b1 b2 = Some d → inert d = true.
Proof.
  unfold line_separator.
  repeat match goal with
         | |- context [if ?c then _ else _] => destruct c
         end; by intros [= <-].
Qed.

Lemma appendString_from_inert (n : nat) :
  ∀ s copy, (String.length s ≤ n)%nat → high_prefix copy s →
    every_byte inert (appendString_from copy s) = true.
Proof.
  induction n as [|n IH]; intros [|b t] copy Hlen Hhigh;
    [by destruct copy|simpl in Hlen; lia|by destruct copy|].
  simpl in Hlen. destruct copy as [|k].
  - cbn [appendString_from]. destruct (N_of_ascii b <? 128)%N eqn:Hb.
    + apply N.ltb_lt in Hb. rewrite every_byte_app, escape_byte_inert by done.
      apply IH; [lia|done].
    + apply N.ltb_ge in Hb. destruct (rune_tail b t) as [k|] eqn:Htail.
      * assert (every_byte inert (String b (appendString_from k t)) = true) as Hcopy.
        { cbn [every_byte]. rewrite high_inert by done.
          apply IH; [lia|]. by apply (rune_tail_high b). }
        destruct t as [|b1 [|b2 t3]]; [exact Hcopy..|].
        destruct (line_separator b b1 b2) as [d|] eqn:Hsep; [|exact Hcopy].
        cbn [every_byte]. rewrite every_byte_app. cbn [every_byte].
        rewrite (line_separator_inert _ _ _ _ Hsep).
        simpl in Hlen. rewrite IH; [done|lia|done].
      * rewrite every_byte_app. rewrite IH; [done|lia|done].
  - destruct Hhigh as [Hb Hk]. cbn [appendString_from every_byte].
    rewrite high_inert by done. apply IH; [lia|done].
Qed.

Lemma appendString_inert s : every_byte inert (appendString s) = true.
Proof.
  unfold appendString. cbn [every_byte]. rewrite every_byte_app.
  by rewrite (appendString_from_inert (String.length s)).
Qed.

(** X7: whatever bytes the inbound frames and the client's name hold, no
    payload that [read] submits contains a control byte (so no line break)
    or one of [<], [>], [&]: the encoder writes each of them as an escape. *)
Theorem payloads_are_inert c frames :
  forallb (every_byte inert) (read c frames) = true.
Proof.
  rewrite read_payloads. induction frames as [|m frames IH]; [done|].
  cbn [fmap list_fmap forallb]. fold (payload_text (name c) <$> frames).
  rewrite IH, andb_true_r. unfold payload_text.
  rewrite !every_byte_app, !appendString_inert. reflexivity.
Qed.

(** The thousand names [fmt.Sprintf("user%d", rand.Intn(1000))] can give:
    ASCII, at most seven bytes, and quoted by the encoder without any
    escape. *)
Lemma user_names_plain :
  forallb (λ k : nat, is_ascii ("user" +:+ pretty k)
                      && bool_decide (appendString_from 0 ("user" +:+ pretty k)
                                      = "user" +:+ pretty k)
                      && (String.length ("user" +:+ pretty k) <=? 7)%nat)
          (seq 0 1000) = true.
Proof. vm_compute. reflexivity. Qed.

Lemma user_name_plain (rnd : nat) :
  is_ascii ("user" +:+ pretty (rnd mod 1000)%nat) = true
  ∧ appendString_from 0 ("user" +:+ pretty (rnd mod 1000)%nat)
    = "user" +:+ pretty (rnd mod 1000)%nat
  ∧ (String.length ("user" +:+ pretty (rnd mod 1000)%nat) ≤ 7)%nat.
Proof.
  pose proof user_names_plain as Hall. rewrite forallb_forall in Hall.
  specialize (Hall (rnd mod 1000)%nat).
  destruct (andb_prop _ _ (Hall ltac:(apply in_seq; pose proof (Nat.mod_upper_bound rnd 1000); lia)))
    as [[Hascii Hquote]%andb_prop Hlen].
  split; [exact Hascii|]. split; [by apply bool_decide_eq_true_1 in Hquote|].
  by apply Nat.leb_le in Hlen.
Qed.

(** X8: the client an upgrade creates is named ["user"] followed by the
    decimal digits of the number drawn below 1000; the name is ASCII, has
    at most seven bytes and appears in the payload between quotes with no
    escape.  A strict reader of JSON gets from every payload of this client
    exactly this name, next to the text of the frame with every byte that
    belongs to no well-formed UTF-8 character replaced by U+FFFD; when the
    frame is well-formed UTF-8 it gets the frame itself, byte for byte.
    The same holds for the encoder that writes U+FFFD itself. *)
Theorem served_name_reads_back req rnd sv r c sv' :
  ServeHTTP req rnd sv = (Serving r c, sv') →
  ∃ cl, client_heap sv' !! c = Some cl
    ∧ name cl = "user" +:+ pretty (rnd mod 1000)%nat
    ∧ is_ascii (name cl) = true
    ∧ (String.length (name cl) ≤ 7)%nat
    ∧ appendString (name cl) = String quote_char (name cl +:+ String quote_char EmptyString)
    ∧ (∀ msg, (json_Marshal (outgoing cl msg) ≫= read_object)
              = Some [("message", to_valid msg); ("name", name cl)])
    ∧ (∀ msg, (json_Marshal_raw (outgoing cl msg) ≫= read_object)
              = Some [("message", to_valid msg); ("name", name cl)])
    ∧ (∀ msg, utf8_wellformed msg = true →
              (json_Marshal (outgoing cl msg) ≫= read_object)
              = Some [("message", msg); ("name", name cl)]
              ∧ (json_Marshal_raw (outgoing cl msg) ≫= read_object)
                = Some [("message", msg); ("name", name cl)]).
Proof.
  intros Hserve. destruct (ServeHTTP_Serving _ _ _ _ _ _ Hserve) as [Hroom Hhs].
  pose proof (ServeHTTP_upgraded _ rnd sv Hroom Hhs) as Hup.
  destruct (user_name_plain rnd) as (Hascii & Hquote & Hlen).
  remember ("user" +:+ pretty (rnd mod 1000)%nat) as nm eqn:Hnm.
  rewrite Hup in Hserve. injection Hserve as <- <- <-.
  eexists. split; [apply lookup_insert_eq|]. cbn [name].
  assert (∀ msg, (json_Marshal (outgoing (Client nm (make_chan messageBufferSize)
                     (getRoom (Query_Get (query req) "room") (registry_of sv)).1 true) msg)
                  ≫= read_object) = Some [("message", to_valid msg); ("name", nm)]) as Hback.
  { intros msg. rewrite json_Marshal_outgoing. cbn [name mbind option_bind].
    rewrite read_object_payload. by rewrite (to_valid_ascii _ Hascii). }
  assert (∀ msg, (json_Marshal_raw (outgoing (Client nm (make_chan messageBufferSize)
                     (getRoom (Query_Get (query req) "room") (registry_of sv)).1 true) msg)
                  ≫= read_object) = Some [("message", to_valid msg); ("name", nm)]) as Hraw.
  { intros msg. rewrite json_Marshal_raw_outgoing. cbn [name mbind option_bind].
    rewrite read_object_payload_raw. by rewrite (to_valid_ascii _ Hascii). }
  split_and!; [done|exact Hascii|exact Hlen| |exact Hback|exact Hraw|].
  - unfold appendString. by rewrite Hquote.
  - intros msg Hwf. rewrite Hback, Hraw. by rewrite (to_valid_wellformed msg Hwf).
Qed.

Lemma served_name_reads_back_witness :
  ∃ cl, client_heap (ServeHTTP (Request "GET" {[ "room" := ["lobby"] ]} true) 1234 no_server).2
          !! 1%positive = Some cl
    ∧ name cl = "user234"
    ∧ utf8_wellformed cafe = true
    ∧ (json_Marshal (outgoing cl cafe) ≫= read_object)
      = Some [("message", cafe); ("name", "user234")]
    ∧ (json_Marshal (outgoing cl torn) ≫= read_object)
      = Some [("message", String "a" (replacement_raw +:+ "b")); ("name", "user234")].
Proof.
  destruct (served_name_reads_back (Request "GET" {[ "room" := ["lobby"] ]} true) 1234
              no_server 1%positive 1%positive
              (ServeHTTP (Request "GET" {[ "room" := ["lobby"] ]} true) 1234 no_server).2)
    as (cl & Hcl & Hname & _ & _ & _ & Hback & _ & Hexact); [vm_compute; reflexivity|].
  exists cl. split; [exact Hcl|]. split; [rewrite Hname; vm_compute; reflexivity|].
  split; [vm_compute; reflexivity|]. split.
  - destruct (Hexact cafe) as [-> _]; [vm_compute; reflexivity|].
    rewrite Hname. vm_compute. reflexivity.
  - rewrite (Hback torn), Hname. vm_compute. reflexivity.
Defined.

(** X9: a payload names its sender: if the payloads of two frames, sent by
    clients that upgrades created with the draws [rnd1] and [rnd2], are the
    same text, then the two draws agree below 1000 (the clients carry the
    same name) and a reader gets the same message text from both. *)
Theorem payload_names_sender rnd1 rnd2 msg1 msg2 :
  payload_text ("user" +:+ pretty (rnd1 mod 1000)%nat) msg1
  = payload_text ("user" +:+ pretty (rnd2 mod 1000)%nat) msg2 →
  (rnd1 mod 1000 = rnd2 mod 1000)%nat ∧ to_valid msg1 = to_valid msg2.
Proof.
  intros Heq. apply (f_equal read_object) in Heq.
  rewrite !read_object_payload in Heq.
  destruct (user_name_plain rnd1) as (Ha1 & _). destruct (user_name_plain rnd2) as (Ha2 & _).
  rewrite (to_valid_ascii _ Ha1), (to_valid_ascii _ Ha2) in Heq.
  injection Heq as Hmsg Hname. split; [|exact Hmsg].
  apply (inj pretty). exact Hname.
Qed.

Lemma payload_names_sender_witness :
  (2007 mod 1000 = 7 mod 1000)%nat
  ∧ to_valid (String (ascii_of_nat 255) "!") = to_valid (String (ascii_of_nat 254) "!").
Proof.
  apply (payload_names_sender 2007 7 (String (ascii_of_nat 255) "!")
           (String (ascii_of_nat 254) "!")).
  vm_compute. reflexivity.
Defined.



(** * Properties of the server as a whole *)

Section whole_server.

Implicit Types (s : system) (c x : cptr) (r : rptr) (R : room_t) (cl : client).
Implicit Types (ph : handler_pc) (e : event).

Lemma phase_ok_members ph cl cl' R R' c :
  (c ∈ dom (clients R') ↔ c ∈ dom (clients R)) →
  closed (receive cl') = closed (receive cl) →
  phase_ok ph cl R c → phase_ok ph cl' R' c.
Proof. intros Hm Hc. destruct ph; simpl; rewrite Hm, Hc; done. Qed.

(** The invariant after a change of one room object, one client object and
    the position of this client's connection. *)
Lemma sys_inv_update rs rh run h hs r R R' c cl cl' ph ph' rh' h' hs' :
  sys_inv (System (Server (Registry rs rh run) h) hs) →
  rh !! r = Some R →
  (∀ x, x ∈ pending_pc (at_pc R') → x ∈ dom (clients R')) →
  (∀ x, x ≠ c → x ∈ dom (clients R') ↔ x ∈ dom (clients R)) →
  hs !! c = Some ph → h !! c = Some cl → room cl' = room cl →
  (∀ Rc, <[r := R']> rh !! room cl = Some Rc → phase_ok ph' cl' Rc c) →
  (c ∈ dom (clients R') → room cl = r) →
  rh' = <[r := R']> rh → h' = <[c := cl']> h → hs' = <[c := ph']> hs →
  sys_inv (System (Server (Registry rs rh' run) h') hs').
Proof.
  intros (Hnames & Hrun & Hconn & Hmem & Hpend) HR Hpend' Hsame Hph Hcl Hroom Hphase Hin -> -> ->.
  simpl in Hnames, Hrun, Hconn, Hmem, Hpend.
  assert (∀ r0, is_Some (<[r := R']> rh !! r0) ↔ is_Some (rh !! r0)) as Halloc.
  { intros r0. destruct (decide (r = r0)) as [<-|Hne].
    - rewrite lookup_insert_eq, HR. split; eauto.
    - by rewrite lookup_insert_ne. }
  unfold sys_inv. simpl. split_and!.
  - intros n r0 Hn. apply Halloc. by apply (Hnames n).
  - intros r0. rewrite Halloc. apply Hrun.
  - intros c0 ph0 Hc0. destruct (decide (c = c0)) as [<-|Hne].
    + rewrite lookup_insert_eq in Hc0. injection Hc0 as <-.
      destruct (Hconn c ph Hph) as (cl0 & R0 & Hcl0 & HR0 & _).
      rewrite Hcl in Hcl0. injection Hcl0 as <-.
      assert (is_Some (<[r := R']> rh !! room cl)) as [Rc HRc] by (apply Halloc; eauto).
      exists cl', Rc. rewrite lookup_insert_eq, Hroom. split_and!; [done..|by apply Hphase].
    + rewrite lookup_insert_ne in Hc0 by done.
      destruct (Hconn c0 ph0 Hc0) as (cl0 & R0 & Hcl0 & HR0 & Hok).
      rewrite lookup_insert_ne by done.
      destruct (decide (r = room cl0)) as [Hr|Hr].
      * exists cl0, R'. subst r. rewrite lookup_insert_eq. split_and!; [done..|].
        rewrite HR in HR0. injection HR0 as <-.
        apply (phase_ok_members ph0 cl0 cl0 R R'); [|done..]. apply Hsame. congruence.
      * exists cl0, R0. by rewrite lookup_insert_ne.
  - intros r0 R0 x HR0 Hx. destruct (decide (r = r0)) as [<-|Hne].
    + rewrite lookup_insert_eq in HR0. injection HR0 as <-.
      destruct (decide (c = x)) as [<-|Hcx].
      * exists cl'. rewrite !lookup_insert_eq. split_and!; [done| |eauto].
        rewrite Hroom. by apply Hin.
      * rewrite !lookup_insert_ne by done. apply (Hmem r R x HR). by apply Hsame.
    + rewrite lookup_insert_ne in HR0 by done.
      destruct (Hmem r0 R0 x HR0 Hx) as (cl0 & Hcl0 & Hr0 & Hh0).
      destruct (decide (c = x)) as [<-|Hcx].
      * exists cl'. rewrite !lookup_insert_eq.
        rewrite Hcl in Hcl0. injection Hcl0 as <-. split_and!; [done|congruence|eauto].
      * exists cl0. by rewrite !lookup_insert_ne.
  - intros r0 R0 x HR0 Hx. destruct (decide (r = r0)) as [<-|Hne].
    + rewrite lookup_insert_eq in HR0. injection HR0 as <-. by apply Hpend'.
    + rewrite lookup_insert_ne in HR0 by done. by apply (Hpend r0 R0).
Qed.

(** [getRoom] keeps the invariant and returns an allocated room. *)
Lemma getRoom_inv nm g h hs :
  sys_inv (System (Server g h) hs) →
  sys_inv (System (Server (getRoom nm g).2 h) hs)
  ∧ is_Some (room_heap (getRoom nm g).2 !! (getRoom nm g).1).
Proof.
  intros Hinv. pose proof Hinv as (Hnames & Hrun & Hconn & Hmem & Hpend).
  destruct g as [rs rh run]. simpl in Hnames, Hrun, Hconn, Hmem, Hpend.
  unfold getRoom. simpl. destruct (rs !! nm) as [r|] eqn:Hnm; simpl.
  { split; [done|]. by apply (Hnames nm). }
  set (r := fresh (dom rh)).
  assert (rh !! r = None) as Hfresh by (apply not_elem_of_dom, is_fresh).
  split; [|by rewrite lookup_insert_eq].
  unfold sys_inv. simpl. split_and!.
  - intros n r0. destruct (decide (nm = n)) as [<-|Hne].
    + rewrite lookup_insert_eq. intros [= <-]. by rewrite lookup_insert_eq.
    + rewrite lookup_insert_ne by done. intros Hn.
      destruct (decide (r = r0)) as [<-|Hr]; [by rewrite lookup_insert_eq|].
      rewrite lookup_insert_ne by done. by apply (Hnames n).
  - intros r0. rewrite elem_of_cons. destruct (decide (r = r0)) as [<-|Hr].
    + rewrite lookup_insert_eq. split; eauto.
    + rewrite lookup_insert_ne by done. rewrite <- Hrun. split; [|by right].
      intros [->|Hin]; done.
  - intros c ph Hc. destruct (Hconn c ph Hc) as (cl & R & Hcl & HR & Hok).
    exists cl, R. split_and!; [done| |done].
    rewrite lookup_insert_ne; [done|]. intros Heq. rewrite <- Heq in HR. congruence.
  - intros r0 R c. destruct (decide (r = r0)) as [<-|Hr].
    + rewrite lookup_insert_eq. intros [= <-]. simpl. by rewrite dom_empty_L.
    + rewrite lookup_insert_ne by done. apply Hmem.
  - intros r0 R c. destruct (decide (r = r0)) as [<-|Hr].
    + rewrite lookup_insert_eq. intros [= <-]. simpl. by intros ?%elem_of_nil.
    + rewrite lookup_insert_ne by done. apply Hpend.
Qed.

(** A new client object for an allocated room keeps the invariant. *)
Lemma alloc_client_inv g h hs r nm n :
  sys_inv (System (Server g h) hs) →
  is_Some (room_heap g !! r) →
  sys_inv (System (Server g (<[fresh (dom h) := Client nm (make_chan n) r true]> h))
                  (<[fresh (dom h) := AtJoin]> hs)).
Proof.
  intros (Hnames & Hrun & Hconn & Hmem & Hpend) [R HR].
  simpl in Hnames, Hrun, Hconn, Hmem, Hpend.
  set (c := fresh (dom h)).
  assert (h !! c = None) as Hfresh by (apply not_elem_of_dom, is_fresh).
  unfold sys_inv. simpl. split_and!; [done..| | |done].
  - intros c0 ph. destruct (decide (c = c0)) as [<-|Hne].
    + rewrite lookup_insert_eq. intros [= <-].
      eexists _, R. rewrite lookup_insert_eq. split_and!; [done..|]. simpl.
      split; [done|]. intros Hin. destruct (Hmem r R c HR Hin) as (cl & Hcl & _). congruence.
    + rewrite !lookup_insert_ne by done. apply Hconn.
  - intros r0 R0 c0 HR0 Hc0. destruct (Hmem r0 R0 c0 HR0 Hc0) as (cl & Hcl & Hroom & Hh).
    destruct (decide (c = c0)) as [<-|Hne]; [congruence|].
    exists cl. by rewrite !lookup_insert_ne.
Qed.

Lemma ServeHTTP_inv req rnd sv hs :
  sys_inv (System sv hs) →
  match ServeHTTP req rnd sv with
  | (Serving _ c, sv') => sys_inv (System sv' (<[c := AtJoin]> hs))
  | (_, sv') => sys_inv (System sv' hs)
  end.
Proof.
  intros Hinv. destruct sv as [g h]. unfold ServeHTTP. simpl.
  destruct (decide (Query_Get (query req) "room" = EmptyString)); [done|].
  destruct (getRoom_inv (Query_Get (query req) "room") g h hs Hinv) as [Hinv' Halloc].
  destruct (getRoom (Query_Get (query req) "room") g) as [r g']. simpl in Hinv', Halloc.
  destruct (handshake req); [|done]. by apply alloc_client_inv.
Qed.

Lemma pending_pc_range msg todo : pending_pc (range_pc msg todo) = todo.
Proof. by destruct todo. Qed.

Local Ltac stuck := split; [intros ?; discriminate|intros ?; discriminate].

(** A client object replaced by one with the same room and the same
    open or closed queue. *)
Lemma sys_inv_client rs rh run h hs c ph cl cl' :
  sys_inv (System (Server (Registry rs rh run) h) hs) →
  hs !! c = Some ph → h !! c = Some cl →
  room cl' = room cl → closed (receive cl') = closed (receive cl) →
  sys_inv (System (Server (Registry rs rh run) (<[c := cl']> h)) hs).
Proof.
  intros Hinv Hph Hcl Hroom Hclosed.
  pose proof Hinv as (_ & _ & Hconn & _ & Hpend). simpl in Hconn, Hpend.
  destruct (Hconn c ph Hph) as (cl0 & R & Hcl0 & HR & Hok).
  rewrite Hcl in Hcl0. injection Hcl0 as <-.
  apply (sys_inv_update rs rh run h hs (room cl) R R c cl cl' ph ph _ _ _ Hinv HR);
    [|done..| | | | |].
  - intros x. apply (Hpend (room cl) R x HR).
  - intros Rc. rewrite lookup_insert_eq. intros [= <-].
    by apply (phase_ok_members ph cl cl' R R c).
  - intros Hin. done.
  - symmetry. by apply insert_id.
  - done.
  - symmetry. by apply insert_id.
Qed.

Lemma writer_step_ok rs rh run h hs c ph a :
  sys_inv (System (Server (Registry rs rh run) h) hs) →
  hs !! c = Some ph →
  (∃ ok, a = ADrain c ok) ∨ a = AWriterEnd c →
  (∀ f, with_server hs (writer_step a (Server (Registry rs rh run) h)) ≠ Panic f)
  ∧ (∀ s', with_server hs (writer_step a (Server (Registry rs rh run) h)) = Ok s' →
           sys_inv s').
Proof.
  intros Hinv Hph Ha.
  pose proof Hinv as (_ & _ & Hconn & _). simpl in Hconn.
  destruct (Hconn c ph Hph) as (cl & R & Hcl & HR & Hok).
  unfold writer_step. destruct Ha as [[ok ->]| ->]; cbn [step heap rm client_heap registry_of];
    rewrite Hcl; (destruct (writing cl); [|stuck]); unfold chan_recv;
    destruct (buf (receive cl)) as [|v b] eqn:Hbuf; cbn [with_server];
    try (destruct (closed (receive cl)); stuck); try stuck.
  - split; [done|]. intros s' [= <-]. cbn [heap].
    apply (sys_inv_client rs rh run h hs c ph cl); [done..| |]; by destruct ok.
  - destruct (closed (receive cl)) eqn:Hclosed; [|stuck]. cbn [with_server heap].
    split; [done|]. intros s' [= <-].
    by apply (sys_inv_client rs rh run h hs c ph cl).
Qed.

Lemma sys_step_ok e s :
  sys_inv s → (∀ f, sys_step e s ≠ Panic f) ∧ (∀ s', sys_step e s = Ok s' → sys_inv s').
Proof.
  intros Hinv. destruct s as [[[rs rh run] h] hs].
  pose proof Hinv as (Hnames & Hrun & Hconn & Hmem & Hpend).
  simpl in Hnames, Hrun, Hconn, Hmem, Hpend.
  destruct e as [req rnd|c|c msg order|c|c|r|c ok|c]; cbn [sys_step srv handlers].
  - rewrite room_route_eq. pose proof (ServeHTTP_inv req rnd _ hs Hinv) as Hnew.
    destruct (ServeHTTP req rnd _) as [[] sv']; (split; [done|]); intros s' [= <-]; exact Hnew.
  - destruct (hs !! c) as [[]|] eqn:Hph; try stuck.
    cbn [client_heap]. destruct (h !! c) as [cl|] eqn:Hcl; [|stuck].
    destruct (Hconn c AtJoin Hph) as (cl0 & R & Hcl0 & HR & Hopen & Hout).
    rewrite Hcl in Hcl0. injection Hcl0 as <-.
    unfold loop_step. cbn [registry_of room_heap running client_heap rooms]. rewrite HR.
    destruct (bool_decide (room cl ∈ run)); [|stuck].
    destruct R as [cls [|m cur rest]]; cbn [step rm at_pc heap clients with_server]; [|stuck].
    split; [done|]. intros s' [= <-].
    apply (sys_inv_update rs rh run h hs (room cl) _ (Room (<[c := true]> cls) Select)
             c cl cl AtJoin AtRead _ _ _ Hinv HR); simpl; [| |done..| |done|done| |done].
    + intros x Hx. by apply elem_of_nil in Hx.
    + intros x Hx. rewrite dom_insert_L, elem_of_union, elem_of_singleton.
      split; [by intros [->|?]|by right].
    + intros Rc. rewrite lookup_insert_eq. intros [= <-]. simpl. split; [done|].
      rewrite dom_insert_L, elem_of_union, elem_of_singleton. by left.
    + symmetry. by apply insert_id.
  - destruct (hs !! c) as [[]|] eqn:Hph; try stuck.
    cbn [client_heap]. destruct (h !! c) as [cl|] eqn:Hcl; [|stuck].
    destruct (Hconn c AtRead Hph) as (cl0 & R & Hcl0 & HR & Hopen & Hin).
    rewrite Hcl in Hcl0. injection Hcl0 as <-.
    unfold json_Marshal, loop_step.
    cbn [registry_of room_heap running client_heap rooms]. rewrite HR.
    destruct (bool_decide (room cl ∈ run)); [|stuck].
    destruct R as [cls [|m cur rest]]; cbn [step rm at_pc heap clients with_server]; [|stuck].
    case_bool_decide as Hord; [|stuck]. destruct Hord as [Hnd Hdom].
    cbn [with_server rm heap].
    split; [done|]. intros s' [= <-].
    match goal with
    | |- context [range_pc ?js order] =>
        apply (sys_inv_update rs rh run h hs (room cl) _ (Room cls (range_pc js order))
                 c cl cl AtRead AtRead _ _ _ Hinv HR)
    end; simpl; [|done..| |done|done| | ].
    + intros x. rewrite pending_pc_range, <- Hdom. by rewrite elem_of_list_to_set.
    + intros Rc. rewrite lookup_insert_eq. by intros [= <-].
    + symmetry. by apply insert_id.
    + symmetry. by apply insert_id.
  - destruct (hs !! c) as [[]|] eqn:Hph; try stuck.
    split; [done|]. intros s' [= <-].
    destruct (Hconn c AtRead Hph) as (cl & R & Hcl & HR & Hopen & Hin).
    apply (sys_inv_update rs rh run h hs (room cl) R R
             c cl cl AtRead AtLeave _ _ _ Hinv HR); simpl; try done.
    + intros x. apply (Hpend (room cl) R x HR).
    + intros Rc. rewrite lookup_insert_eq. by intros [= <-].
    + symmetry. by apply insert_id.
    + symmetry. by apply insert_id.
  - destruct (hs !! c) as [[]|] eqn:Hph; try stuck.
    cbn [client_heap]. destruct (h !! c) as [cl|] eqn:Hcl; [|stuck].
    destruct (Hconn c AtLeave Hph) as (cl0 & R & Hcl0 & HR & Hopen & Hin).
    rewrite Hcl in Hcl0. injection Hcl0 as <-.
    unfold loop_step. cbn [registry_of room_heap running client_heap rooms]. rewrite HR.
    destruct (bool_decide (room cl ∈ run)); [|stuck].
    destruct R as [cls [|m cur rest]]; cbn [step rm at_pc heap clients with_server]; [|stuck].
    rewrite Hcl. unfold chan_close. rewrite Hopen. cbn [with_server rm heap].
    split; [done|]. intros s' [= <-].
    apply (sys_inv_update rs rh run h hs (room cl) _ (Room (delete c cls) Select)
             c cl (set_receive cl (Chan (cap (receive cl)) (buf (receive cl)) true))
             AtLeave Finished _ _ _ Hinv HR); simpl; [| |done..| | |done|done|done].
    + intros x Hx. by apply elem_of_nil in Hx.
    + intros x Hx. rewrite dom_delete_L, elem_of_difference, elem_of_singleton.
      split; [by intros [? _]|done].
    + intros Rc. rewrite lookup_insert_eq. intros [= <-]. simpl. split; [done|].
      rewrite dom_delete_L, elem_of_difference, elem_of_singleton. by intros [_ []].
    + rewrite dom_delete_L, elem_of_difference, elem_of_singleton. by intros [_ []].
  - cbn [registry_of running]. case_bool_decide as Hr; [|stuck].
    destruct (proj1 (Hrun r) Hr) as [R HR].
    unfold loop_step. cbn [registry_of room_heap running client_heap rooms]. rewrite HR.
    rewrite bool_decide_eq_true_2 by done.
    destruct R as [cls [|m cur rest]]; cbn [step rm at_pc heap clients with_server]; [stuck|].
    assert (cur ∈ dom cls) as Hcur by (apply (Hpend r _ cur HR); simpl; by left).
    destruct (Hmem r _ cur HR Hcur) as (cl & Hcl & Hroom & [ph Hph]).
    destruct (Hconn cur ph Hph) as (cl0 & R0 & Hcl0 & HR0 & Hok).
    rewrite Hcl in Hcl0. injection Hcl0 as <-. rewrite Hroom, HR in HR0. injection HR0 as <-.
    assert (closed (receive cl) = false) as Hopen
      by (destruct ph; simpl in Hok; by destruct Hok).
    rewrite Hcl. unfold chan_send. rewrite Hopen.
    destruct (length (buf (receive cl)) <? cap (receive cl))%nat;
      cbn [with_server rm heap]; [|stuck].
    split; [done|]. intros s' [= <-].
    apply (sys_inv_update rs rh run h hs r _ (Room cls (range_pc m rest)) cur cl
             (set_receive cl (Chan (cap (receive cl)) (buf (receive cl) ++ [m])%list false))
             ph ph _ _ _ Hinv HR); simpl; try done.
    + intros x. rewrite pending_pc_range. intros Hx. apply (Hpend r _ x HR). simpl. by right.
    + intros Rc. rewrite Hroom, lookup_insert_eq. intros [= <-].
      by apply (phase_ok_members ph cl _ (Room cls (Sending m cur rest)) _ cur).
    + symmetry. by apply insert_id.
  - destruct (hs !! c) as [ph|] eqn:Hph; [|stuck].
    destruct ph; [stuck|..]; eapply writer_step_ok; eauto.
  - destruct (hs !! c) as [ph|] eqn:Hph; [|stuck].
    destruct ph; [stuck|..]; eapply writer_step_ok; eauto.
Qed.

Lemma boot_inv : sys_inv boot.
Proof.
  unfold sys_inv, boot, no_server, empty_registry. simpl. split_and!.
  - intros n r. by rewrite lookup_empty.
  - intros r. rewrite lookup_empty, elem_of_nil. split; [done|]. by intros [? ?].
  - intros c ph. by rewrite lookup_empty.
  - intros r R c. by rewrite lookup_empty.
  - intros r R c. by rewrite lookup_empty.
Qed.

Lemma sys_exec_ok evs :
  ∀ s, sys_inv s →
       (∀ f, sys_exec evs s ≠ Panic f) ∧ (∀ s', sys_exec evs s = Ok s' → sys_inv s').
Proof.
  induction evs as [|e evs IH]; intros s Hinv; simpl.
  { split; [done|]. by intros s' [= <-]. }
  destruct (sys_step_ok e s Hinv) as [Hsafe Hnext].
  destruct (sys_step e s) as [s1| |f]; [|done|by destruct (Hsafe f)].
  apply IH. by apply Hnext.
Qed.

End whole_server.

(** X10: whatever requests arrive and however the goroutines of the
    connections, the room loops and the writers are interleaved from
    program start, the server never panics: no channel is closed twice, no
    loop sends on a closed queue, no nil room or client is used.  Every
    state it reaches satisfies [sys_inv]: a client is a member of no room
    but the one it was created for, exactly between its join and its leave,
    and its queue stays open until the leave. *)
Theorem server_never_panics evs :
  (∀ f, sys_exec evs boot ≠ Panic f)
  ∧ (∀ s, sys_exec evs boot = Ok s → sys_inv s).
Proof. apply sys_exec_ok, boot_inv. Qed.

Lemma server_never_panics_witness :
  ∃ s, sys_exec visit boot = Ok s ∧ sys_inv s
       ∧ handlers s !! 1%positive = Some Finished.
Proof.
  eexists. split; [vm_compute; reflexivity|].
  split; [|vm_compute; reflexivity].
  apply (server_never_panics visit). vm_compute. reflexivity.
Defined.



Section provenance.

Local Open Scope list_scope.

Implicit Types (s : system) (c d x : cptr) (r : rptr) (R : room_t) (cl : client).
Implicit Types (e : event) (evs : list event).

Local Ltac stuck := discriminate.

Lemma sent_in_mono (h h' : gmap cptr client) r evs evs' v :
  (∀ c cl, h !! c = Some cl →
     ∃ cl', h' !! c = Some cl' ∧ name cl' = name cl ∧ room cl' = room cl) →
  (∀ e, e ∈ evs → e ∈ evs') →
  sent_in h r evs v → sent_in h' r evs' v.
Proof.
  intros Hh Hevs (c & cl & msg & order & Hin & Hcl & Hroom & ->).
  destruct (Hh c cl Hcl) as (cl' & Hcl' & Hname & Hroom').
  exists c, cl', msg, order. rewrite Hname. split_and!; [by apply Hevs|done|congruence|done].
Qed.

Lemma getRoom_room nm g r R :
  room_heap (getRoom nm g).2 !! r = Some R → room_heap g !! r = Some R ∨ R = newRoom.
Proof.
  unfold getRoom. destruct (rooms g !! nm); simpl; [by left|].
  destruct (decide (fresh (dom (room_heap g)) = r)) as [<-|Hne].
  - rewrite lookup_insert_eq. intros [= <-]. by right.
  - rewrite lookup_insert_ne by done. by left.
Qed.

(** New objects only: the old client objects are as they were, a new one
    has an empty queue, and a new room is at its [select]. *)
Lemma traced_grow evs evs' g g' (h h' : gmap cptr client) hs hs' :
  queues_traced evs (System (Server g h) hs) →
  (∀ c cl, h !! c = Some cl → h' !! c = Some cl) →
  (∀ d cl, h' !! d = Some cl → h !! d = Some cl ∨ buf (receive cl) = []) →
  (∀ r R, room_heap g' !! r = Some R → room_heap g !! r = Some R ∨ at_pc R = Select) →
  (∀ e, e ∈ evs → e ∈ evs') →
  queues_traced evs' (System (Server g' h') hs').
Proof.
  intros [Hq Hpc] Hkeep Hnew Hrooms Hevs. simpl in Hq, Hpc.
  assert (∀ r v, sent_in h r evs v → sent_in h' r evs' v) as Hmono.
  { intros r v. apply sent_in_mono; [|done]. intros c cl Hcl. exists cl. eauto. }
  split; simpl.
  - intros d cl v Hd Hv. destruct (Hnew d cl Hd) as [Hold|Hempty].
    + apply Hmono. by apply (Hq d cl).
    + rewrite Hempty in Hv. by apply elem_of_nil in Hv.
  - intros r R msg cur rest HR Hsending. destruct (Hrooms r R HR) as [Hold|Hselect].
    + apply Hmono. by apply (Hpc r R msg cur rest).
    + congruence.
Qed.

Lemma connect_traced evs req rnd s s' :
  queues_traced evs s → sys_step (EConnect req rnd) s = Ok s' →
  queues_traced (evs ++ [EConnect req rnd]) s'.
Proof.
  intros Htraced. destruct s as [[g h] hs]. cbn [sys_step srv handlers].
  rewrite room_route_eq. unfold ServeHTTP. cbn [registry_of client_heap query].
  assert (∀ e, e ∈ evs → e ∈ evs ++ [EConnect req rnd]) as Hevs
    by (intros e He; apply elem_of_app; by left).
  destruct (decide (Query_Get (query req) "room" = EmptyString)).
  { intros [= <-]. apply (traced_grow evs _ g g h h hs hs); eauto. }
  pose proof (getRoom_room (Query_Get (query req) "room") g) as Hrooms.
  destruct (getRoom (Query_Get (query req) "room") g) as [r g']. simpl in Hrooms.
  assert (∀ r0 R0, room_heap g' !! r0 = Some R0 →
                   room_heap g !! r0 = Some R0 ∨ at_pc R0 = Select) as Hrooms'.
  { intros r0 R0 HR0. destruct (Hrooms r0 R0 HR0) as [?| ->]; [by left|by right]. }
  destruct (handshake req); intros [= <-].
  - assert (h !! fresh (dom h) = None) as Hfresh by (apply not_elem_of_dom, is_fresh).
    apply (traced_grow evs _ g g' h _ hs); [done| | |done..].
    + intros c cl Hcl. rewrite lookup_insert_ne; [done|]. intros Heq. congruence.
    + intros d cl. destruct (decide (fresh (dom h) = d)) as [<-|Hne].
      * rewrite lookup_insert_eq. intros [= <-]. by right.
      * rewrite lookup_insert_ne by done. by left.
  - apply (traced_grow evs _ g g' h h hs); eauto.
Qed.

(** What an event other than a request does: it replaces one room object
    and one client object; the client keeps its name and room, its queue
    gains nothing but the payload the loop of its room is sending, and a
    loop starts sending nothing but the payload of the frame just read. *)
Lemma sys_step_shape e s s' :
  sys_inv s → sys_step e s = Ok s' →
  (∃ req rnd, e = EConnect req rnd)
  ∨ ∃ r R R' c cl cl',
      room_heap (registry_of (srv s)) !! r = Some R
      ∧ client_heap (srv s) !! c = Some cl
      ∧ room_heap (registry_of (srv s')) = <[r := R']> (room_heap (registry_of (srv s)))
      ∧ client_heap (srv s') = <[c := cl']> (client_heap (srv s))
      ∧ name cl' = name cl ∧ room cl' = room cl
      ∧ (∀ v, v ∈ buf (receive cl') →
           v ∈ buf (receive cl) ∨ (room cl = r ∧ ∃ cur rest, at_pc R = Sending v cur rest))
      ∧ (∀ msg cur rest, at_pc R' = Sending msg cur rest →
           (∃ cur' rest', at_pc R = Sending msg cur' rest')
           ∨ (∃ c0 cl0 m order,
                 e = EFrame c0 m order ∧ client_heap (srv s) !! c0 = Some cl0
                 ∧ room cl0 = r ∧ msg = payload_text (name cl0) m)).
Proof.
  intros Hinv. destruct s as [[[rs rh run] h] hs].
  pose proof Hinv as (Hnames & Hrun & Hconn & Hmem & Hpend).
  simpl in Hnames, Hrun, Hconn, Hmem, Hpend.
  destruct e as [req rnd|c|c msg order|c|c|r|c ok|c]; cbn [sys_step srv handlers].
  - intros _. left. eauto.
  - destruct (hs !! c) as [[]|] eqn:Hph; try stuck.
    cbn [client_heap]. destruct (h !! c) as [cl|] eqn:Hcl; [|stuck].
    destruct (Hconn c AtJoin Hph) as (cl0 & R & Hcl0 & HR & Hopen & Hout).
    rewrite Hcl in Hcl0. injection Hcl0 as <-.
    unfold loop_step. cbn [registry_of room_heap running client_heap rooms]. rewrite HR.
    destruct (bool_decide (room cl ∈ run)); [|stuck].
    destruct R as [cls [|m cur rest]]; cbn [step rm at_pc heap clients with_server]; [|stuck].
    intros [= <-]. right.
    exists (room cl), (Room cls Select), (Room (<[c := true]> cls) Select), c, cl, cl.
    simpl. split_and!; [done..| |done|done| |done].
    + symmetry. by apply insert_id.
    + by left.
  - destruct (hs !! c) as [[]|] eqn:Hph; try stuck.
    cbn [client_heap]. destruct (h !! c) as [cl|] eqn:Hcl; [|stuck].
    destruct (Hconn c AtRead Hph) as (cl0 & R & Hcl0 & HR & Hopen & Hin).
    rewrite Hcl in Hcl0. injection Hcl0 as <-.
    rewrite json_Marshal_outgoing. unfold loop_step.
    cbn [registry_of room_heap running client_heap rooms]. rewrite HR.
    destruct (bool_decide (room cl ∈ run)); [|stuck].
    destruct R as [cls [|m cur rest]]; cbn [step rm at_pc heap clients with_server]; [|stuck].
    case_bool_decide as Hord; [|stuck]. cbn [with_server rm heap].
    intros [= <-]. right.
    exists (room cl), (Room cls Select),
      (Room cls (range_pc (payload_text (name cl) msg) order)), c, cl, cl.
    simpl. split_and!; [done..| |done|done| |].
    + symmetry. by apply insert_id.
    + by left.
    + intros m cur rest Hsending. right. exists c, cl, msg, order.
      split_and!; [done..|]. destruct order; [done|]. by injection Hsending as <- _ _.
  - destruct (hs !! c) as [[]|] eqn:Hph; try stuck.
    intros [= <-]. right.
    destruct (Hconn c AtRead Hph) as (cl & R & Hcl & HR & Hopen & Hin).
    exists (room cl), R, R, c, cl, cl.
    simpl. split_and!; [done..| | |done|done| |].
    + symmetry. by apply insert_id.
    + symmetry. by apply insert_id.
    + by left.
    + left. eauto.
  - destruct (hs !! c) as [[]|] eqn:Hph; try stuck.
    cbn [client_heap]. destruct (h !! c) as [cl|] eqn:Hcl; [|stuck].
    destruct (Hconn c AtLeave Hph) as (cl0 & R & Hcl0 & HR & Hopen & Hin).
    rewrite Hcl in Hcl0. injection Hcl0 as <-.
    unfold loop_step. cbn [registry_of room_heap running client_heap rooms]. rewrite HR.
    destruct (bool_decide (room cl ∈ run)); [|stuck].
    destruct R as [cls [|m cur rest]]; cbn [step rm at_pc heap clients with_server]; [|stuck].
    rewrite Hcl. unfold chan_close. rewrite Hopen. cbn [with_server rm heap].
    intros [= <-]. right.
    exists (room cl), (Room cls Select), (Room (delete c cls) Select), c, cl,
      (set_receive cl (Chan (cap (receive cl)) (buf (receive cl)) true)).
    simpl. split_and!; [done..| |done]. by left.
  - cbn [registry_of running]. case_bool_decide as Hr; [|stuck].
    destruct (proj1 (Hrun r) Hr) as [R HR].
    unfold loop_step. cbn [registry_of room_heap running client_heap rooms]. rewrite HR.
    rewrite bool_decide_eq_true_2 by done.
    destruct R as [cls [|m cur rest]]; cbn [step rm at_pc heap clients with_server]; [stuck|].
    assert (cur ∈ dom cls) as Hcur by (apply (Hpend r _ cur HR); simpl; by left).
    destruct (Hmem r _ cur HR Hcur) as (cl & Hcl & Hroom & [ph Hph]).
    rewrite Hcl. destruct (chan_send (receive cl) m) as [ch| |] eqn:Hsend;
      cbn [with_server rm heap]; [|stuck..].
    intros [= <-]. right.
    exists r, (Room cls (Sending m cur rest)), (Room cls (range_pc m rest)), cur, cl,
      (set_receive cl ch).
    simpl. split_and!; [done..| |].
    + intros v Hv. unfold chan_send in Hsend.
      destruct (closed (receive cl)); [done|].
      destruct (length (buf (receive cl)) <? cap (receive cl))%nat; [|done].
      injection Hsend as <-. simpl in Hv.
      apply elem_of_app in Hv as [Hv|Hv%list_elem_of_singleton]; [by left|].
      right. subst v. eauto.
    + intros msg cur' rest' Hsending. left.
      destruct rest; [done|]. injection Hsending as <- _ _. eauto.
  - destruct (hs !! c) as [ph|] eqn:Hph; [|stuck].
    destruct (Hconn c ph Hph) as (cl & R & Hcl & HR & Hok).
    intros Hstep. right.
    assert (with_server hs (writer_step (ADrain c ok) (Server (Registry rs rh run) h)) = Ok s')
      as Hw by (by destruct ph).
    clear Hstep. unfold writer_step in Hw. cbn [step heap rm client_heap registry_of] in Hw.
    rewrite Hcl in Hw. destruct (writing cl); [|stuck]. unfold chan_recv in Hw.
    destruct (buf (receive cl)) as [|v b] eqn:Hbuf;
      [destruct (closed (receive cl)); stuck|].
    cbn [with_server heap] in Hw. injection Hw as <-.
    eexists (room cl), R, R, c, cl, _.
    simpl. split_and!; [done..| |done| | | |].
    + symmetry. by apply insert_id.
    + by destruct ok.
    + by destruct ok.
    + intros v' Hv'. left. rewrite Hbuf. apply elem_of_cons. right. by destruct ok.
    + left. eauto.
  - destruct (hs !! c) as [ph|] eqn:Hph; [|stuck].
    destruct (Hconn c ph Hph) as (cl & R & Hcl & HR & Hok).
    intros Hstep. right.
    assert (with_server hs (writer_step (AWriterEnd c) (Server (Registry rs rh run) h)) = Ok s')
      as Hw by (by destruct ph).
    clear Hstep. unfold writer_step in Hw. cbn [step heap rm client_heap registry_of] in Hw.
    rewrite Hcl in Hw. destruct (writing cl); [|stuck]. unfold chan_recv in Hw.
    destruct (buf (receive cl)) as [|v b] eqn:Hbuf; [|stuck].
    destruct (closed (receive cl)); [|stuck].
    cbn [with_server heap] in Hw. injection Hw as <-.
    exists (room cl), R, R, c, cl, (stop_writing cl).
    simpl. split_and!; [done..| |done|done|done| |].
    + symmetry. by apply insert_id.
    + by left.
    + left. eauto.
Qed.

Lemma traced_step evs e s s' :
  sys_inv s → queues_traced evs s → sys_step e s = Ok s' →
  queues_traced (evs ++ [e]) s'.
Proof.
  intros Hinv Htraced Hstep.
  destruct (sys_step_shape e s s' Hinv Hstep)
    as [(req & rnd & ->)|(r & R & R' & c & cl & cl' & HR & Hcl & Hrh & Hh & Hname & Hroom
                          & Hbuf & Hnext)].
  { by apply (connect_traced evs req rnd s). }
  destruct Htraced as [Hq Hpc].
  destruct s as [[g h] hs], s' as [[g' h'] hs']. simpl in *. subst h'.
  assert (∀ c0 cl0, h !! c0 = Some cl0 →
            ∃ cl1, <[c := cl']> h !! c0 = Some cl1 ∧ name cl1 = name cl0
                   ∧ room cl1 = room cl0) as Hheap.
  { intros c0 cl0 Hc0. destruct (decide (c = c0)) as [<-|Hne].
    - exists cl'. rewrite lookup_insert_eq. rewrite Hcl in Hc0. by injection Hc0 as <-.
    - exists cl0. by rewrite lookup_insert_ne. }
  assert (∀ r0 v, sent_in h r0 evs v → sent_in (<[c := cl']> h) r0 (evs ++ [e]) v) as Hmono.
  { intros r0 v. apply sent_in_mono; [done|]. intros e0 He0. apply elem_of_app. by left. }
  split; simpl.
  - intros d cld v Hd Hv. destruct (decide (c = d)) as [<-|Hne].
    + rewrite lookup_insert_eq in Hd. injection Hd as <-. rewrite Hroom.
      destruct (Hbuf v Hv) as [Hold|(Hr & cur & rest & HRpc)].
      * apply Hmono. by apply (Hq c cl).
      * rewrite Hr. apply Hmono. by apply (Hpc r R v cur rest).
    + rewrite lookup_insert_ne in Hd by done. apply Hmono. by apply (Hq d cld).
  - intros r0 R0 msg cur rest. rewrite Hrh. destruct (decide (r = r0)) as [<-|Hne].
    + rewrite lookup_insert_eq. intros [= <-] HR'pc.
      destruct (Hnext msg cur rest HR'pc)
        as [(cur' & rest' & Hold)|(c0 & cl0 & m & order & -> & Hc0 & Hr0 & ->)].
      * apply Hmono. by apply (Hpc r R msg cur' rest').
      * apply (sent_in_mono h _ r [EFrame c0 m order]); [done| |].
        -- intros e0 He0. apply elem_of_app. by right.
        -- exists c0, cl0, m, order. split_and!; [|done..]. by apply list_elem_of_singleton.
    + rewrite lookup_insert_ne by done. intros HR0 HR0pc. apply Hmono.
      by apply (Hpc r0 R0 msg cur rest).
Qed.

Lemma sys_exec_app evs1 evs2 s :
  sys_exec (evs1 ++ evs2) s
  = match sys_exec evs1 s with
    | Ok s1 => sys_exec evs2 s1
    | Blocked => Blocked
    | Panic f => Panic f
    end.
Proof.
  revert s. induction evs1 as [|e evs1 IH]; intros s; [done|].
  simpl. destruct (sys_step e s); [apply IH|done..].
Qed.

Lemma traced_exec evs :
  ∀ s, sys_exec evs boot = Ok s → sys_inv s ∧ queues_traced evs s.
Proof.
  induction evs as [|e evs IH] using rev_ind; intros s.
  { intros [= <-]. split; [apply boot_inv|]. split; simpl.
    - intros d cl v. by rewrite lookup_empty.
    - intros r R msg cur rest. by rewrite lookup_empty. }
  rewrite sys_exec_app. destruct (sys_exec evs boot) as [s1| |f] eqn:Hrun; [|done..].
  destruct (IH s1 eq_refl) as [Hinv Htraced]. simpl.
  destruct (sys_step e s1) as [s2| |f] eqn:Hstep; [|done..]. intros [= <-].
  split; [by apply (sys_step_ok e s1 Hinv)|by apply (traced_step evs e s1)].
Qed.

End provenance.

(** X11: messages do not cross rooms and carry their sender: in every state
    the server reaches from program start, each payload waiting in the
    queue of a client is the payload of a frame that some client created
    for the same room sent earlier, made from that sender's name and that
    frame. *)
Theorem queued_payloads_come_from_room evs s d cl v :
  sys_exec evs boot = Ok s →
  client_heap (srv s) !! d = Some cl →
  v ∈ buf (receive cl) →
  ∃ c sender msg order,
    EFrame c msg order ∈ evs
    ∧ client_heap (srv s) !! c = Some sender
    ∧ room sender = room cl
    ∧ v = payload_text (name sender) msg.
Proof.
  intros Hrun Hd Hv. destruct (traced_exec evs s Hrun) as [_ [Hq _]].
  apply (Hq d cl v Hd Hv).
Qed.

Lemma queued_payloads_come_from_room_witness :
  ∃ c sender msg order,
    EFrame c msg order ∈ take 4 visit
    ∧ client_heap (srv (System (Server (Registry {[ "lobby" := 1%positive ]}
                                        {[ 1%positive := Room {[ 1%positive := true ]} Select ]}
                                        [1%positive])
                                      {[ 1%positive := Client "user234"
                                           (Chan 256 [payload_text "user234" "hi"] false)
                                           1%positive true ]})
                               {[ 1%positive := AtRead ]})) !! c = Some sender
    ∧ room sender = 1%positive
    ∧ payload_text "user234" "hi" = payload_text (name sender) msg.
Proof.
  apply (queued_payloads_come_from_room (take 4 visit) _ 1%positive
           (Client "user234" (Chan 256 [payload_text "user234" "hi"] false) 1%positive true)
           (payload_text "user234" "hi")).
  - vm_compute. reflexivity.
  - vm_compute. reflexivity.
  - simpl. apply list_elem_of_singleton. reflexivity.
Defined.

(** * Properties of the template handler *)

Section template_facts.

Context {template page : Type}.
Variable Join : string → string → string.
Variable Execute : option template → request → page.

Lemma serve_all_done (calls : list ((string → option template) * request))
    (t : templateHandler template) :
  once template t = true →
  serve_all template page Join Execute calls t
  = ((λ call, Executed page (Execute (templ template t) call.2)) <$> calls, t).
Proof.
  intros Hdone. induction calls as [|[fs req] calls IH]; [done|].
  cbn [serve_all]. unfold templateHandler_ServeHTTP. rewrite Hdone, IH. done.
Qed.

(** X12: a handler as [main] registers it parses its template during the
    first request and never again: every later request is rendered with
    what the first one left in [t.templ], whatever the files have become;
    when the first parse fails that request panics, the parse is not
    retried, and later requests run [Execute] on the nil template. *)
Theorem template_parsed_once (fs : string → option template) (req : request)
    (calls : list ((string → option template) * request)) (fname : string) :
  serve_all template page Join Execute ((fs, req) :: calls)
            (TemplateHandler template false fname None)
  = ((match fs (Join "templates" fname) with
      | Some T => Executed page (Execute (Some T) req)
      | None => MustPanic page
      end)
     :: ((λ call, Executed page (Execute (fs (Join "templates" fname)) call.2)) <$> calls),
     TemplateHandler template true fname (fs (Join "templates" fname))).
Proof.
  cbn [serve_all]. unfold templateHandler_ServeHTTP. cbn [once filename templ].
  destruct (fs (Join "templates" fname)) as [T|]; by rewrite serve_all_done.
Qed.

End template_facts.

(** * What the server keeps *)

Section kept.

Implicit Types (s : system) (r : rptr) (e : event) (evs : list event).

Lemma with_server_Ok hs (res : result server) s' :
  with_server hs res = Ok s' → ∃ sv', res = Ok sv' ∧ s' = System sv' hs.
Proof. destruct res as [sv'| |]; [|done..]. intros [= <-]. eauto. Qed.

Lemma loop_step_registry r a sv sv' :
  loop_step r a sv = Ok sv' →
  rooms (registry_of sv') = rooms (registry_of sv)
  ∧ running (registry_of sv') = running (registry_of sv).
Proof.
  unfold loop_step. destruct (room_heap (registry_of sv) !! r); [|done].
  destruct (bool_decide (r ∈ running (registry_of sv))); [|done].
  destruct (step a _); [|done..]. by intros [= <-].
Qed.

Lemma writer_step_registry a sv sv' :
  writer_step a sv = Ok sv' → registry_of sv' = registry_of sv.
Proof. unfold writer_step. destruct (step a _); [|done..]. by intros [= <-]. Qed.

Lemma getRoom_keeps nm g n r :
  rooms g !! n = Some r →
  rooms (getRoom nm g).2 !! n = Some r
  ∧ (r ∈ running g → r ∈ running (getRoom nm g).2).
Proof.
  intros Hn. unfold getRoom. destruct (rooms g !! nm) eqn:Hnm; simpl; [done|].
  split; [|by right]. rewrite lookup_insert_ne; [done|]. intros ->. congruence.
Qed.

Lemma sys_step_keeps e s s' n r :
  sys_step e s = Ok s' →
  rooms (registry_of (srv s)) !! n = Some r →
  rooms (registry_of (srv s')) !! n = Some r
  ∧ (r ∈ running (registry_of (srv s)) → r ∈ running (registry_of (srv s'))).
Proof.
  intros Hstep Hn. destruct e as [req rnd|c|c msg order|c|c|r0|c ok|c].
  1: { cbn [sys_step] in Hstep. rewrite room_route_eq in Hstep. unfold ServeHTTP in Hstep.
       destruct (decide (Query_Get (query req) "room" = EmptyString)).
       { by injection Hstep as <-. }
       pose proof (getRoom_keeps (Query_Get (query req) "room") (registry_of (srv s)) n r Hn)
         as Hkeep.
       destruct (getRoom (Query_Get (query req) "room") (registry_of (srv s))) as [r1 g'].
       destruct (handshake req); by injection Hstep as <-. }
  all: cbn [sys_step] in Hstep;
    repeat match type of Hstep with
           | match ?x with _ => _ end = _ => destruct x eqn:?
           end; try discriminate;
    try (injection Hstep as <-; done);
    apply with_server_Ok in Hstep as (sv' & Hres & ->); cbn [srv];
    first [apply loop_step_registry in Hres as [-> ->]; done
          |apply writer_step_registry in Hres as ->; done].
Qed.

Lemma sys_exec_keeps evs :
  ∀ s s' n r,
    sys_exec evs s = Ok s' →
    rooms (registry_of (srv s)) !! n = Some r →
    rooms (registry_of (srv s')) !! n = Some r
    ∧ (r ∈ running (registry_of (srv s)) → r ∈ running (registry_of (srv s'))).
Proof.
  induction evs as [|e evs IH]; intros s s' n r; simpl.
  { by intros [= <-]. }
  destruct (sys_step e s) as [s1| |] eqn:Hstep; [|done..]. intros Hrun Hn.
  destruct (sys_step_keeps e s s1 n r Hstep Hn) as [Hn1 Hrun1].
  destruct (IH s1 s' n r Hrun Hn1) as [Hn' Hrun']. split; [done|]. auto.
Qed.

End kept.

(** X13: a room is never given up: whatever happens afterwards (all its
    members may leave), a name that is bound to a room stays bound to this
    same room, and the loop of the room keeps running; no request, leave or
    read error removes an entry of [rooms]. *)
Theorem rooms_are_never_removed evs s s' n r :
  sys_exec evs s = Ok s' →
  rooms (registry_of (srv s)) !! n = Some r →
  rooms (registry_of (srv s')) !! n = Some r
  ∧ (r ∈ running (registry_of (srv s)) → r ∈ running (registry_of (srv s'))).
Proof. apply sys_exec_keeps. Qed.

Lemma rooms_are_never_removed_witness :
  ∃ s s',
    sys_exec (take 1 visit) boot = Ok s ∧ sys_exec (drop 1 visit) s = Ok s'
    ∧ clients <$> (room_heap (registry_of (srv s')) !! 1%positive) = Some ∅
    ∧ rooms (registry_of (srv s')) !! "lobby" = Some 1%positive
    ∧ 1%positive ∈ running (registry_of (srv s')).
Proof.
  eexists _, _. split; [vm_compute; reflexivity|].
  split; [vm_compute; reflexivity|]. split; [vm_compute; reflexivity|].
  match goal with
  | |- rooms (registry_of (srv ?s')) !! _ = _ ∧ _ =>
      destruct (rooms_are_never_removed (drop 1 visit)
                  (System (Server (Registry {[ "lobby" := 1%positive ]}
                                            {[ 1%positive := newRoom ]} [1%positive])
                                  {[ 1%positive := Client "user234" (Chan 256 [] false)
                                                     1%positive true ]})
                          {[ 1%positive := AtJoin ]})
                  s' "lobby" 1%positive) as [Hbound Hruns]
  end; [vm_compute; reflexivity..|].
  split; [exact Hbound|]. apply Hruns. apply list_elem_of_singleton. reflexivity.
Defined.

(** * A room of the server is a run of the loop *)

Section room_view.

Local Open Scope list_scope.

Implicit Types (s : system) (c d x : cptr) (r : rptr) (R : room_t) (cl : client).
Implicit Types (e : event) (evs : list event) (a : action) (h : gmap cptr client).

(** An action looks at one client object at most, and changes no other. *)
Lemma step_local a R h1 h2 σ1 :
  step a (State R h1) = Ok σ1 →
  (∀ c, target a R = Some c → h2 !! c = h1 !! c) →
  (target a R = None ∧ heap σ1 = h1 ∧ step a (State R h2) = Ok (State (rm σ1) h2))
  ∨ (∃ c cl cl',
        target a R = Some c ∧ h1 !! c = Some cl
        ∧ room cl' = room cl ∧ name cl' = name cl
        ∧ heap σ1 = <[c := cl']> h1
        ∧ step a (State R h2) = Ok (State (rm σ1) (<[c := cl']> h2))).
Proof.
  destruct R as [cls pc].
  destruct a as [c|c|msg order| |c ok|c]; cbn [step target rm at_pc heap clients].
  - destruct pc; [|done]. intros [= <-] _. left. done.
  - destruct pc; [|done]. intros Hstep Hsame. rewrite (Hsame c eq_refl).
    destruct (h1 !! c) as [cl|] eqn:Hcl; [|done].
    destruct (chan_close (receive cl)) as [ch| |]; [|done..].
    injection Hstep as <-. right. exists c, cl, (set_receive cl ch). done.
  - destruct pc; [|done]. case_bool_decide; [|done]. intros [= <-] _. left. done.
  - destruct pc as [|msg cur rest]; [done|]. intros Hstep Hsame.
    rewrite (Hsame cur eq_refl).
    destruct (h1 !! cur) as [cl|] eqn:Hcl; [|done].
    destruct (chan_send (receive cl) msg) as [ch| |]; [|done..].
    injection Hstep as <-. right. exists cur, cl, (set_receive cl ch). done.
  - intros Hstep Hsame. rewrite (Hsame c eq_refl).
    destruct (h1 !! c) as [cl|] eqn:Hcl; [|done].
    destruct (writing cl); [|done].
    destruct (chan_recv (receive cl)) as [[[v|] ch]| |]; [|done..].
    injection Hstep as <-. right.
    exists c, cl, (if ok then set_receive cl ch else stop_writing (set_receive cl ch)).
    by destruct ok.
  - intros Hstep Hsame. rewrite (Hsame c eq_refl).
    destruct (h1 !! c) as [cl|] eqn:Hcl; [|done].
    destruct (writing cl); [|done].
    destruct (chan_recv (receive cl)) as [[[v|] ch]| |]; [done| |done..].
    injection Hstep as <-. right. exists c, cl, (stop_writing cl). done.
Qed.

Lemma for_room_agrees h0 h r r' c cl (acts : client → list action) :
  same_identity h0 h → h !! c = Some cl → room cl = r' →
  (∀ cl0, name cl0 = name cl → acts cl0 = acts cl) →
  for_room h0 r c acts = if bool_decide (r' = r) then acts cl else [].
Proof.
  intros Hid Hcl Hroom Hacts. destruct (Hid c cl Hcl) as (cl0 & Hcl0 & Hr0 & Hn0).
  unfold for_room. rewrite Hcl0, Hr0, Hroom. case_bool_decide; [by apply Hacts|done].
Qed.

(** The writers do the same next to any room. *)
Lemma writer_step_room a R h :
  (∃ c ok, a = ADrain c ok) ∨ (∃ c, a = AWriterEnd c) →
  step a (State R h)
  = match step a (State newRoom h) with
    | Ok σ => Ok (State R (heap σ))
    | Blocked => Blocked
    | Panic f => Panic f
    end.
Proof.
  intros [(c & ok & ->)|(c & ->)]; cbn [step heap rm];
    destruct (h !! c) as [cl|]; try done;
    destruct (writing cl); try done;
    destruct (chan_recv (receive cl)) as [[[v|] ch]| |]; done.
Qed.

(** An event that is no request is one action of the loop of one room, or
    of the writer of a client of this room. *)
Lemma sys_step_as_action e s s' :
  sys_inv s → is_connect e = false → sys_step e s = Ok s' →
  (srv s' = srv s ∧ ∀ h0 r, view_event h0 r e = [])
  ∨ ∃ r' R a σ1,
      room_heap (registry_of (srv s)) !! r' = Some R
      ∧ step a (State R (client_heap (srv s))) = Ok σ1
      ∧ srv s' = Server (Registry (rooms (registry_of (srv s)))
                                  (<[r' := rm σ1]> (room_heap (registry_of (srv s))))
                                  (running (registry_of (srv s))))
                        (heap σ1)
      ∧ (∀ c, target a R = Some c →
           ∃ cl, client_heap (srv s) !! c = Some cl ∧ room cl = r')
      ∧ (∀ h0 r, same_identity h0 (client_heap (srv s)) →
           view_event h0 r e = if bool_decide (r' = r) then [a] else []).
Proof.
  intros Hinv Hreq. destruct s as [[[rs rh run] h] hs].
  pose proof Hinv as (Hnames & Hrun & Hconn & Hmem & Hpend).
  simpl in Hnames, Hrun, Hconn, Hmem, Hpend.
  destruct e as [req rnd|c|c msg order|c|c|r0|c ok|c]; [done|..];
    cbn [sys_step srv handlers registry_of client_heap rooms room_heap running].
  - destruct (hs !! c) as [[]|] eqn:Hph; try done.
    destruct (h !! c) as [cl|] eqn:Hcl; [|done].
    destruct (Hconn c AtJoin Hph) as (cl0 & R & Hcl0 & HR & _).
    rewrite Hcl in Hcl0. injection Hcl0 as <-.
    unfold loop_step. cbn [registry_of room_heap running client_heap rooms]. rewrite HR.
    destruct (bool_decide (room cl ∈ run)); [|done].
    destruct (step (AJoin c) (State R h)) as [σ1| |] eqn:Hstep; [|done..].
    intros [= <-]. right. exists (room cl), R, (AJoin c), σ1.
    split_and!; [done..| |]; [done|].
    intros h0 r Hid. by apply (for_room_agrees h0 h r (room cl) c cl).
  - destruct (hs !! c) as [[]|] eqn:Hph; try done.
    destruct (h !! c) as [cl|] eqn:Hcl; [|done].
    destruct (Hconn c AtRead Hph) as (cl0 & R & Hcl0 & HR & _).
    rewrite Hcl in Hcl0. injection Hcl0 as <-.
    rewrite json_Marshal_outgoing.
    unfold loop_step. cbn [registry_of room_heap running client_heap rooms]. rewrite HR.
    destruct (bool_decide (room cl ∈ run)); [|done].
    destruct (step (AForward (payload_text (name cl) msg) order) (State R h))
      as [σ1| |] eqn:Hstep; [|done..].
    intros [= <-]. right.
    exists (room cl), R, (AForward (payload_text (name cl) msg) order), σ1.
    split_and!; [done..| |]; [done|].
    intros h0 r Hid. cbn [view_event].
    rewrite (for_room_agrees h0 h r (room cl) c cl _ Hid Hcl eq_refl).
    + by rewrite json_Marshal_outgoing.
    + intros cl0 Hname. by rewrite !json_Marshal_outgoing, Hname.
  - destruct (hs !! c) as [[]|] eqn:Hph; try done.
    intros [= <-]. left. done.
  - destruct (hs !! c) as [[]|] eqn:Hph; try done.
    destruct (h !! c) as [cl|] eqn:Hcl; [|done].
    destruct (Hconn c AtLeave Hph) as (cl0 & R & Hcl0 & HR & _).
    rewrite Hcl in Hcl0. injection Hcl0 as <-.
    unfold loop_step. cbn [registry_of room_heap running client_heap rooms]. rewrite HR.
    destruct (bool_decide (room cl ∈ run)); [|done].
    destruct (step (ALeave c) (State R h)) as [σ1| |] eqn:Hstep; [|done..].
    intros [= <-]. right. exists (room cl), R, (ALeave c), σ1.
    split_and!; [done..| |].
    + intros c0 [= <-]. eauto.
    + intros h0 r Hid. by apply (for_room_agrees h0 h r (room cl) c cl).
  - case_bool_decide as Hr; [|done].
    unfold loop_step. cbn [registry_of room_heap running client_heap rooms].
    destruct (rh !! r0) as [R|] eqn:HR; [|done].
    rewrite bool_decide_eq_true_2 by done.
    destruct (step ASend (State R h)) as [σ1| |] eqn:Hstep; [|done..].
    intros [= <-]. right. exists r0, R, ASend, σ1.
    split_and!; [done..| |done].
    intros c0. cbn [target]. destruct (at_pc R) as [|m cur rest] eqn:Hpc; [done|].
    intros [= <-].
    assert (cur ∈ dom (clients R)) as Hcur.
    { apply (Hpend r0 R cur HR). rewrite Hpc. simpl. by left. }
    destruct (Hmem r0 R cur HR Hcur) as (cl & Hcl & Hroom & _). eauto.
  - destruct (hs !! c) as [ph|] eqn:Hph; [|done].
    destruct (Hconn c ph Hph) as (cl & R & Hcl & HR & _).
    intros Hstep.
    assert (with_server hs (writer_step (ADrain c ok) (Server (Registry rs rh run) h)) = Ok s')
      as Hw by (by destruct ph).
    clear Hstep. unfold writer_step in Hw. cbn [client_heap registry_of] in Hw.
    pose proof (writer_step_room (ADrain c ok) R h) as Hroom.
    destruct (step (ADrain c ok) (State newRoom h)) as [σ| |]; [|done..].
    injection Hw as <-. right. exists (room cl), R, (ADrain c ok), (State R (heap σ)).
    split_and!; [done|eauto| | |].
    + cbn [srv rm heap]. by rewrite insert_id.
    + intros c0 [= <-]. eauto.
    + intros h0 r Hid. by apply (for_room_agrees h0 h r (room cl) c cl).
  - destruct (hs !! c) as [ph|] eqn:Hph; [|done].
    destruct (Hconn c ph Hph) as (cl & R & Hcl & HR & _).
    intros Hstep.
    assert (with_server hs (writer_step (AWriterEnd c) (Server (Registry rs rh run) h)) = Ok s')
      as Hw by (by destruct ph).
    clear Hstep. unfold writer_step in Hw. cbn [client_heap registry_of] in Hw.
    pose proof (writer_step_room (AWriterEnd c) R h) as Hroom.
    destruct (step (AWriterEnd c) (State newRoom h)) as [σ| |]; [|done..].
    injection Hw as <-. right. exists (room cl), R, (AWriterEnd c), (State R (heap σ)).
    split_and!; [done|eauto| | |].
    + cbn [srv rm heap]. by rewrite insert_id.
    + intros c0 [= <-]. eauto.
    + intros h0 r Hid. by apply (for_room_agrees h0 h r (room cl) c cl).
Qed.

Lemma same_identity_insert h0 h c cl cl' :
  h !! c = Some cl → room cl' = room cl → name cl' = name cl →
  (same_identity h0 h → same_identity h0 (<[c := cl']> h))
  ∧ (same_identity h h0 → same_identity (<[c := cl']> h) h0).
Proof.
  intros Hcl Hroom Hname. split; intros Hid c0 cl0.
  - destruct (decide (c = c0)) as [<-|Hne].
    + rewrite lookup_insert_eq. intros [= <-].
      destruct (Hid c cl Hcl) as (cl1 & ? & ? & ?). exists cl1. split_and!; congruence.
    + rewrite lookup_insert_ne by done. apply Hid.
  - intros Hc0. destruct (Hid c0 cl0 Hc0) as (cl1 & Hcl1 & Hr1 & Hn1).
    destruct (decide (c = c0)) as [<-|Hne].
    + exists cl'. rewrite lookup_insert_eq. split_and!; congruence.
    + exists cl1. by rewrite lookup_insert_ne.
Qed.

Lemma exec_app tr1 tr2 (σ : state) :
  exec (tr1 ++ tr2) σ
  = match exec tr1 σ with
    | Ok σ1 => exec tr2 σ1
    | Blocked => Blocked
    | Panic f => Panic f
    end.
Proof.
  revert σ. induction tr1 as [|a tr1 IH]; intros σ; [done|].
  simpl. destruct (step a σ); [apply IH|done..].
Qed.

(** One event of the server, seen from the room at [r]. *)
Lemma view_step h0 r e s s' (σ : state) :
  sys_inv s → is_connect e = false → sys_step e s = Ok s' →
  room_heap (registry_of (srv s)) !! r = Some (rm σ) →
  same_identity h0 (client_heap (srv s)) →
  same_identity (client_heap (srv s)) h0 →
  (∀ c cl, client_heap (srv s) !! c = Some cl → room cl = r → heap σ !! c = Some cl) →
  ∃ σ', exec (view_event h0 r e) σ = Ok σ'
    ∧ room_heap (registry_of (srv s')) !! r = Some (rm σ')
    ∧ same_identity h0 (client_heap (srv s'))
    ∧ same_identity (client_heap (srv s')) h0
    ∧ (∀ c cl, client_heap (srv s') !! c = Some cl → room cl = r → heap σ' !! c = Some cl).
Proof.
  intros Hinv He Hstep HR Hid Hid' Hagree.
  destruct (sys_step_as_action e s s' Hinv He Hstep)
    as [[Hsame Hview]|(r' & R & a & σ1 & HR' & Hstep1 & Hsrv & Htarget & Hview)].
  { exists σ. rewrite Hview, Hsame. done. }
  rewrite (Hview h0 r Hid), Hsrv. cbn [registry_of room_heap client_heap].
  destruct σ as [Rσ hσ]. simpl in HR, Hagree.
  case_bool_decide as Hr.
  - subst r'. rewrite HR in HR'. injection HR' as ->.
    destruct (step_local a R (client_heap (srv s)) hσ σ1 Hstep1)
      as [(Hnone & Hheap & Hstep2)
         |(c & cl & cl' & Htc & Hcl & Hroom & Hname & Hheap & Hstep2)].
    { intros c Hc. destruct (Htarget c Hc) as (cl & Hcl & Hroom). rewrite Hcl.
      by apply Hagree. }
    + exists (State (rm σ1) hσ). cbn [exec]. rewrite Hstep2, Hheap.
      split_and!; [done|by rewrite lookup_insert_eq|done..].
    + exists (State (rm σ1) (<[c := cl']> hσ)). cbn [exec]. rewrite Hstep2, Hheap.
      destruct (same_identity_insert h0 (client_heap (srv s)) c cl cl' Hcl Hroom Hname)
        as [Hins Hins'].
      split_and!; [done|by rewrite lookup_insert_eq|by apply Hins|by apply Hins'|].
      intros c0 cl0. cbn [heap]. destruct (decide (c = c0)) as [<-|Hne].
      * by rewrite !lookup_insert_eq.
      * rewrite !lookup_insert_ne by done. apply Hagree.
  - exists (State Rσ hσ). cbn [exec view_event]. rewrite lookup_insert_ne by done.
    destruct (step_local a R (client_heap (srv s)) (client_heap (srv s)) σ1 Hstep1)
      as [(Hnone & Hheap & _)
         |(c & cl & cl' & Htc & Hcl & Hroom & Hname & Hheap & _)]; [done| |].
    + rewrite Hheap. done.
    + rewrite Hheap.
      destruct (same_identity_insert h0 (client_heap (srv s)) c cl cl' Hcl Hroom Hname)
        as [Hins Hins'].
      split_and!; [done|done|by apply Hins|by apply Hins'|].
      intros c0 cl0. cbn [heap]. destruct (decide (c = c0)) as [<-|Hne].
      * rewrite lookup_insert_eq. intros [= <-] Hcl'.
        destruct (Htarget c Htc) as (cl1 & Hcl1 & Hr1). congruence.
      * rewrite lookup_insert_ne by done. apply Hagree.
Qed.

Lemma view_exec h0 r evs :
  ∀ s s' (σ : state),
    sys_inv s → existsb is_connect evs = false → sys_exec evs s = Ok s' →
    room_heap (registry_of (srv s)) !! r = Some (rm σ) →
    same_identity h0 (client_heap (srv s)) →
    same_identity (client_heap (srv s)) h0 →
    (∀ c cl, client_heap (srv s) !! c = Some cl → room cl = r → heap σ !! c = Some cl) →
    ∃ σ', exec (view h0 r evs) σ = Ok σ'
      ∧ room_heap (registry_of (srv s')) !! r = Some (rm σ')
      ∧ same_identity (client_heap (srv s')) h0
      ∧ (∀ c cl, client_heap (srv s') !! c = Some cl → room cl = r →
           heap σ' !! c = Some cl).
Proof.
  induction evs as [|e evs IH]; intros s s' σ Hinv Hreq; simpl.
  { intros [= <-] HR Hid Hid' Hagree. exists σ. done. }
  simpl in Hreq. apply orb_false_elim in Hreq as [He Hreq].
  destruct (sys_step e s) as [s1| |] eqn:Hstep; [|done..].
  intros Hrun HR Hid Hid' Hagree.
  destruct (view_step h0 r e s s1 σ Hinv He Hstep HR Hid Hid' Hagree)
    as (σ1 & Hexec1 & HR1 & Hid1 & Hid1' & Hagree1).
  destruct (IH s1 s' σ1 (proj2 (sys_step_ok e s Hinv) s1 Hstep) Hreq Hrun HR1 Hid1 Hid1' Hagree1)
    as (σ' & Hexec & Hrest).
  exists σ'. rewrite exec_app, Hexec1. done.
Qed.

Lemma same_identity_refl h : same_identity h h.
Proof. intros c cl Hcl. eauto. Qed.

End room_view.

(** X14: seen from one room, the server is the loop of [run]: between two
    requests, what any interleaving of the events of all rooms does to the
    room at [r] and to the clients created for it is exactly a run of the
    loop of [r], with the writers of its clients, on the actions that the
    events of its own clients amount to; the events of other rooms leave
    no trace. *)
Theorem room_runs_as_loop evs0 evs s s' r R :
  sys_exec evs0 boot = Ok s →
  existsb is_connect evs = false →
  sys_exec evs s = Ok s' →
  room_heap (registry_of (srv s)) !! r = Some R →
  ∃ σ', exec (view (client_heap (srv s)) r evs) (State R (client_heap (srv s))) = Ok σ'
    ∧ room_heap (registry_of (srv s')) !! r = Some (rm σ')
    ∧ (∀ c cl, client_heap (srv s') !! c = Some cl → room cl = r →
         heap σ' !! c = Some cl).
Proof.
  intros Hboot Hreq Hrun HR.
  assert (sys_inv s) as Hinv by (by apply (sys_exec_ok evs0 boot boot_inv)).
  destruct (view_exec (client_heap (srv s)) r evs s s' (State R (client_heap (srv s)))
              Hinv Hreq Hrun HR (same_identity_refl _) (same_identity_refl _))
    as (σ' & Hexec & HR' & _ & Hagree); [done|].
  exists σ'. done.
Qed.

Lemma room_runs_as_loop_witness :
  ∃ σ', exec [AJoin 1%positive; AForward (payload_text "user1" "hi") [1%positive]; ASend]
             (State newRoom (client_heap (srv two_rooms))) = Ok σ'
    ∧ room_heap (registry_of (srv two_rooms_after)) !! 1%positive = Some (rm σ')
    ∧ (∀ c cl, client_heap (srv two_rooms_after) !! c = Some cl → room cl = 1%positive →
         heap σ' !! c = Some cl).
Proof.
  apply (room_runs_as_loop two_rooms_open two_rooms_talk two_rooms two_rooms_after
           1%positive newRoom); vm_compute; reflexivity.
Defined.

(** X15: in the server, between two requests and from one idle moment of
    the loop of a room to another, the queue of a client of this room is
    what it was, followed by the payloads of the frames that clients of
    this room sent while the client was a member, in the order the loop
    took them, less what its writer took from the front; frames of other
    rooms add nothing. *)
Theorem server_delivers_to_members evs0 evs s s' d cl R R' :
  sys_exec evs0 boot = Ok s →
  existsb is_connect evs = false →
  sys_exec evs s = Ok s' →
  client_heap (srv s) !! d = Some cl →
  room_heap (registry_of (srv s)) !! room cl = Some R →
  at_pc R = Select →
  room_heap (registry_of (srv s')) !! room cl = Some R' →
  at_pc R' = Select →
  ∃ cl', client_heap (srv s') !! d = Some cl'
    ∧ buf (receive cl')
      = drop (drains d (view (client_heap (srv s)) (room cl) evs))
             (buf (receive cl)
              ++ deliveries d (bool_decide (d ∈ dom (clients R)))
                   (view (client_heap (srv s)) (room cl) evs))%list.
Proof.
  intros Hboot Hreq Hrun Hd HR Hsel HR' Hsel'.
  assert (sys_inv s) as Hinv by (by apply (sys_exec_ok evs0 boot boot_inv)).
  destruct (view_exec (client_heap (srv s)) (room cl) evs s s'
              (State R (client_heap (srv s)))
              Hinv Hreq Hrun HR (same_identity_refl _) (same_identity_refl _))
    as (σ' & Hexec & HRσ & Hid & Hagree); [done|].
  rewrite HR' in HRσ. injection HRσ as HRσ.
  destruct (Hid d cl Hd) as (cl' & Hcl' & Hroom' & _).
  exists cl'. split; [done|].
  assert (NoDup (pending (State R (client_heap (srv s))))) as Hnd
    by (unfold pending; simpl; rewrite Hsel; constructor).
  assert (queue d (State R (client_heap (srv s))) = Some (buf (receive cl))) as Hq0
    by (unfold queue; simpl; by rewrite Hd).
  assert (at_pc (rm σ') = Select) as Hsel0 by (by rewrite <- HRσ).
  pose proof (exec_queue _ _ σ' d (buf (receive cl)) Hnd Hexec Hsel0 Hq0) as Hq.
  unfold queue in Hq. rewrite (Hagree d cl' Hcl' Hroom') in Hq. simpl in Hq.
  injection Hq as ->. unfold owed, is_member, members. simpl. by rewrite Hsel.
Qed.

Lemma server_delivers_to_members_witness :
  ∃ cl', client_heap (srv two_rooms_after) !! 1%positive = Some cl'
    ∧ buf (receive cl') = [payload_text "user1" "hi"].
Proof.
  destruct (server_delivers_to_members two_rooms_open two_rooms_talk two_rooms
              two_rooms_after 1%positive
              (Client "user1" (Chan 256 [] false) 1%positive true)
              newRoom (Room {[ 1%positive := true ]} Select))
    as (cl' & Hcl' & Hbuf); [vm_compute; reflexivity..|].
  exists cl'. split; [exact Hcl'|]. rewrite Hbuf. vm_compute. reflexivity.
Defined.
